(** * btrfs-corrupt-block: a model of the two corrupters and of the
      command line that selects between them

    The development follows [btrfs-corrupt-block.c].  Its three functions,
    [debug_corrupt_block], [corrupt_extent] and [main], are written as
    computations in a small state-and-failure monad; the tree, volume and
    transaction layers they call (ctree.h, volumes.h, disk-io.h,
    transaction.h) are not part of the file and are described by the small
    models given next to each use. *)

From Stdlib Require Import String.
From Stdlib Require Import ZArith List Bool Lia Sorted.
Import ListNotations.
Open Scope Z_scope.

(** ** kerncompat.h: fixed-width integers *)

Definition u8 (z : Z) : Z := z mod 2 ^ 8.
Definition u64 (z : Z) : Z := z mod 2 ^ 64.
Definition INT_MAX : Z := 2 ^ 31 - 1.

(** ** Computations with state, BUG_ON and loops *)

(** How a computation ends: it returns a value; a [BUG_ON] fires and the
    process aborts; the C program leaves defined behaviour (an index outside
    an array, a signed overflow); a [while (1)] loop was cut by the
    iteration bound of the model; or [exit(status)] was called. *)
Inductive outcome (A : Type) : Type :=
| Done (a : A)
| Bug
| Undef
| NoFuel
| Exited (status : Z).
Arguments Done {A} a.
Arguments Bug {A}.
Arguments Undef {A}.
Arguments NoFuel {A}.
Arguments Exited {A} status.

Definition M (S A : Type) : Type := S -> outcome A * S.

Definition mret {S A : Type} (a : A) : M S A := fun s => (Done a, s).

Definition bind {S A B : Type} (m : M S A) (f : A -> M S B) : M S B :=
  fun s =>
    match m s with
    | (Done a, s') => f a s'
    | (Bug, s') => (Bug, s')
    | (Undef, s') => (Undef, s')
    | (NoFuel, s') => (NoFuel, s')
    | (Exited n, s') => (Exited n, s')
    end.

Definition BUG_ON {S : Type} (cond : bool) : M S unit :=
  fun s => if cond then (Bug, s) else (Done tt, s).

Definition undefined {S A : Type} : M S A := fun s => (Undef, s).
Definition out_of_fuel {S A : Type} : M S A := fun s => (NoFuel, s).

Declare Scope monad_scope.
Delimit Scope monad_scope with monad.
Notation "x <- c1 ;; c2" := (bind c1 (fun x => c2))
  (at level 61, c1 at next level, right associativity) : monad_scope.
Notation "' pat <- c1 ;; c2" :=
  (bind c1 (fun x => match x with pat => c2 end))
  (at level 61, pat pattern, c1 at next level, right associativity) : monad_scope.
Notation "c1 ;; c2" := (bind c1 (fun _ => c2))
  (at level 61, right associativity) : monad_scope.
Open Scope monad_scope.

(** What the body of a [while (1)] loop asks for when it ends. *)
Inductive ctl : Type := Break | Continue.

(** ** ctree.h: keys *)

Module Ctree.

Record btrfs_key : Type := mk_key {
  objectid : Z;   (* u64 *)
  type : Z;       (* u8 *)
  offset : Z      (* u64 *)
}.

Definition set_offset (k : btrfs_key) (o : Z) : btrfs_key :=
  {| objectid := objectid k; type := type k; offset := o |}.

(** Modelled from the spec: the six recognised extent-reference kinds of
    the extent-metadata corrupter (extent item, tree-block back-reference,
    extent-data back-reference, legacy extent-reference, shared-block
    back-reference, shared-data back-reference).  ctree.h, which numbers
    them, is not among the sources; the numbers are those of the on-disk
    format, and no statement below depends on them. *)
Definition BTRFS_EXTENT_ITEM_KEY : Z := 168.
Definition BTRFS_TREE_BLOCK_REF_KEY : Z := 176.
Definition BTRFS_EXTENT_DATA_REF_KEY : Z := 178.
Definition BTRFS_EXTENT_REF_V0_KEY : Z := 180.
Definition BTRFS_SHARED_BLOCK_REF_KEY : Z := 182.
Definition BTRFS_SHARED_DATA_REF_KEY : Z := 184.

(** Modelled from the spec: the order of keys, "objectId-major, then type,
    then offset". *)
Definition comp_keys (k1 k2 : btrfs_key) : comparison :=
  match objectid k1 ?= objectid k2 with
  | Eq => match type k1 ?= type k2 with
          | Eq => offset k1 ?= offset k2
          | c => c
          end
  | c => c
  end.

Definition key_lt (k1 k2 : btrfs_key) : Prop := comp_keys k1 k2 = Lt.

End Ctree.

(** ** The extent-metadata corrupter: [corrupt_extent] *)

Module ExtentCorrupter.
Import Ctree.

(** An item of a leaf: its key and its payload bytes. *)
Record btrfs_item : Type := mk_item {
  key : btrfs_key;
  data : list Byte.byte
}.

(** The leaf level of the extent tree as [corrupt_extent] sees it through
    [path->nodes[0]] and [path->slots[0]]: the items of the leaves, taken
    together in key order, and the dirty mark of the buffer.  A slot is a
    position in this sequence. *)
Record extent_buffer : Type := mk_leaf {
  items : list btrfs_item;
  dirty : bool
}.

(** The calls [corrupt_extent] makes, in the order it makes them. *)
Inductive event : Type :=
| EvStartTransaction
| EvSearchSlot (k : btrfs_key) (ret : Z)
| EvItemKey (slot : nat) (k : btrfs_key)
| EvStderr (k : btrfs_key)
| EvMemset (slot : nat) (item_size : nat)
| EvMarkDirty
| EvReleasePath
| EvFreePath
| EvCommit
| EvCloseCtree (ret : Z).

(** The filesystem handle behind [root]: the extent tree held in memory
    (where mutations are staged), the image a commit has written, what the
    tree layer will answer to the coming searches, what
    [btrfs_commit_transaction] and [close_ctree] will answer, and the calls
    made so far. *)
Record fs_info : Type := mk_fs {
  extent_root : extent_buffer;
  committed : list btrfs_item;
  search_faults : list Z;
  commit_ret : Z;
  close_ret : Z;
  log : list event
}.

Definition emit (e : event) : M fs_info unit :=
  fun fs =>
    (Done tt,
     {| extent_root := extent_root fs; committed := committed fs;
        search_faults := search_faults fs;
        commit_ret := commit_ret fs; close_ret := close_ret fs;
        log := log fs ++ [e] |}).

Definition set_leaf (l : extent_buffer) : M fs_info unit :=
  fun fs =>
    (Done tt,
     {| extent_root := l; committed := committed fs;
        search_faults := search_faults fs;
        commit_ret := commit_ret fs; close_ret := close_ret fs;
        log := log fs |}).

Definition get_leaf : M fs_info extent_buffer :=
  fun fs => (Done (extent_root fs), fs).

(** Modelled from the spec: the key search of the tree layer
    ([btrfs_search_slot], ctree.c), with the "nearest" semantics the scan
    relies on.  The answer is 0 and the slot of the key when the key is
    present, 1 and the slot where the key would be inserted when it is not. *)
Fixpoint bin_search (l : list btrfs_item) (k : btrfs_key) : Z * nat :=
  match l with
  | [] => (1, 0%nat)
  | it :: rest =>
      match comp_keys (key it) k with
      | Lt => let '(r, s) := bin_search rest k in (r, S s)
      | Eq => (0, 0%nat)
      | Gt => (1, 0%nat)
      end
  end.

(** Takes what the tree layer answers to this search: a negative entry of
    [search_faults] is the error the search reports. *)
Definition next_fault : M fs_info Z :=
  fun fs =>
    match search_faults fs with
    | [] => (Done 0, fs)
    | e :: rest =>
        (Done e,
         {| extent_root := extent_root fs; committed := committed fs;
            search_faults := rest;
            commit_ret := commit_ret fs; close_ret := close_ret fs;
            log := log fs |})
    end.

(** Modelled from the spec: [search_tree(transaction, key, cursor,
    mutate=true) -> position | negative-on-error]. *)
Definition btrfs_search_slot (k : btrfs_key) : M fs_info (Z * nat) :=
  e <- next_fault ;;
  if e <? 0 then
    emit (EvSearchSlot k e) ;; mret (e, 0%nat)
  else
    leaf <- get_leaf ;;
    let '(r, s) := bin_search (items leaf) k in
    emit (EvSearchSlot k r) ;; mret (r, s).

(** Modelled from the spec: "read back the key at that position",
    [btrfs_item_key_to_cpu(leaf, &key, slot)]; a slot outside the leaf has
    no key to read. *)
Definition btrfs_item_key_to_cpu (slot : nat) : M fs_info btrfs_key :=
  leaf <- get_leaf ;;
  match nth_error (items leaf) slot with
  | Some it => emit (EvItemKey slot (key it)) ;; mret (key it)
  | None => undefined
  end.

Definition zero_item (it : btrfs_item) : btrfs_item :=
  {| key := key it; data := repeat Byte.x00 (length (data it)) |}.

Fixpoint zero_slot (l : list btrfs_item) (slot : nat) : list btrfs_item :=
  match l, slot with
  | [], _ => []
  | it :: rest, O => zero_item it :: rest
  | it :: rest, S n => it :: zero_slot rest n
  end.

(** Modelled from the spec: "zero the record's payload bytes (not its key)
    in place", which is [ptr = btrfs_item_ptr_offset(leaf, slot); item_size =
    btrfs_item_size_nr(leaf, slot); memset_extent_buffer(leaf, 0, ptr,
    item_size)]. *)
Definition memset_item (slot : nat) : M fs_info unit :=
  leaf <- get_leaf ;;
  match nth_error (items leaf) slot with
  | Some it =>
      set_leaf {| items := zero_slot (items leaf) slot; dirty := dirty leaf |} ;;
      emit (EvMemset slot (length (data it)))
  | None => undefined
  end.

(** Modelled from the spec: "mark the containing block dirty". *)
Definition btrfs_mark_buffer_dirty : M fs_info unit :=
  leaf <- get_leaf ;;
  set_leaf {| items := items leaf; dirty := true |} ;;
  emit EvMarkDirty.

(** Modelled from the spec: [commit_transaction(transaction) -> success |
    failure], "an atomic batch of tree mutations committed together".  What
    it answers is part of the filesystem handle: on 0 every staged mutation
    reaches the image and the buffer is clean again; on anything else the
    image is left as it was. *)
Definition btrfs_commit_transaction : M fs_info Z :=
  fun fs =>
    if commit_ret fs =? 0 then
      (Done 0,
       {| extent_root := {| items := items (extent_root fs); dirty := false |};
          committed := items (extent_root fs);
          search_faults := search_faults fs;
          commit_ret := commit_ret fs; close_ret := close_ret fs;
          log := log fs ++ [EvCommit] |})
    else
      (Done (commit_ret fs),
       {| extent_root := extent_root fs;
          committed := committed fs;
          search_faults := search_faults fs;
          commit_ret := commit_ret fs; close_ret := close_ret fs;
          log := log fs ++ [EvCommit] |}).

(** Modelled from the spec: [close_filesystem(handle) -> success |
    failure]; what it answers is part of the filesystem handle. *)
Definition close_ctree : M fs_info Z :=
  fun fs =>
    (Done (close_ret fs),
     {| extent_root := extent_root fs; committed := committed fs;
        search_faults := search_faults fs;
        commit_ret := commit_ret fs; close_ret := close_ret fs;
        log := log fs ++ [EvCloseCtree (close_ret fs)] |}).

(** Lines 139-145: the test that sends every other type to [next]. *)
Definition not_extent_ref (t : Z) : bool :=
  negb (t =? BTRFS_EXTENT_ITEM_KEY) &&
  negb (t =? BTRFS_TREE_BLOCK_REF_KEY) &&
  negb (t =? BTRFS_EXTENT_DATA_REF_KEY) &&
  negb (t =? BTRFS_EXTENT_REF_V0_KEY) &&
  negb (t =? BTRFS_SHARED_BLOCK_REF_KEY) &&
  negb (t =? BTRFS_SHARED_DATA_REF_KEY).

(** Lines 157-160: [if (key.offset > 0) key.offset--; if (key.offset == 0)
    break;]. *)
Definition step_offset (k : btrfs_key) : ctl * btrfs_key :=
  let k1 := if 0 <? offset k then set_offset k (offset k - 1) else k in
  if offset k1 =? 0 then (Break, k1) else (Continue, k1).

(** Lines 147-153, reached when the type is a recognised one. *)
Definition corrupt_item (slot : nat) (k : btrfs_key) : M fs_info unit :=
  emit (EvStderr k) ;;
  memset_item slot ;;
  btrfs_mark_buffer_dirty.

(** One pass through the body of the [while (1)] of [corrupt_extent]
    (lines 123-160): the search key it leaves and whether the loop goes on. *)
Definition scan_body (bytenr : Z) (k : btrfs_key) : M fs_info (ctl * btrfs_key) :=
  '(ret, slot0) <- btrfs_search_slot k ;;
  if ret <? 0 then mret (Break, k)
  else if (0 <? ret) && (slot0 =? 0)%nat then mret (Break, k)
  else
    let slot := if 0 <? ret then Nat.pred slot0 else slot0 in
    k <- btrfs_item_key_to_cpu slot ;;
    if negb (objectid k =? bytenr) then mret (Break, k)
    else
      (if not_extent_ref (type k) then mret tt else corrupt_item slot k) ;;
      emit EvReleasePath ;;
      mret (step_offset k).

Fixpoint scan_loop (fuel : nat) (bytenr : Z) (k : btrfs_key) : M fs_info unit :=
  match fuel with
  | O => out_of_fuel
  | S fuel' =>
      '(c, k') <- scan_body bytenr k ;;
      match c with
      | Break => mret tt
      | Continue => scan_loop fuel' bytenr k'
      end
  end.

(** [corrupt_extent(root, bytenr, copy)]; [fuel] bounds the passes of the
    loop.  What [btrfs_commit_transaction] answers is dropped, as line 164
    drops it. *)
Definition corrupt_extent (fuel : nat) (bytenr : Z) (copy : Z) : M fs_info Z :=
  emit EvStartTransaction ;;
  let k := {| objectid := bytenr; type := u8 (-1); offset := u64 (-1) |} in
  scan_loop fuel bytenr k ;;
  emit EvFreePath ;;
  _ <- btrfs_commit_transaction ;;
  ret <- close_ctree ;;
  BUG_ON (negb (ret =? 0)) ;;
  mret 0.

(** The keys the searches of a log were made for, oldest first. *)
Fixpoint searched (l : list event) : list btrfs_key :=
  match l with
  | [] => []
  | EvSearchSlot k _ :: rest => k :: searched rest
  | _ :: rest => searched rest
  end.

(** A filesystem that has not been touched: nothing staged, no fault. *)
Definition fresh_fs (l : list btrfs_item) : fs_info :=
  {| extent_root := {| items := l; dirty := false |};
     committed := l; search_faults := []; commit_ret := 0; close_ret := 0;
     log := [] |}.

End ExtentCorrupter.

(** ** The mirror corrupter: [debug_corrupt_block] *)

Module MirrorCorrupter.

Record btrfs_device : Type := mk_device {
  devid : Z;
  fd : Z;
  name : String.string
}.

(** [multi->stripes[0]]. *)
Record btrfs_bio_stripe : Type := mk_stripe {
  dev : btrfs_device;
  physical : Z
}.

Record extent_buffer : Type := mk_eb {
  start : Z;                 (* u64 *)
  len : Z;                   (* u32 *)
  eb_fd : Z;
  dev_bytenr : Z;            (* u64 *)
  data : list Byte.byte
}.

(** The calls that reach the outside: the two lines printed and the
    operations on the device. *)
Inductive event : Type :=
| EvStdoutMirror (mirror_num logical physical : Z) (device_name : String.string)
| EvRead (fd dev_bytenr len : Z)
| EvStdoutCorrupting (start mirror_num : Z)
| EvMemset (len : Z)
| EvWrite (fd dev_bytenr : Z) (bytes : list Byte.byte)
| EvFsync (fd : Z).

(** What changes while the corrupter runs: the bytes of every device
    (by descriptor and byte offset), the I/O counter of every device (by
    devid) and the calls made so far. *)
Record world : Type := mk_world {
  disk : Z -> Z -> Byte.byte;
  total_ios : Z -> Z;
  log : list event
}.

(** What the machine refuses: reads, writes and flushes that fail (by
    descriptor and offset), an allocation that fails, and the bytes a new
    buffer holds before anything is read into it. *)
Record faults : Type := mk_faults {
  read_fails : Z -> Z -> bool;
  write_fails : Z -> Z -> bool;
  fsync_fails : Z -> bool;
  nomem : bool;
  junk : nat -> Byte.byte
}.

(** Modelled from the spec: the mapping layer behind
    [root->fs_info->mapping_tree].  [map_block w logical length mirror_num]
    is [map_logical_to_physical]: the first stripe of the mirror and the
    length it covers, or nothing when the mirror cannot be resolved.
    [num_copies w logical len] is [count_mirrors].  Both are asked again on
    every pass and may answer differently as the run goes on. *)
Record btrfs_root : Type := mk_root {
  sectorsize : Z;
  map_block : world -> Z -> Z -> Z -> option (Z * btrfs_bio_stripe);
  num_copies : world -> Z -> Z -> Z
}.

Definition emit (e : event) : M world unit :=
  fun w =>
    (Done tt, {| disk := disk w; total_ios := total_ios w; log := log w ++ [e] |}).

Definition get_world : M world world := fun w => (Done w, w).

Definition set_fd (eb : extent_buffer) (f : Z) : extent_buffer :=
  {| start := start eb; len := len eb; eb_fd := f;
     dev_bytenr := dev_bytenr eb; data := data eb |}.

Definition set_dev_bytenr (eb : extent_buffer) (p : Z) : extent_buffer :=
  {| start := start eb; len := len eb; eb_fd := eb_fd eb;
     dev_bytenr := p; data := data eb |}.

Definition set_data (eb : extent_buffer) (d : list Byte.byte) : extent_buffer :=
  {| start := start eb; len := len eb; eb_fd := eb_fd eb;
     dev_bytenr := dev_bytenr eb; data := d |}.

(** Whether byte [o] of descriptor [f] lies in the [n] bytes at [off] of
    descriptor [f0]. *)
Definition in_range (f0 off n f o : Z) : bool :=
  (f =? f0) && (off <=? o) && (o <? off + n).

(** What a read of [n] bytes at [off] of descriptor [f] returns. *)
Definition content (d : Z -> Z -> Byte.byte) (f off : Z) (n : Z) : list Byte.byte :=
  map (fun i => d f (off + Z.of_nat i)) (seq 0 (Z.to_nat n)).

(** The device after [n] bytes of [bytes] were written at [off]. *)
Definition pwrite (d : Z -> Z -> Byte.byte) (f off n : Z) (bytes : list Byte.byte)
  : Z -> Z -> Byte.byte :=
  fun f' o =>
    if in_range f off n f' o then nth (Z.to_nat (o - off)) bytes Byte.x00
    else d f' o.

Section Machine.
Variable flt : faults.
Variable root : btrfs_root.

(** Modelled from the spec: step 1, "acquire (create-if-absent) a
    TreeBlockBuffer bound to logical/blockSize"; nothing when the buffer
    cannot be obtained. *)
Definition btrfs_find_create_tree_block (bytenr blocksize : Z)
  : M world (option extent_buffer) :=
  if nomem flt then mret None
  else mret (Some {| start := bytenr; len := blocksize; eb_fd := 0;
                     dev_bytenr := 0;
                     data := map (junk flt) (seq 0 (Z.to_nat blocksize)) |}).

Definition btrfs_map_block (logical length mirror_num : Z)
  : M world (option (Z * btrfs_bio_stripe)) :=
  w <- get_world ;;
  mret (map_block root w logical length mirror_num).

Definition btrfs_num_copies (logical len : Z) : M world Z :=
  w <- get_world ;;
  mret (num_copies root w logical len).

(** [device->total_ios++] on a u64 counter. *)
Definition count_io (device : btrfs_device) : M world unit :=
  fun w =>
    (Done tt,
     {| disk := disk w;
        total_ios := fun d => if d =? devid device
                              then u64 (total_ios w d + 1) else total_ios w d;
        log := log w |}).

(** Modelled from the spec: [read_block]; the call "either completes or
    fails outright".  Answers 0 and fills the buffer from its physical
    location, or answers a negative error and leaves the buffer as it was. *)
Definition read_extent_from_disk (eb : extent_buffer) : M world (Z * extent_buffer) :=
  emit (EvRead (eb_fd eb) (dev_bytenr eb) (len eb)) ;;
  w <- get_world ;;
  if read_fails flt (eb_fd eb) (dev_bytenr eb) then mret (-5, eb)
  else mret (0, set_data eb (content (disk w) (eb_fd eb) (dev_bytenr eb) (len eb))).

(** Modelled from the spec: [write_block]; answers 0 and puts the buffer at
    its physical location, or answers a negative error and leaves the device
    as it was. *)
Definition write_extent_to_disk (eb : extent_buffer) : M world Z :=
  emit (EvWrite (eb_fd eb) (dev_bytenr eb) (data eb)) ;;
  if write_fails flt (eb_fd eb) (dev_bytenr eb) then mret (-5)
  else
    fun w =>
      (Done 0,
       {| disk := pwrite (disk w) (eb_fd eb) (dev_bytenr eb) (len eb) (data eb);
          total_ios := total_ios w; log := log w |}).

(** Modelled from the spec: [flush(device)]. *)
Definition fsync (f : Z) : M world Z :=
  emit (EvFsync f) ;;
  if fsync_fails flt f then mret (-1) else mret 0.

(** [memset(eb->data, 0, eb->len)]. *)
Definition memset_data (eb : extent_buffer) : M world extent_buffer :=
  emit (EvMemset (len eb)) ;;
  mret (set_data eb (repeat Byte.x00 (Z.to_nat (len eb)))).

(** Lines 65-72; the three results are dropped as the source drops them. *)
Definition corrupt_copy (eb : extent_buffer) (mirror_num : Z) : M world extent_buffer :=
  '(ret, eb) <- read_extent_from_disk eb ;;
  emit (EvStdoutCorrupting (start eb) mirror_num) ;;
  eb <- memset_data eb ;;
  _ <- write_extent_to_disk eb ;;
  _ <- fsync (eb_fd eb) ;;
  mret eb.

(** One pass through the body of the [while (1)] (lines 52-81).  The locals
    that live across passes are [eb], [length] and [mirror_num]. *)
Definition mirror_body (bytenr copy : Z) (eb : extent_buffer) (length mirror_num : Z)
  : M world (ctl * (extent_buffer * Z * Z)) :=
  m <- btrfs_map_block (start eb) length mirror_num ;;
  match m with
  | None => BUG_ON true ;; undefined
  | Some (length, stripe) =>
      let device := dev stripe in
      let eb := set_fd eb (fd device) in
      count_io device ;;
      let eb := set_dev_bytenr eb (physical stripe) in
      emit (EvStdoutMirror mirror_num bytenr (dev_bytenr eb) (name device)) ;;
      eb <- (if (copy =? 0) || (mirror_num =? copy)
             then corrupt_copy eb mirror_num else mret eb) ;;
      n <- btrfs_num_copies (start eb) (len eb) ;;
      if n =? 1 then mret (Break, (eb, length, mirror_num))
      else if mirror_num =? INT_MAX then undefined
      else
        let mirror_num := mirror_num + 1 in
        if mirror_num >? n then mret (Break, (eb, length, mirror_num))
        else mret (Continue, (eb, length, mirror_num))
  end.

Fixpoint mirror_loop (fuel : nat) (bytenr copy : Z)
    (eb : extent_buffer) (length mirror_num : Z) : M world extent_buffer :=
  match fuel with
  | O => out_of_fuel
  | S fuel' =>
      '(c, (eb, length, mirror_num)) <- mirror_body bytenr copy eb length mirror_num ;;
      match c with
      | Break => mret eb
      | Continue => mirror_loop fuel' bytenr copy eb length mirror_num
      end
  end.

(** [debug_corrupt_block(root, bytenr, blocksize, copy)]; [None] is the
    NULL it returns when no buffer could be had. *)
Definition debug_corrupt_block (fuel : nat) (bytenr blocksize copy : Z)
  : M world (option extent_buffer) :=
  o <- btrfs_find_create_tree_block bytenr blocksize ;;
  match o with
  | None => mret None
  | Some eb =>
      let length := blocksize in
      eb <- mirror_loop fuel bytenr copy eb length 1 ;;
      mret (Some eb)
  end.

End Machine.

End MirrorCorrupter.

(** ** The command line: [main] *)

Module Cli.

(** What [getopt_long(ac, av, "l:c:e", long_options, ...)] returns, one
    entry per call until it returns a negative value: the option character,
    and for the options with an argument what [atoll] or [atoi] makes of
    [optarg].  ['b'] can only come from the long option [--bytes]; any other
    character, and ['?'], take the [default] branch. *)
Inductive option_char : Type :=
| Opt_l (atoll_optarg : Z)
| Opt_c (atoi_optarg : Z)
| Opt_b (atoll_optarg : Z)
| Opt_e
| Opt_other.

(** The locals of [main] that the option loop assigns. *)
Record locals : Type := mk_locals {
  logical : Z;      (* u64 *)
  copy : Z;         (* int *)
  bytes : Z;        (* u64 *)
  extent_rec : Z    (* int *)
}.

(** What [main] does that can be seen from outside, in order. *)
Inductive action : Type :=
| ActStderr (msg : String.string)
| ActUsage
| ActOpenCtree
| ActCorruptExtent (bytenr copy : Z)
| ActDebugCorruptBlock (bytenr blocksize copy : Z).

Definition act (a : action) : M (list action) unit :=
  fun l => (Done tt, l ++ [a]).

(** [print_usage()]: prints and calls [exit(1)]. *)
Definition print_usage {A : Type} : M (list action) A :=
  fun l => (Exited 1, l ++ [ActUsage]).

(** The [switch] of the option loop (lines 189-219), for one option. *)
Definition handle_option (c : option_char) (v : locals) : M (list action) locals :=
  match c with
  | Opt_l a =>
      let v := {| logical := u64 a; copy := copy v; bytes := bytes v;
                  extent_rec := extent_rec v |} in
      if logical v =? 0 then act (ActStderr "invalid extent number"%string) ;; print_usage
      else mret v
  | Opt_c a =>
      let v := {| logical := logical v; copy := a; bytes := bytes v;
                  extent_rec := extent_rec v |} in
      if copy v =? 0 then act (ActStderr "invalid copy number"%string) ;; print_usage
      else mret v
  | Opt_b a =>
      let v := {| logical := logical v; copy := copy v; bytes := u64 a;
                  extent_rec := extent_rec v |} in
      if bytes v =? 0 then act (ActStderr "invalid byte count"%string) ;; print_usage
      else mret v
  | Opt_e =>
      mret {| logical := logical v; copy := copy v; bytes := bytes v;
              extent_rec := 1 |}
  | Opt_other => print_usage
  end.

(** The [while (1)] around [getopt_long] (lines 183-220). *)
Fixpoint option_loop (opts : list option_char) (v : locals) : M (list action) locals :=
  match opts with
  | [] => mret v
  | c :: rest => v <- handle_option c v ;; option_loop rest v
  end.

(** *** [main] and the corrupters it calls *)

Section Main.
Context {St Eb : Type}.

(** The two corrupters on the root that [open_ctree] gave, as computations
    on the state [St] of the filesystem and its devices:
    [corrupt_extent bytenr copy] and [debug_corrupt_block bytenr blocksize
    copy].  A call returns, or stops the process as the corrupter does. *)
Variable corrupt_extent : Z -> Z -> M St Z.
Variable debug_corrupt_block : Z -> Z -> Z -> M St Eb.

(** A part of [main] that calls neither corrupter. *)
Definition lift_log {A : Type} (m : M (list action) A) : M (list action * St) A :=
  fun st => let '(o, l) := m (fst st) in (o, (l, snd st)).

(** A call of a corrupter: the call is recorded, and how it ends and what
    it leaves are those of the corrupter. *)
Definition call {A : Type} (a : action) (m : M St A) : M (list action * St) A :=
  fun st => let '(o, s) := m (snd st) in (o, (fst st ++ [a], s)).

(** The [while (bytes > 0)] of lines 250-255; [free_extent_buffer(eb)] is
    all that is done with what a call returns. *)
Fixpoint block_loop (fuel : nat) (sectorsize logical bytes copy : Z)
  : M (list action * St) unit :=
  match fuel with
  | O => out_of_fuel
  | S fuel' =>
      if bytes >? 0 then
        _ <- call (ActDebugCorruptBlock logical sectorsize copy)
                  (debug_corrupt_block logical sectorsize copy) ;;
        block_loop fuel' sectorsize (u64 (logical + sectorsize))
                   (u64 (bytes - sectorsize)) copy
      else mret tt
  end.

(** [main].  [opts] is the option part of the command line and [rest] the
    number of arguments left after it ([ac - optind]); [open_ctree] is the
    sector size of the filesystem that opens, or nothing when it does not
    open.  [extent_rec] is declared without an initial value (line 181):
    [garbage] is what the variable holds when [main] starts. *)
Definition main (fuel : nat) (garbage : Z) (opts : list option_char) (rest : Z)
    (open_ctree : option Z) : M (list action * St) Z :=
  let v := {| logical := 0; copy := 0; bytes := 4096; extent_rec := garbage |} in
  let ret := 0 in
  v <- lift_log (option_loop opts v) ;;
  lift_log (if rest =? 0 then print_usage else mret tt) ;;
  lift_log (if logical v =? 0 then print_usage else mret tt) ;;
  lift_log (if copy v <? 0 then print_usage else mret tt) ;;
  lift_log (act ActOpenCtree) ;;
  match open_ctree with
  | None =>
      lift_log (act (ActStderr "Open ctree failed"%string)) ;;
      fun st => (Exited 1, st)
  | Some sectorsize =>
      if negb (extent_rec v =? 0) then
        (* ret = corrupt_extent(root, logical, 0); goto out; *)
        ret <- call (ActCorruptExtent (logical v) 0) (corrupt_extent (logical v) 0) ;;
        mret ret
      else
        let bytes := if bytes v =? 0 then sectorsize else bytes v in
        if sectorsize =? 0 then undefined
        else
          let bytes := u64 (bytes + sectorsize - 1) / sectorsize in
          let bytes := u64 (bytes * sectorsize) in
          block_loop fuel sectorsize (logical v) bytes (copy v) ;;
          mret ret
  end.

End Main.

Definition is_extent_call (a : action) : bool :=
  match a with ActCorruptExtent _ _ => true | _ => false end.

Definition is_block_call (a : action) : bool :=
  match a with ActDebugCorruptBlock _ _ _ => true | _ => false end.

End Cli.

(** ** Vocabulary for the statements about [corrupt_extent] *)

Module ExtentSpec.
Import Ctree ExtentCorrupter.

Definition leaf_items (fs : fs_info) : list btrfs_item := items (extent_root fs).

(** What the tree layer answers to the next search: its first pending
    answer, or 0 when none is pending. *)
Definition fault (fs : fs_info) : Z :=
  match search_faults fs with
  | [] => 0
  | e :: _ => e
  end.

(** The slot lines 128-134 settle on after a search that did not fail, or
    nothing when the loop is left at line 130. *)
Definition found (l : list btrfs_item) (k : btrfs_key) : option nat :=
  let '(r, s) := bin_search l k in
  if (0 <? r) && (s =? 0)%nat then None
  else Some (if 0 <? r then Nat.pred s else s).

(** The five ways through the body of the loop, each with the key searched
    for and the answer of the search: the search fails; it lands in front of
    the first item; the item it settles on belongs to another object; the
    item is of the object but not of a recognised type; the item is zeroed. *)
Inductive visit : Type :=
| VError (k : btrfs_key) (e : Z)
| VFront (k : btrfs_key) (r : Z)
| VForeign (k : btrfs_key) (r : Z) (slot : nat) (it : btrfs_item)
| VSkip (k : btrfs_key) (r : Z) (slot : nat) (it : btrfs_item)
| VZero (k : btrfs_key) (r : Z) (slot : nat) (it : btrfs_item).

Definition events_of (v : visit) : list event :=
  match v with
  | VError k e => [EvSearchSlot k e]
  | VFront k r => [EvSearchSlot k r]
  | VForeign k r slot it => [EvSearchSlot k r; EvItemKey slot (key it)]
  | VSkip k r slot it => [EvSearchSlot k r; EvItemKey slot (key it); EvReleasePath]
  | VZero k r slot it =>
      [EvSearchSlot k r; EvItemKey slot (key it); EvStderr (key it);
       EvMemset slot (length (data it)); EvMarkDirty; EvReleasePath]
  end.

(** The value of [key] and whether the loop goes on, after the pass. *)
Definition leaves (v : visit) : ctl * btrfs_key :=
  match v with
  | VError k _ => (Break, k)
  | VFront k _ => (Break, k)
  | VForeign _ _ _ it => (Break, key it)
  | VSkip _ _ _ it => step_offset (key it)
  | VZero _ _ _ it => step_offset (key it)
  end.

Definition leaf_after (l : extent_buffer) (v : visit) : extent_buffer :=
  match v with
  | VZero _ _ slot _ => {| items := zero_slot (items l) slot; dirty := true |}
  | _ => l
  end.

Definition fs_after (fs : fs_info) (v : visit) : fs_info :=
  {| extent_root := leaf_after (extent_root fs) v;
     committed := committed fs;
     search_faults := tl (search_faults fs);
     commit_ret := commit_ret fs; close_ret := close_ret fs;
     log := log fs ++ events_of v |}.

(** When each way is taken from the search key [k] in the filesystem [fs]. *)
Inductive pass (bytenr : Z) (k : btrfs_key) (fs : fs_info) : visit -> Prop :=
| pass_error :
    fault fs < 0 ->
    pass bytenr k fs (VError k (fault fs))
| pass_front :
    0 <= fault fs ->
    found (leaf_items fs) k = None ->
    pass bytenr k fs (VFront k (fst (bin_search (leaf_items fs) k)))
| pass_foreign slot it :
    0 <= fault fs ->
    found (leaf_items fs) k = Some slot ->
    nth_error (leaf_items fs) slot = Some it ->
    objectid (key it) <> bytenr ->
    pass bytenr k fs (VForeign k (fst (bin_search (leaf_items fs) k)) slot it)
| pass_skip slot it :
    0 <= fault fs ->
    found (leaf_items fs) k = Some slot ->
    nth_error (leaf_items fs) slot = Some it ->
    objectid (key it) = bytenr ->
    not_extent_ref (type (key it)) = true ->
    pass bytenr k fs (VSkip k (fst (bin_search (leaf_items fs) k)) slot it)
| pass_zero slot it :
    0 <= fault fs ->
    found (leaf_items fs) k = Some slot ->
    nth_error (leaf_items fs) slot = Some it ->
    objectid (key it) = bytenr ->
    not_extent_ref (type (key it)) = false ->
    pass bytenr k fs (VZero k (fst (bin_search (leaf_items fs) k)) slot it).

(** The passes of a whole scan, first to last, and the filesystem it leaves. *)
Inductive scan (bytenr : Z) : btrfs_key -> fs_info -> list visit -> fs_info -> Prop :=
| scan_last k fs v :
    pass bytenr k fs v ->
    fst (leaves v) = Break ->
    scan bytenr k fs [v] (fs_after fs v)
| scan_more k fs v vs fs' :
    pass bytenr k fs v ->
    fst (leaves v) = Continue ->
    scan bytenr (snd (leaves v)) (fs_after fs v) vs fs' ->
    scan bytenr k fs (v :: vs) fs'.

Definition scan_events (vs : list visit) : list event := flat_map events_of vs.

(** The key [corrupt_extent] starts from (lines 118-120). *)
Definition first_key (bytenr : Z) : btrfs_key :=
  {| objectid := bytenr; type := u8 (-1); offset := u64 (-1) |}.

(** The filesystem when the loop is entered and when [corrupt_extent] is
    through with it. *)
Definition started (fs : fs_info) : fs_info :=
  {| extent_root := extent_root fs; committed := committed fs;
     search_faults := search_faults fs;
     commit_ret := commit_ret fs; close_ret := close_ret fs;
     log := log fs ++ [EvStartTransaction] |}.

Definition finished (fs : fs_info) : fs_info :=
  {| extent_root := if commit_ret fs =? 0
                    then {| items := leaf_items fs; dirty := false |}
                    else extent_root fs;
     committed := if commit_ret fs =? 0 then leaf_items fs else committed fs;
     search_faults := search_faults fs;
     commit_ret := commit_ret fs; close_ret := close_ret fs;
     log := log fs ++ [EvFreePath; EvCommit; EvCloseCtree (close_ret fs)] |}.

(** Modelled from the spec: "all mutations before commit are provisional".
    The handle [open_ctree] gives on the filesystem a run has left: the
    tree is the one of the image, nothing is staged, and the coming commit
    and close answer [c] and [r]. *)
Definition reopened (fs : fs_info) (c r : Z) : fs_info :=
  {| extent_root := {| items := committed fs; dirty := false |};
     committed := committed fs;
     search_faults := [];
     commit_ret := c; close_ret := r;
     log := [] |}.

(** Keys as the C types hold them: a u64, a u8 and a u64. *)
Definition valid_key (k : btrfs_key) : Prop :=
  0 <= objectid k < 2 ^ 64 /\ 0 <= type k < 2 ^ 8 /\ 0 <= offset k < 2 ^ 64.

Definition valid_leaf (l : list btrfs_item) : Prop :=
  Forall (fun it => valid_key (key it)) l.

(** The six recognised extent-reference kinds. *)
Definition extent_ref_kinds : list Z :=
  [BTRFS_EXTENT_ITEM_KEY; BTRFS_TREE_BLOCK_REF_KEY; BTRFS_EXTENT_DATA_REF_KEY;
   BTRFS_EXTENT_REF_V0_KEY; BTRFS_SHARED_BLOCK_REF_KEY; BTRFS_SHARED_DATA_REF_KEY].

(** Whether a visit, or one of a list of visits, zeroes the item in [slot]. *)
Definition zeroes (slot : nat) (v : visit) : bool :=
  match v with
  | VZero _ _ s _ => (s =? slot)%nat
  | _ => false
  end.

Definition zeroed_in (vs : list visit) (slot : nat) : bool := existsb (zeroes slot) vs.

(** Lines 157-160 as the specification words them: the offset goes down by
    one, saturating at 0, and the loop stops only when the offset was
    already 0. *)
Definition step_offset_as_specified (k : btrfs_key) : ctl * btrfs_key :=
  (if offset k =? 0 then Break else Continue,
   set_offset k (Z.max 0 (offset k - 1))).

(** A list of integers that goes strictly down. *)
Fixpoint strictly_decreasing (l : list Z) : Prop :=
  match l with
  | [] => True
  | a :: rest =>
      match rest with
      | [] => True
      | b :: _ => b < a /\ strictly_decreasing rest
      end
  end.

(** What a visit of a scan says about the leaf the scan started from. *)
Definition visit_ok (bytenr : Z) (l : list btrfs_item) (v : visit) : Prop :=
  match v with
  | VError _ e => e < 0
  | VFront _ r => 0 <= r
  | VForeign _ r slot it =>
      0 <= r /\ objectid (key it) <> bytenr /\
      exists it0, nth_error l slot = Some it0 /\ key it0 = key it /\
                  length (data it0) = length (data it)
  | VSkip _ r slot it =>
      0 <= r /\ objectid (key it) = bytenr /\ ~ In (type (key it)) extent_ref_kinds /\
      exists it0, nth_error l slot = Some it0 /\ key it0 = key it /\
                  length (data it0) = length (data it)
  | VZero _ r slot it =>
      0 <= r /\ objectid (key it) = bytenr /\ In (type (key it)) extent_ref_kinds /\
      exists it0, nth_error l slot = Some it0 /\ key it0 = key it /\
                  length (data it0) = length (data it)
  end.

(** *** Sample extent trees *)

Definition item (o t f : Z) (d : list Byte.byte) : btrfs_item :=
  {| key := {| objectid := o; type := t; offset := f |}; data := d |}.

(** A tree block at 8192 referenced by tree 5, between two other extents:
    its extent item (offset: the size of the extent) and its tree-block
    back-reference (offset: the id of the referencing tree). *)
Definition block_tree : list btrfs_item :=
  [ item 4096 BTRFS_EXTENT_ITEM_KEY 4096 [Byte.x11; Byte.x12];
    item 8192 BTRFS_EXTENT_ITEM_KEY 4096 [Byte.x21; Byte.x22; Byte.x23];
    item 8192 BTRFS_TREE_BLOCK_REF_KEY 5 [Byte.x31];
    item 12288 BTRFS_EXTENT_ITEM_KEY 4096 [Byte.x41] ].

(** The same block referenced by tree 1, whose back-reference has offset 1. *)
Definition root_tree : list btrfs_item :=
  [ item 8192 BTRFS_EXTENT_ITEM_KEY 4096 [Byte.x21; Byte.x22; Byte.x23];
    item 8192 BTRFS_TREE_BLOCK_REF_KEY 1 [Byte.x31] ].

(** An extent with an item of a type the scan does not know (a block group
    item, 192) next to a shared-data back-reference. *)
Definition mixed_tree : list btrfs_item :=
  [ item 8192 BTRFS_EXTENT_ITEM_KEY 4096 [Byte.x21];
    item 8192 BTRFS_SHARED_DATA_REF_KEY 7 [Byte.x51; Byte.x52];
    item 8192 192 9 [Byte.x61] ].

End ExtentSpec.

(** ** Vocabulary for the statements about [debug_corrupt_block] *)

Module MirrorSpec.
Import MirrorCorrupter.

(** Line 65: [!copy || mirror_num == copy]. *)
Definition selected (copy mirror_num : Z) : bool :=
  (copy =? 0) || (mirror_num =? copy).

(** The logical block [bytenr] of [blocksize] bytes has [N] mirrors, mirror
    [i] at [loc i], and this does not change while the corrupter runs:
    whatever the state of the world, the mapping layer counts [N] copies and
    resolves every mirror number from 1 to [N]. *)
Definition stable_mirrors (root : btrfs_root) (bytenr blocksize N : Z)
    (loc : Z -> btrfs_bio_stripe) : Prop :=
  (forall w, num_copies root w bytenr blocksize = N) /\
  (forall w l i, 1 <= i <= N ->
                 exists l', map_block root w bytenr l i = Some (l', loc i)).

Definition loc_fd (s : btrfs_bio_stripe) : Z := fd (dev s).

(** The calls of lines 66-71 on the mirror at [s]. *)
Definition corrupting_events (bytenr blocksize i : Z) (s : btrfs_bio_stripe) : list event :=
  [EvRead (loc_fd s) (physical s) blocksize;
   EvStdoutCorrupting bytenr i;
   EvMemset blocksize;
   EvWrite (loc_fd s) (physical s) (repeat Byte.x00 (Z.to_nat blocksize));
   EvFsync (loc_fd s)].

(** The calls of one pass of the loop, for mirror [i] at [s]. *)
Definition mirror_events (bytenr blocksize copy i : Z) (s : btrfs_bio_stripe) : list event :=
  EvStdoutMirror i bytenr (physical s) (name (dev s)) ::
  (if selected copy i then corrupting_events bytenr blocksize i s else []).

(** The [n] mirror numbers from [m] on. *)
Fixpoint range (m : Z) (n : nat) : list Z :=
  match n with
  | O => []
  | S n' => m :: range (m + 1) n'
  end.

(** Whether the pass for mirror [i] writes byte [o] of descriptor [f]: the
    mirror is selected, its write does not fail, and the byte lies in it. *)
Definition writes (flt : faults) (blocksize copy : Z) (loc : Z -> btrfs_bio_stripe)
    (f o : Z) (i : Z) : bool :=
  selected copy i &&
  negb (write_fails flt (loc_fd (loc i)) (physical (loc i))) &&
  in_range (loc_fd (loc i)) (physical (loc i)) blocksize f o.

(** Two stripes whose [n] bytes do not overlap. *)
Definition disjoint (s1 s2 : btrfs_bio_stripe) (n : Z) : Prop :=
  loc_fd s1 <> loc_fd s2 \/
  physical s1 + n <= physical s2 \/ physical s2 + n <= physical s1.

(** The same machine with every write and every flush going through. *)
Definition without_write_faults (flt : faults) : faults :=
  {| read_fails := read_fails flt; write_fails := fun _ _ => false;
     fsync_fails := fun _ => false; nomem := nomem flt; junk := junk flt |}.

(** *** A sample filesystem with two mirrors *)

Definition sdb : btrfs_device := {| devid := 1; fd := 3; name := "/dev/sdb"%string |}.
Definition sdc : btrfs_device := {| devid := 2; fd := 4; name := "/dev/sdc"%string |}.

(** Mirror 1 of a logical block is on [sdb] one megabyte further, mirror 2
    on [sdc] two megabytes further. *)
Definition raid1_loc (bytenr i : Z) : btrfs_bio_stripe :=
  if i =? 1 then {| dev := sdb; physical := 1048576 + bytenr |}
  else {| dev := sdc; physical := 2097152 + bytenr |}.

Definition raid1_root : btrfs_root :=
  {| sectorsize := 4096;
     map_block := fun _ logical length i =>
                    if (1 <=? i) && (i <=? 2) then Some (length, raid1_loc logical i)
                    else None;
     num_copies := fun _ _ _ => 2 |}.

(** Every byte of every device is 0xff, nothing was counted or logged. *)
Definition full_world : world :=
  {| disk := fun _ _ => Byte.xff; total_ios := fun _ => 0; log := [] |}.

Definition no_faults : faults :=
  {| read_fails := fun _ _ => false; write_fails := fun _ _ => false;
     fsync_fails := fun _ => false; nomem := false; junk := fun _ => Byte.xaa |}.

(** Every read, write and flush on [sdb] fails. *)
Definition sdb_fails : faults :=
  {| read_fails := fun f _ => f =? 3; write_fails := fun f _ => f =? 3;
     fsync_fails := fun f => f =? 3; nomem := false; junk := fun _ => Byte.xaa |}.

(** [sdb] can be read, but every write and flush on it fails. *)
Definition sdb_read_only : faults :=
  {| read_fails := fun _ _ => false; write_fails := fun f _ => f =? 3;
     fsync_fails := fun f => f =? 3; nomem := false; junk := fun _ => Byte.xaa |}.

End MirrorSpec.

(** ** Vocabulary for the statements about [main] *)

Module CliSpec.
Import Cli.

(** A line written to stderr. *)
Definition is_stderr (a : action) : Prop := exists m, a = ActStderr m.

Definition is_opt_e (c : option_char) : bool :=
  match c with Opt_e => true | _ => false end.

(** The locals of [main] when the option loop starts (lines 176-181). *)
Definition initial_locals (garbage : Z) : locals :=
  {| logical := 0; copy := 0; bytes := 4096; extent_rec := garbage |}.

End CliSpec.

(** ** Vocabulary for further statements about [corrupt_extent] *)

Module ExtentMore.
Import Ctree ExtentCorrupter ExtentSpec.

(** The keys of a leaf, slot by slot. *)
Definition keys (l : list btrfs_item) : list btrfs_key := map key l.

(** A leaf as the tree layer keeps it: keys strictly increasing. *)
Definition sorted_leaf (l : list btrfs_item) : Prop :=
  StronglySorted key_lt (keys l).

(** What [corrupt_extent] is meant to leave in a slot: the item zeroed when
    it belongs to [bytenr] and passes the type test of lines 139-145, the
    item itself otherwise. *)
Definition corrupted (bytenr : Z) (it : btrfs_item) : btrfs_item :=
  if (objectid (key it) =? bytenr) && negb (not_extent_ref (type (key it)))
  then zero_item it else it.

(** A data extent at 8192 with its extent item and two keyed
    back-references, between two other extents; the leaf is sorted. *)
Definition data_tree : list btrfs_item :=
  [ item 4096 BTRFS_EXTENT_ITEM_KEY 4096 [Byte.x11];
    item 8192 BTRFS_EXTENT_ITEM_KEY 8192 [Byte.x21; Byte.x22];
    item 8192 BTRFS_EXTENT_DATA_REF_KEY 77 [Byte.x31; Byte.x32; Byte.x33];
    item 8192 BTRFS_SHARED_DATA_REF_KEY 16384 [Byte.x41];
    item 16384 BTRFS_EXTENT_ITEM_KEY 4096 [Byte.x51] ].

End ExtentMore.

(** ** The block loop of [main], with its calls *)

Module BlockRange.
Import MirrorCorrupter.

Section Machine.
Variable flt : faults.
Variable root : btrfs_root.

(** Lines 250-255: [while (bytes > 0) { eb = debug_corrupt_block(root,
    logical, root->sectorsize, copy); free_extent_buffer(eb); logical +=
    root->sectorsize; bytes -= root->sectorsize; }].  [fuel] bounds the passes
    of this loop and [inner] those of the loop of each call; what the call
    returns is not looked at. *)
Fixpoint corrupt_range (fuel inner : nat) (logical bytes copy : Z) : M world unit :=
  match fuel with
  | O => out_of_fuel
  | S fuel' =>
      if bytes >? 0 then
        _ <- debug_corrupt_block flt root inner logical (sectorsize root) copy ;;
        corrupt_range fuel' inner (u64 (logical + sectorsize root))
                      (u64 (bytes - sectorsize root)) copy
      else mret tt
  end.

End Machine.

(** The address of sector [q] of a range that starts at [base]. *)
Definition sector (base s : Z) (q : nat) : Z := u64 (base + Z.of_nat q * s).

(** Whether the run over the sectors [qs] writes byte [o] of descriptor [f],
    when sector [q] has its [N'] mirrors at [loc q]. *)
Definition range_writes (flt : faults) (s copy : Z) (N' : nat)
    (loc : nat -> Z -> btrfs_bio_stripe) (f o : Z) (qs : list nat) : bool :=
  existsb (fun q => existsb (MirrorSpec.writes flt s copy (loc q) f o)
                            (MirrorSpec.range 1 N')) qs.

(** The calls of the run over the sectors [qs]. *)
Definition range_events (base s copy : Z) (N' : nat)
    (loc : nat -> Z -> btrfs_bio_stripe) (qs : list nat) : list event :=
  flat_map (fun q => flat_map (fun i => MirrorSpec.mirror_events (sector base s q) s copy i
                                                                 (loc q i))
                              (MirrorSpec.range 1 N')) qs.

(** A machine on which no buffer can be had. *)
Definition out_of_memory : faults :=
  {| read_fails := fun _ _ => false; write_fails := fun _ _ => false;
     fsync_fails := fun _ => false; nomem := true; junk := fun _ => Byte.xaa |}.

End BlockRange.

(** ** Vocabulary for further statements about [main] *)

Module CliMore.
Import Cli CliSpec.

(** Whether the [switch] lets the option through: an option it does not
    know, or an argument that reads as 0, ends in [print_usage]. *)
Definition option_ok (c : option_char) : bool :=
  match c with
  | Opt_l a => negb (u64 a =? 0)
  | Opt_c a => negb (a =? 0)
  | Opt_b a => negb (u64 a =? 0)
  | Opt_e => true
  | Opt_other => false
  end.

(** The assignment the [switch] makes for one option. *)
Definition set_option (v : locals) (c : option_char) : locals :=
  match c with
  | Opt_l a => {| logical := u64 a; copy := copy v; bytes := bytes v;
                  extent_rec := extent_rec v |}
  | Opt_c a => {| logical := logical v; copy := a; bytes := bytes v;
                  extent_rec := extent_rec v |}
  | Opt_b a => {| logical := logical v; copy := copy v; bytes := u64 a;
                  extent_rec := extent_rec v |}
  | Opt_e => {| logical := logical v; copy := copy v; bytes := bytes v;
                extent_rec := 1 |}
  | Opt_other => v
  end.

(** The locals after the assignments of all the options, in order. *)
Definition parsed (garbage : Z) (opts : list option_char) : locals :=
  fold_left set_option opts (initial_locals garbage).

(** The checks of lines 183-227 taken together: every option is let
    through, an argument is left after the options, and the values the
    options leave are a nonzero [logical] and a [copy] that is not
    negative. *)
Definition accepted (opts : list option_char) (rest : Z) : bool :=
  forallb option_ok opts && negb (rest =? 0) &&
  negb (logical (parsed 0 opts) =? 0) && (0 <=? copy (parsed 0 opts)).

(** The calls of the block loop on [n] sectors of [s] bytes from
    [logical] on. *)
Definition block_calls (logical s copy : Z) (n : nat) : list action :=
  map (fun q => ActDebugCorruptBlock (BlockRange.sector logical s q) s copy) (seq 0 n).

Definition is_call (a : action) : bool := is_extent_call a || is_block_call a.

(** The calls of the block loop on the sectors [qs] of the range that
    starts at [logical], one after the other up to the first that does not
    return. *)
Fixpoint sector_calls {St Eb : Type} (debug_corrupt_block : Z -> Z -> Z -> M St Eb)
    (logical s copy : Z) (qs : list nat) : M (list action * St) unit :=
  match qs with
  | [] => mret tt
  | q :: rest =>
      _ <- call (ActDebugCorruptBlock (BlockRange.sector logical s q) s copy)
                (debug_corrupt_block (BlockRange.sector logical s q) s copy) ;;
      sector_calls debug_corrupt_block logical s copy rest
  end.

End CliMore.

(** ** The whole program *)

Module Program.
Import Cli.

(** What [open_ctree] gave: the handle [corrupt_extent] works on and the
    devices under [debug_corrupt_block]. *)
Record machine : Type := mk_machine {
  fs : ExtentCorrupter.fs_info;
  devices : MirrorCorrupter.world
}.

Definition corrupt_extent (scan_fuel : nat) (bytenr copy : Z) : M machine Z :=
  fun m =>
    let '(o, fs') := ExtentCorrupter.corrupt_extent scan_fuel bytenr copy (fs m) in
    (o, {| fs := fs'; devices := devices m |}).

Definition debug_corrupt_block (flt : MirrorCorrupter.faults)
    (root : MirrorCorrupter.btrfs_root) (inner : nat) (bytenr blocksize copy : Z)
  : M machine (option MirrorCorrupter.extent_buffer) :=
  fun m =>
    let '(o, w) :=
      MirrorCorrupter.debug_corrupt_block flt root inner bytenr blocksize copy
                                          (devices m) in
    (o, {| fs := fs m; devices := w |}).

(** [main] with the two corrupters of the file; [opens] says whether
    [open_ctree] gives a root. *)
Definition main (flt : MirrorCorrupter.faults) (root : MirrorCorrupter.btrfs_root)
    (scan_fuel inner fuel : nat) (garbage : Z) (opts : list option_char)
    (rest : Z) (opens : bool) : M (list action * machine) Z :=
  Cli.main (corrupt_extent scan_fuel) (debug_corrupt_block flt root inner)
           fuel garbage opts rest
           (if opens then Some (MirrorCorrupter.sectorsize root) else None).

End Program.

(** * Properties *)

Import Ctree.

(** ** The monad *)

Lemma bind_done {S A B : Type} (m : M S A) (f : A -> M S B) (s s' : S) (a : A) :
  m s = (Done a, s') -> bind m f s = f a s'.
Proof. intros H. unfold bind. rewrite H. reflexivity. Qed.

(** ** Key order *)

Lemma comp_keys_lt (a b : btrfs_key) :
  comp_keys a b = Lt <->
  objectid a < objectid b \/
  (objectid a = objectid b /\
   (type a < type b \/ (type a = type b /\ offset a < offset b))).
Proof.
  unfold comp_keys.
  destruct (Z.compare_spec (objectid a) (objectid b));
    destruct (Z.compare_spec (type a) (type b));
    destruct (Z.compare_spec (offset a) (offset b));
    split; intros; try discriminate; try reflexivity; lia.
Qed.

Lemma comp_keys_eq (a b : btrfs_key) :
  comp_keys a b = Eq <->
  objectid a = objectid b /\ type a = type b /\ offset a = offset b.
Proof.
  unfold comp_keys.
  destruct (Z.compare_spec (objectid a) (objectid b));
    destruct (Z.compare_spec (type a) (type b));
    destruct (Z.compare_spec (offset a) (offset b));
    split; intros; try discriminate; try reflexivity; lia.
Qed.

Lemma key_lt_trans (a b c : btrfs_key) : key_lt a b -> key_lt b c -> key_lt a c.
Proof. unfold key_lt. rewrite !comp_keys_lt. lia. Qed.

Lemma key_lt_irrefl (a : btrfs_key) : ~ key_lt a a.
Proof. unfold key_lt. rewrite comp_keys_lt. lia. Qed.

Lemma key_lt_eq_trans (a b c : btrfs_key) :
  key_lt a b -> comp_keys b c = Eq -> key_lt a c.
Proof. unfold key_lt. rewrite !comp_keys_lt, comp_keys_eq. lia. Qed.

(** ** The search *)

Import ExtentCorrupter ExtentSpec.

Lemma bin_search_spec (l : list btrfs_item) (k : btrfs_key) :
  forall r s, bin_search l k = (r, s) ->
    (forall i it, (i < s)%nat -> nth_error l i = Some it -> key_lt (key it) k) /\
    ((r = 0 /\ exists it, nth_error l s = Some it /\ comp_keys (key it) k = Eq) \/
     (r = 1 /\ (s = length l \/
                exists it, nth_error l s = Some it /\ comp_keys (key it) k = Gt))).
Proof.
  induction l as [|x l IH]; simpl; intros r s H.
  - inversion H; subst. split; [intros; lia | right; auto].
  - destruct (comp_keys (key x) k) eqn:C.
    + inversion H; subst. split; [intros; lia |]. left. split; [reflexivity|].
      exists x. auto.
    + destruct (bin_search l k) as [r' s'] eqn:E. inversion H; subst.
      destruct (IH r s' eq_refl) as [Hlt Hat]. split.
      * intros [|i] it Hi Hn; simpl in Hn.
        -- inversion Hn; subst. exact C.
        -- apply (Hlt i); [lia | exact Hn].
      * destruct Hat as [[-> Hx] | [-> [-> | Hx]]]; simpl; auto.
    + inversion H; subst. split; [intros; lia |]. right. split; [reflexivity|].
      right. exists x. auto.
Qed.

Lemma bin_search_zero_slot (l : list btrfs_item) (k : btrfs_key) (n : nat) :
  bin_search (zero_slot l n) k = bin_search l k.
Proof.
  revert n. induction l as [|x l IH]; intros [|n]; simpl; try reflexivity.
  rewrite IH. reflexivity.
Qed.

Lemma found_zero_slot (l : list btrfs_item) (k : btrfs_key) (n : nat) :
  found (zero_slot l n) k = found l k.
Proof. unfold found. rewrite bin_search_zero_slot. reflexivity. Qed.

Lemma length_zero_slot (l : list btrfs_item) (n : nat) :
  length (zero_slot l n) = length l.
Proof.
  revert n. induction l as [|x l IH]; intros [|n]; simpl; auto.
Qed.

(** The slot the scan settles on holds an item, and its key is not above
    the key searched for. *)
Lemma found_some (l : list btrfs_item) (k : btrfs_key) (j : nat) :
  found l k = Some j ->
  exists it, nth_error l j = Some it /\ comp_keys (key it) k <> Gt.
Proof.
  unfold found. destruct (bin_search l k) as [r s] eqn:E.
  destruct (bin_search_spec l k r s E) as [Hlt Hat].
  destruct Hat as [[-> [it [Hn Hc]]] | [-> Hs]]; simpl.
  - intros H; inversion H; subst. exists it. split; [exact Hn | congruence].
  - destruct s as [|s]; simpl; [discriminate|].
    intros H; inversion H; subst.
    destruct (nth_error l j) as [it|] eqn:Hn.
    + exists it. split; [reflexivity|]. rewrite (Hlt j it); [discriminate | lia | exact Hn].
    + exfalso. apply nth_error_None in Hn.
      destruct Hs as [Hs | [it [Hs _]]].
      * lia.
      * assert (S j < length l)%nat by (apply nth_error_Some; congruence). lia.
Qed.

(** A search for a key below the one just found settles on an earlier
    slot, or on none. *)
Lemma found_decreases (l : list btrfs_item) (k' : btrfs_key) (j : nat) (it : btrfs_item) :
  nth_error l j = Some it ->
  key_lt k' (key it) ->
  match found l k' with
  | None => True
  | Some j' => (j' < j)%nat
  end.
Proof.
  intros Hn Hk. unfold found. destruct (bin_search l k') as [r s] eqn:E.
  destruct (bin_search_spec l k' r s E) as [Hlt Hat].
  assert (Hsj : (s <= j)%nat).
  { destruct (Nat.le_gt_cases s j) as [?|Hgt]; [assumption|].
    exfalso. apply (key_lt_irrefl k').
    eapply key_lt_trans; [exact Hk | exact (Hlt j it Hgt Hn)]. }
  destruct Hat as [[-> [it' [Hn' Hc]]] | [-> Hs]]; simpl.
  - destruct (Nat.eq_dec s j) as [->|]; [|lia].
    exfalso. rewrite Hn in Hn'. inversion Hn'; subst.
    apply (key_lt_irrefl k'). eapply key_lt_eq_trans; eauto.
  - destruct s as [|s]; simpl; [exact I | lia].
Qed.

Lemma step_offset_continue (k k' : btrfs_key) :
  0 <= offset k ->
  step_offset k = (Continue, k') ->
  k' = set_offset k (offset k - 1) /\ 2 <= offset k.
Proof.
  intros Hk. unfold step_offset. destruct (0 <? offset k) eqn:P.
  - simpl. destruct (offset k - 1 =? 0) eqn:Z0; intros H; inversion H.
    split; [reflexivity|]. apply Z.ltb_lt in P. apply Z.eqb_neq in Z0. lia.
  - destruct (offset k =? 0) eqn:Z0; intros H; inversion H; subst.
    apply Z.ltb_ge in P. apply Z.eqb_neq in Z0. lia.
Qed.

Lemma step_offset_key_lt (k k' : btrfs_key) :
  0 <= offset k -> step_offset k = (Continue, k') -> key_lt k' k.
Proof.
  intros Hk H. destruct (step_offset_continue k k' Hk H) as [-> _].
  unfold key_lt. rewrite comp_keys_lt. simpl. lia.
Qed.

(** ** One pass of the scan *)

Ltac run_pass :=
  unfold scan_body, corrupt_item, btrfs_search_slot, next_fault,
    btrfs_item_key_to_cpu, memset_item, btrfs_mark_buffer_dirty, get_leaf,
    set_leaf, emit, mret, bind, fs_after, leaf_after, leaf_items, fault; simpl.

Lemma search_slot_ok (k : btrfs_key) (fs : fs_info) :
  0 <= fault fs ->
  btrfs_search_slot k fs =
  (Done (bin_search (leaf_items fs) k),
   fs_after fs (VFront k (fst (bin_search (leaf_items fs) k)))).
Proof.
  intros Hf. apply Z.ltb_ge in Hf.
  destruct fs as [[its d] cm [|e rest] cr lg]; unfold fault in Hf; simpl in Hf;
    run_pass; rewrite ?Hf; simpl; destruct (bin_search its k); reflexivity.
Qed.

(** The body of the loop always returns, and does what one of the five
    ways says. *)
Lemma scan_body_pass (bytenr : Z) (k : btrfs_key) (fs : fs_info) :
  exists v, scan_body bytenr k fs = (Done (leaves v), fs_after fs v) /\
            pass bytenr k fs v.
Proof.
  destruct (Z.ltb_spec (fault fs) 0) as [Hf | Hf].
  - eexists. split; [| apply pass_error; exact Hf].
    destruct fs as [[its d] cm [|e rest] cr lg]; unfold fault in Hf; simpl in Hf; [lia|].
    apply Z.ltb_lt in Hf. run_pass. rewrite Hf. simpl. rewrite Hf. reflexivity.
  - unfold scan_body. rewrite (bind_done _ _ _ _ _ (search_slot_ok k fs Hf)).
    destruct (found (leaf_items fs) k) as [slot|] eqn:Hfound.
    + destruct (found_some _ _ _ Hfound) as [it [Hn _]].
      pose proof Hfound as Hslot. unfold found in Hslot.
      destruct (bin_search (leaf_items fs) k) as [r s] eqn:E.
      destruct (bin_search_spec _ _ _ _ E) as [_ Hr].
      assert (Hr0 : (r <? 0) = false) by (apply Z.ltb_ge; lia).
      rewrite Hr0.
      destruct ((0 <? r) && (s =? 0)%nat) eqn:Hfront; [discriminate|].
      inversion Hslot as [Hslot']. rewrite Hslot'. clear Hr Hr0 Hfront Hslot.
      destruct fs as [[its d] cm flt cr lg].
      unfold leaf_items in *. simpl in Hn, E, Hfound.
      destruct (objectid (key it) =? bytenr) eqn:Hobj.
      * destruct (not_extent_ref (type (key it))) eqn:Hty.
        -- eexists.
           split; [| apply Z.eqb_eq in Hobj; eapply pass_skip; eauto].
           run_pass. rewrite Hn. simpl. rewrite Hobj, Hty. simpl.
           rewrite E. simpl. rewrite <- !app_assoc. reflexivity.
        -- eexists.
           split; [| apply Z.eqb_eq in Hobj; eapply pass_zero; eauto].
           run_pass. rewrite Hn. simpl. rewrite Hobj, Hty. simpl.
           rewrite Hn. simpl.
           rewrite E. simpl. rewrite <- !app_assoc. reflexivity.
      * eexists.
        split; [| apply Z.eqb_neq in Hobj; eapply pass_foreign; eauto].
        run_pass. rewrite Hn. simpl. rewrite Hobj. simpl.
        rewrite E. simpl. rewrite <- !app_assoc. reflexivity.
    + eexists. split; [| apply pass_front; assumption].
      unfold found in Hfound.
      destruct (bin_search (leaf_items fs) k) as [r s] eqn:E.
      destruct (bin_search_spec _ _ _ _ E) as [_ Hr].
      assert (Hr0 : (r <? 0) = false) by (apply Z.ltb_ge; lia).
      rewrite Hr0.
      destruct ((0 <? r) && (s =? 0)%nat) eqn:Hfront; [|discriminate].
      reflexivity.
Qed.

Lemma valid_leaf_zero_slot (l : list btrfs_item) (n : nat) :
  valid_leaf l -> valid_leaf (zero_slot l n).
Proof.
  unfold valid_leaf. intros H. revert n.
  induction H as [|x l Hx Hl IH]; intros [|n]; simpl; constructor; auto.
Qed.

Lemma valid_leaf_nth (l : list btrfs_item) (n : nat) (it : btrfs_item) :
  valid_leaf l -> nth_error l n = Some it -> valid_key (key it).
Proof.
  unfold valid_leaf. rewrite Forall_forall. intros H Hn.
  apply H. eapply nth_error_In; eauto.
Qed.

Lemma valid_leaf_after (fs : fs_info) (v : visit) :
  valid_leaf (leaf_items fs) -> valid_leaf (leaf_items (fs_after fs v)).
Proof.
  intros H. destruct v; simpl; try exact H.
  unfold leaf_items; simpl. apply valid_leaf_zero_slot. exact H.
Qed.

(** A pass after which the loop goes on has settled on an item of the
    object, and leaves a search key strictly below the key of that item. *)
Lemma pass_continue (bytenr : Z) (k k' : btrfs_key) (fs : fs_info) (v : visit) :
  valid_leaf (leaf_items fs) ->
  pass bytenr k fs v ->
  leaves v = (Continue, k') ->
  exists slot it,
    found (leaf_items fs) k = Some slot /\
    nth_error (leaf_items fs) slot = Some it /\
    objectid (key it) = bytenr /\
    k' = set_offset (key it) (offset (key it) - 1) /\ 2 <= offset (key it) /\
    key_lt k' (key it) /\
    found (leaf_items (fs_after fs v)) k' = found (leaf_items fs) k'.
Proof.
  intros Hv Hp L.
  destruct Hp as [ | | slot it | slot it Hf Hfound Hn Hobj Hty | slot it Hf Hfound Hn Hobj Hty];
    simpl in L; try discriminate;
    exists slot, it;
    pose proof (valid_leaf_nth _ _ _ Hv Hn) as [_ [_ [Ho _]]];
    destruct (step_offset_continue _ _ Ho L) as [Hk' H2];
    (split; [exact Hfound | split; [exact Hn | split; [exact Hobj |
      split; [exact Hk' | split; [exact H2 |
      split; [eapply step_offset_key_lt; eauto |]]]]]]).
  - reflexivity.
  - unfold leaf_items; simpl. apply found_zero_slot.
Qed.

(** ** The whole scan *)

(** With more fuel than the leaf has items the loop comes to its end, and
    its passes make a scan. *)
Lemma scan_loop_scan (bytenr : Z) (fuel : nat) :
  forall (k : btrfs_key) (fs : fs_info),
    valid_leaf (leaf_items fs) ->
    match found (leaf_items fs) k with
    | None => (0 < fuel)%nat
    | Some j => (S j < fuel)%nat
    end ->
    exists vs fs',
      scan_loop fuel bytenr k fs = (Done tt, fs') /\ scan bytenr k fs vs fs'.
Proof.
  induction fuel as [|fuel IH]; intros k fs Hv Hm.
  - destruct (found (leaf_items fs) k); lia.
  - simpl. destruct (scan_body_pass bytenr k fs) as [v [Hb Hp]].
    rewrite (bind_done _ _ _ _ _ Hb).
    destruct (leaves v) as [c k'] eqn:L. destruct c.
    + exists [v], (fs_after fs v). split; [reflexivity|].
      apply scan_last; [exact Hp | rewrite L; reflexivity].
    + destruct (pass_continue _ _ _ _ _ Hv Hp L)
        as [slot [it [Hfound [Hn [_ [_ [_ [Hlt Hsame]]]]]]]].
      destruct (IH k' (fs_after fs v)) as [vs [fs' [Hl Hs]]].
      * apply valid_leaf_after. exact Hv.
      * rewrite Hsame. rewrite Hfound in Hm.
        pose proof (found_decreases _ _ _ _ Hn Hlt) as Hd.
        destruct (found (leaf_items fs) k'); lia.
      * exists (v :: vs), fs'. split; [exact Hl|].
        eapply scan_more; eauto; rewrite L; simpl; auto.
Qed.

Lemma found_bound (l : list btrfs_item) (k : btrfs_key) (j : nat) :
  found l k = Some j -> (j < length l)%nat.
Proof.
  intros H. destruct (found_some _ _ _ H) as [it [Hn _]].
  apply nth_error_Some. congruence.
Qed.

(** [corrupt_extent] on a valid leaf, with more fuel than the leaf has
    items: the scan, then the three closing calls. *)
Lemma corrupt_extent_scan (fuel : nat) (bytenr copy : Z) (fs : fs_info) :
  valid_leaf (leaf_items fs) ->
  (length (leaf_items fs) < fuel)%nat ->
  exists vs fs1,
    scan bytenr (first_key bytenr) (started fs) vs fs1 /\
    corrupt_extent fuel bytenr copy fs =
    ((if close_ret fs1 =? 0 then Done 0 else Bug), finished fs1).
Proof.
  intros Hv Hfuel.
  destruct (scan_loop_scan bytenr fuel (first_key bytenr) (started fs))
    as [vs [fs1 [Hl Hs]]].
  - exact Hv.
  - change (leaf_items (started fs)) with (leaf_items fs).
    destruct (found (leaf_items fs) (first_key bytenr)) as [j|] eqn:F; [|lia].
    apply found_bound in F. lia.
  - exists vs, fs1. split; [exact Hs|].
    unfold corrupt_extent. unfold bind at 1. unfold emit at 1.
    fold (started fs). fold (first_key bytenr).
    rewrite (bind_done _ _ _ _ _ Hl).
    unfold bind, emit, btrfs_commit_transaction, close_ctree, BUG_ON, mret, finished,
      leaf_items; simpl.
    destruct (commit_ret fs1 =? 0); simpl; rewrite <- !app_assoc; simpl;
      destruct (close_ret fs1 =? 0); reflexivity.
Qed.

(** The closing calls leave the staged items alone; the image takes them
    over when the commit goes through and stays as it was when it does
    not. *)
Lemma leaf_items_finished (fs : fs_info) : leaf_items (finished fs) = leaf_items fs.
Proof. unfold finished, leaf_items. simpl. destruct (commit_ret fs =? 0); reflexivity. Qed.

Lemma committed_finished (fs : fs_info) :
  committed (finished fs) = if commit_ret fs =? 0 then leaf_items fs else committed fs.
Proof. reflexivity. Qed.

Lemma scan_log (bytenr : Z) (k : btrfs_key) (fs fs' : fs_info) (vs : list visit) :
  scan bytenr k fs vs fs' -> log fs' = log fs ++ scan_events vs.
Proof.
  induction 1 as [k fs v Hp Hc | k fs v vs fs' Hp Hc Hs IH]; unfold scan_events; simpl.
  - rewrite app_nil_r. reflexivity.
  - rewrite IH. simpl. rewrite <- app_assoc. reflexivity.
Qed.

Lemma scan_close_ret (bytenr : Z) (k : btrfs_key) (fs fs' : fs_info) (vs : list visit) :
  scan bytenr k fs vs fs' -> close_ret fs' = close_ret fs.
Proof. induction 1; simpl; auto. Qed.

Lemma scan_commit_ret (bytenr : Z) (k : btrfs_key) (fs fs' : fs_info) (vs : list visit) :
  scan bytenr k fs vs fs' -> commit_ret fs' = commit_ret fs.
Proof. induction 1; simpl; auto. Qed.

(** The scan stages its mutations in the leaf and leaves the image alone. *)
Lemma scan_image (bytenr : Z) (k : btrfs_key) (fs fs' : fs_info) (vs : list visit) :
  scan bytenr k fs vs fs' -> committed fs' = committed fs.
Proof. induction 1; simpl; auto. Qed.

(** The image after the closing calls: the staged leaf when the commit
    went through, the image as it was when it did not. *)
Lemma finished_image (bytenr : Z) (k : btrfs_key) (fs fs1 : fs_info) (vs : list visit) :
  scan bytenr k (started fs) vs fs1 ->
  committed (finished fs1) =
  if commit_ret fs =? 0 then leaf_items (finished fs1) else committed fs.
Proof.
  intros Hs. rewrite committed_finished, leaf_items_finished.
  rewrite (scan_commit_ret _ _ _ _ _ Hs), (scan_image _ _ _ _ _ Hs). reflexivity.
Qed.


(** ** Items after a scan *)

Lemma nth_error_zero_slot_same (l : list btrfs_item) (s : nat) (it : btrfs_item) :
  nth_error l s = Some it -> nth_error (zero_slot l s) s = Some (zero_item it).
Proof.
  revert s. induction l as [|x l IH]; intros [|s]; simpl; try discriminate.
  - intros H; inversion H; reflexivity.
  - apply IH.
Qed.

Lemma nth_error_zero_slot_other (l : list btrfs_item) (s j : nat) :
  s <> j -> nth_error (zero_slot l s) j = nth_error l j.
Proof.
  revert s j. induction l as [|x l IH]; intros [|s] [|j] H; simpl; try reflexivity.
  - congruence.
  - apply IH. congruence.
Qed.

Lemma zero_item_idem (it : btrfs_item) : zero_item (zero_item it) = zero_item it.
Proof. unfold zero_item; simpl. rewrite repeat_length. reflexivity. Qed.

Lemma nth_error_after (fs : fs_info) (v : visit) (slot : nat) (it0 : btrfs_item) :
  nth_error (leaf_items fs) slot = Some it0 ->
  nth_error (leaf_items (fs_after fs v)) slot =
  Some (if zeroes slot v then zero_item it0 else it0).
Proof.
  intros H. destruct v as [ | | | | k r s it]; simpl; try exact H.
  unfold leaf_items; simpl. destruct (Nat.eqb_spec s slot) as [->|Hne].
  - apply nth_error_zero_slot_same. exact H.
  - rewrite nth_error_zero_slot_other by exact Hne. exact H.
Qed.

(** Every item is, after the scan, what it was or the same item zeroed,
    according to whether one of the visits zeroed its slot. *)
Lemma scan_items (bytenr : Z) (k : btrfs_key) (fs fs' : fs_info) (vs : list visit) :
  scan bytenr k fs vs fs' ->
  forall slot it0,
    nth_error (leaf_items fs) slot = Some it0 ->
    nth_error (leaf_items fs') slot =
    Some (if zeroed_in vs slot then zero_item it0 else it0).
Proof.
  induction 1 as [k fs v Hp Hc | k fs v vs fs' Hp Hc Hs IH]; intros slot it0 H0.
  - unfold zeroed_in; simpl. rewrite orb_false_r. apply nth_error_after. exact H0.
  - rewrite (IH slot _ (nth_error_after fs v slot it0 H0)).
    unfold zeroed_in; simpl. fold (zeroed_in vs slot).
    destruct (zeroes slot v); simpl; [|reflexivity].
    rewrite zero_item_idem. destruct (zeroed_in vs slot); reflexivity.
Qed.

Lemma length_after (fs : fs_info) (v : visit) :
  length (leaf_items (fs_after fs v)) = length (leaf_items fs).
Proof.
  destruct v; simpl; try reflexivity. unfold leaf_items; simpl. apply length_zero_slot.
Qed.

Lemma scan_length (bytenr : Z) (k : btrfs_key) (fs fs' : fs_info) (vs : list visit) :
  scan bytenr k fs vs fs' -> length (leaf_items fs') = length (leaf_items fs).
Proof.
  induction 1 as [k fs v Hp Hc | k fs v vs fs' Hp Hc Hs IH].
  - apply length_after.
  - rewrite IH. apply length_after.
Qed.

(** ** Visits of a scan *)

(** A visit that ends the loop is the last one. *)
Lemma scan_break_last (bytenr : Z) (k : btrfs_key) (fs fs' : fs_info) (vs : list visit) :
  scan bytenr k fs vs fs' ->
  forall pre v post, vs = pre ++ v :: post -> fst (leaves v) = Break -> post = [].
Proof.
  induction 1 as [k fs v Hp Hc | k fs v vs fs' Hp Hc Hs IH]; intros pre w post E Hw.
  - destruct pre as [|p pre]; simpl in E.
    + inversion E; reflexivity.
    + inversion E as [[E1 E2]]. destruct pre; discriminate.
  - destruct pre as [|p pre]; simpl in E.
    + inversion E; subst. congruence.
    + inversion E; subst. eapply IH; eauto.
Qed.

Lemma not_extent_ref_kinds (t : Z) :
  not_extent_ref t = false <-> In t extent_ref_kinds.
Proof.
  unfold not_extent_ref, extent_ref_kinds. simpl.
  rewrite !andb_false_iff, !negb_false_iff, !Z.eqb_eq.
  intuition congruence.
Qed.

Lemma bin_search_ret (l : list btrfs_item) (k : btrfs_key) :
  0 <= fst (bin_search l k).
Proof.
  destruct (bin_search l k) as [r s] eqn:E.
  destruct (bin_search_spec _ _ _ _ E) as [_ [[-> _] | [-> _]]]; simpl; lia.
Qed.

Lemma pass_visit_ok (bytenr : Z) (k : btrfs_key) (fs : fs_info) (v : visit) :
  pass bytenr k fs v -> visit_ok bytenr (leaf_items fs) v.
Proof.
  destruct 1 as [Hf | Hf Hfound | slot it Hf Hfound Hn Hobj
                 | slot it Hf Hfound Hn Hobj Hty | slot it Hf Hfound Hn Hobj Hty];
    simpl; try exact Hf; try apply bin_search_ret;
    (split; [apply bin_search_ret|]); (split; [exact Hobj|]).
  - exists it. auto.
  - split; [| exists it; auto].
    intros Hin. apply not_extent_ref_kinds in Hin. congruence.
  - split; [| exists it; auto].
    apply not_extent_ref_kinds. exact Hty.
Qed.

Lemma nth_error_zero_slot_inv (l : list btrfs_item) (s j : nat) (x : btrfs_item) :
  nth_error (zero_slot l s) j = Some x ->
  exists y, nth_error l j = Some y /\ key y = key x /\
            length (data y) = length (data x).
Proof.
  intros H. destruct (Nat.eq_dec s j) as [->|Hne].
  - destruct (nth_error l j) as [y|] eqn:Hy.
    + rewrite (nth_error_zero_slot_same _ _ _ Hy) in H. inversion H; subst.
      exists y. simpl. rewrite repeat_length. auto.
    + exfalso. apply nth_error_None in Hy.
      assert (j < length (zero_slot l j))%nat by (apply nth_error_Some; congruence).
      rewrite length_zero_slot in *. lia.
  - rewrite nth_error_zero_slot_other in H by exact Hne. exists x. auto.
Qed.

Lemma visit_ok_after (bytenr : Z) (fs : fs_info) (w v : visit) :
  visit_ok bytenr (leaf_items (fs_after fs w)) v ->
  visit_ok bytenr (leaf_items fs) v.
Proof.
  destruct w as [ | | | | k r s it]; try (intros H; exact H).
  unfold leaf_items; simpl.
  destruct v as [ | | k' r' slot x | k' r' slot x | k' r' slot x]; simpl; auto.
  - intros [Hr [Hobj [it0 [Hn [Hk Hd]]]]].
    destruct (nth_error_zero_slot_inv _ _ _ _ Hn) as [y [Hy [Hky Hdy]]].
    split; [exact Hr|]. split; [exact Hobj|]. exists y. repeat split; congruence.
  - intros [Hr [Hobj [Hty [it0 [Hn [Hk Hd]]]]]].
    destruct (nth_error_zero_slot_inv _ _ _ _ Hn) as [y [Hy [Hky Hdy]]].
    split; [exact Hr|]. split; [exact Hobj|]. split; [exact Hty|].
    exists y. repeat split; congruence.
  - intros [Hr [Hobj [Hty [it0 [Hn [Hk Hd]]]]]].
    destruct (nth_error_zero_slot_inv _ _ _ _ Hn) as [y [Hy [Hky Hdy]]].
    split; [exact Hr|]. split; [exact Hobj|]. split; [exact Hty|].
    exists y. repeat split; congruence.
Qed.

Lemma scan_visits_ok (bytenr : Z) (k : btrfs_key) (fs fs' : fs_info) (vs : list visit) :
  scan bytenr k fs vs fs' ->
  forall v, In v vs -> visit_ok bytenr (leaf_items fs) v.
Proof.
  induction 1 as [k fs v Hp Hc | k fs v vs fs' Hp Hc Hs IH]; intros w Hw.
  - destruct Hw as [<- | []]. apply pass_visit_ok with (k := k). exact Hp.
  - destruct Hw as [<- | Hw].
    + apply pass_visit_ok with (k := k). exact Hp.
    + eapply visit_ok_after. apply IH. exact Hw.
Qed.

Lemma events_of_no_commit (v : visit) : ~ In EvCommit (events_of v).
Proof. destruct v; simpl; intuition discriminate. Qed.

Lemma scan_events_no_commit (vs : list visit) : ~ In EvCommit (scan_events vs).
Proof.
  unfold scan_events. rewrite in_flat_map. intros [v [_ H]].
  exact (events_of_no_commit v H).
Qed.

(** ** The claims about [corrupt_extent] *)

(** C4.  On a valid leaf [corrupt_extent] always reaches its end: the log
    grows by the start of the transaction, the calls of the scan, and then
    [btrfs_free_path], one [btrfs_commit_transaction] and [close_ctree].
    The scan itself commits nothing, so the transaction is committed exactly
    once and after the loop, whatever the number of items zeroed.  What that
    commit is handed is the staged leaf, in which every item zeroed by a
    visit of the scan is zeroed; it is the image from then on when the
    commit goes through, and the image stays as it was when the commit,
    whose answer line 164 drops, does not.  A search that answers a negative
    value is the last visit of the scan; the closing calls follow it all the
    same. *)
Theorem corrupt_extent_commits_once
    (fuel : nat) (bytenr copy : Z) (fs : fs_info) :
  valid_leaf (leaf_items fs) ->
  (length (leaf_items fs) < fuel)%nat ->
  exists o fs' vs,
    corrupt_extent fuel bytenr copy fs = (o, fs') /\
    (o = Done 0 \/ o = Bug) /\
    log fs' = log fs ++ EvStartTransaction :: scan_events vs
                     ++ [EvFreePath; EvCommit; EvCloseCtree (close_ret fs)] /\
    ~ In EvCommit (scan_events vs) /\
    (forall slot it0,
        nth_error (leaf_items fs) slot = Some it0 ->
        nth_error (leaf_items fs') slot =
        Some (if zeroed_in vs slot then zero_item it0 else it0)) /\
    committed fs' = (if commit_ret fs =? 0 then leaf_items fs' else committed fs) /\
    (forall k e, In (EvSearchSlot k e) (scan_events vs) -> e < 0 ->
                 exists pre, vs = pre ++ [VError k e]).
Proof.
  intros Hv Hfuel.
  destruct (corrupt_extent_scan fuel bytenr copy fs Hv Hfuel) as [vs [fs1 [Hs Hrun]]].
  exists (if close_ret fs1 =? 0 then Done 0 else Bug), (finished fs1), vs.
  split; [exact Hrun|].
  split; [destruct (close_ret fs1 =? 0); auto|].
  split.
  { simpl. rewrite (scan_log _ _ _ _ _ Hs), (scan_close_ret _ _ _ _ _ Hs). simpl.
    rewrite <- !app_assoc. reflexivity. }
  split; [apply scan_events_no_commit|].
  split.
  { intros slot it0 H0. rewrite leaf_items_finished.
    exact (scan_items _ _ _ _ _ Hs slot it0 H0). }
  split; [exact (finished_image _ _ _ _ _ Hs)|].
  intros k e Hin He. unfold scan_events in Hin. apply in_flat_map in Hin.
  destruct Hin as [v [Hv' Hev]].
  pose proof (scan_visits_ok _ _ _ _ _ Hs v Hv') as Hok.
  assert (Hv'' : v = VError k e).
  { destruct v; simpl in Hev, Hok;
      repeat (destruct Hev as [Hev | Hev]; try discriminate; try contradiction);
      inversion Hev; subst; try reflexivity; lia. }
  subst v. destruct (in_split _ _ Hv') as [pre [post E]].
  exists pre. rewrite E. f_equal. f_equal.
  eapply scan_break_last; eauto.
Qed.

Lemma block_tree_valid : valid_leaf block_tree.
Proof.
  unfold valid_leaf, block_tree.
  repeat (apply Forall_cons; [cbv; repeat split; discriminate|]). apply Forall_nil.
Qed.

Lemma root_tree_valid : valid_leaf root_tree.
Proof.
  unfold valid_leaf, root_tree.
  repeat (apply Forall_cons; [cbv; repeat split; discriminate|]). apply Forall_nil.
Qed.

Lemma mixed_tree_valid : valid_leaf mixed_tree.
Proof.
  unfold valid_leaf, mixed_tree.
  repeat (apply Forall_cons; [cbv; repeat split; discriminate|]). apply Forall_nil.
Qed.

(** The second search fails on [block_tree], after the back-reference of
    extent 8192 was zeroed: the transaction is committed all the same, with
    that item zeroed. *)
Lemma corrupt_extent_commits_once_witness :
  valid_leaf block_tree /\ (length block_tree < 5)%nat /\
  exists o fs' vs,
    corrupt_extent 5 8192 0
      {| extent_root := {| items := block_tree; dirty := false |};
         committed := block_tree; search_faults := [0; -5];
         commit_ret := 0; close_ret := 0; log := [] |} = (o, fs') /\
    In EvCommit (log fs') /\ ~ In EvCommit (scan_events vs) /\
    committed fs' = leaf_items fs' /\
    nth_error (committed fs') 2 =
    Some (zero_item (item 8192 BTRFS_TREE_BLOCK_REF_KEY 5 [Byte.x31])).
Proof.
  split; [exact block_tree_valid|]. split; [simpl; lia|].
  destruct (corrupt_extent_commits_once 5 8192 0
              {| extent_root := {| items := block_tree; dirty := false |};
                 committed := block_tree; search_faults := [0; -5];
                 commit_ret := 0; close_ret := 0; log := [] |} block_tree_valid)
    as [o [fs' [vs [Hrun [_ [Hlog [Hnc [Hit [Hcm _]]]]]]]]]; [simpl; lia|].
  exists o, fs', vs. split; [exact Hrun|].
  split.
  { rewrite Hlog. apply in_or_app. right. right. apply in_or_app. right.
    simpl. auto. }
  split; [exact Hnc|]. split; [exact Hcm|].
  vm_compute in Hrun. inversion Hrun. reflexivity.
Defined.

Lemma step_offset_eq (k : btrfs_key) :
  0 <= offset k ->
  step_offset k =
  (if offset k <=? 1 then Break else Continue,
   set_offset k (Z.max 0 (offset k - 1))).
Proof.
  intros Hk. unfold step_offset.
  destruct (Z.ltb_spec 0 (offset k)) as [P|P]; simpl.
  - rewrite Z.max_r by lia.
    destruct (Z.eqb_spec (offset k - 1) 0); destruct (Z.leb_spec (offset k) 1);
      try lia; reflexivity.
  - assert (E : offset k = 0) by lia.
    destruct k as [o t f]; simpl in *; subst f. reflexivity.
Qed.

(** C3, as the code has it.  A pass of the scan that reaches the end of
    the body (its last call is the release of the path) has read the key of
    an item; it leaves that key with the offset one lower, saturating at 0,
    and it ends the loop exactly when the offset read was 0 or 1, that is
    when the offset is 0 after the decrement.  The loop goes on exactly when
    the offset read was 2 or more, so the next search is never at offset 0. *)
Theorem scan_body_offset_step
    (bytenr : Z) (k k' : btrfs_key) (fs fs' : fs_info) (c : ctl) (pre : list event) :
  valid_leaf (leaf_items fs) ->
  scan_body bytenr k fs = (Done (c, k'), fs') ->
  log fs' = pre ++ [EvReleasePath] ->
  exists slot it,
    nth_error (leaf_items fs) slot = Some it /\
    In (EvItemKey slot (key it)) pre /\
    (c, k') = step_offset (key it) /\
    k' = set_offset (key it) (Z.max 0 (offset (key it) - 1)) /\
    (c = Break <-> offset (key it) <= 1) /\
    (c = Continue <-> 1 <= offset k').
Proof.
  intros Hv Hb Hlog.
  destruct (scan_body_pass bytenr k fs) as [v [Hb' Hp]].
  rewrite Hb in Hb'. inversion Hb' as [[Hl Hfs]]. clear Hb'.
  rewrite Hfs in Hlog. simpl in Hlog.
  assert (Hend : forall slot it,
             nth_error (leaf_items fs) slot = Some it ->
             In (EvItemKey slot (key it)) pre ->
             (c, k') = step_offset (key it) ->
             exists slot it,
               nth_error (leaf_items fs) slot = Some it /\
               In (EvItemKey slot (key it)) pre /\
               (c, k') = step_offset (key it) /\
               k' = set_offset (key it) (Z.max 0 (offset (key it) - 1)) /\
               (c = Break <-> offset (key it) <= 1) /\
               (c = Continue <-> 1 <= offset k')).
  { intros slot it Hn Hin Hst. exists slot, it.
    pose proof (valid_leaf_nth _ _ _ Hv Hn) as [_ [_ [Ho _]]].
    rewrite (step_offset_eq _ Ho) in Hst.
    inversion Hst as [[Hc Hk]].
    split; [exact Hn|]. split; [exact Hin|].
    split; [rewrite (step_offset_eq _ Ho); reflexivity|].
    split; [reflexivity|].
    unfold set_offset; simpl.
    destruct (Z.leb_spec (offset (key it)) 1); split; split; intros;
      try discriminate; try reflexivity; lia. }
  destruct Hp as [Hf | Hf Hfound | slot it Hf Hfound Hn Hobj
                 | slot it Hf Hfound Hn Hobj Hty | slot it Hf Hfound Hn Hobj Hty];
    simpl in Hlog.
  - apply app_inj_tail in Hlog. destruct Hlog; discriminate.
  - apply app_inj_tail in Hlog. destruct Hlog; discriminate.
  - change (log fs ++ [EvSearchSlot k (fst (bin_search (leaf_items fs) k));
                       EvItemKey slot (key it)])
      with (log fs ++ [EvSearchSlot k (fst (bin_search (leaf_items fs) k))]
                   ++ [EvItemKey slot (key it)]) in Hlog.
    rewrite app_assoc in Hlog.
    apply app_inj_tail in Hlog. destruct Hlog; discriminate.
  - apply (Hend slot it Hn); [| exact Hl].
    change (log fs ++ [EvSearchSlot k (fst (bin_search (leaf_items fs) k));
                       EvItemKey slot (key it); EvReleasePath])
      with (log fs ++ [EvSearchSlot k (fst (bin_search (leaf_items fs) k));
                       EvItemKey slot (key it)] ++ [EvReleasePath]) in Hlog.
    rewrite app_assoc in Hlog. apply app_inj_tail in Hlog. destruct Hlog as [<- _].
    apply in_or_app. right. simpl. auto.
  - apply (Hend slot it Hn); [| exact Hl].
    change (log fs ++ [EvSearchSlot k (fst (bin_search (leaf_items fs) k));
                       EvItemKey slot (key it); EvStderr (key it);
                       EvMemset slot (length (data it)); EvMarkDirty; EvReleasePath])
      with (log fs ++ [EvSearchSlot k (fst (bin_search (leaf_items fs) k));
                       EvItemKey slot (key it); EvStderr (key it);
                       EvMemset slot (length (data it)); EvMarkDirty]
                   ++ [EvReleasePath]) in Hlog.
    rewrite app_assoc in Hlog. apply app_inj_tail in Hlog. destruct Hlog as [<- _].
    apply in_or_app. right. simpl. auto.
Qed.

(** On [root_tree] the first pass reads the back-reference, whose offset is
    1, and ends the loop. *)
Lemma scan_body_offset_step_witness :
  valid_leaf (leaf_items (fresh_fs root_tree)) /\
  exists slot it,
    nth_error root_tree slot = Some it /\
    (Break, mk_key 8192 176 0) = step_offset (key it) /\
    offset (key it) <= 1.
Proof.
  split; [exact root_tree_valid|].
  destruct (scan_body_offset_step 8192 (first_key 8192) (mk_key 8192 176 0)
              (fresh_fs root_tree)
              (snd (scan_body 8192 (first_key 8192) (fresh_fs root_tree)))
              Break
              [EvSearchSlot (first_key 8192) 1;
               EvItemKey 1 (mk_key 8192 176 1);
               EvStderr (mk_key 8192 176 1);
               EvMemset 1 1; EvMarkDirty]
              root_tree_valid eq_refl eq_refl)
    as [slot [it [Hn [_ [Hst [_ [Hc _]]]]]]].
  exists slot, it. split; [exact Hn|]. split; [exact Hst|].
  apply Hc. reflexivity.
Defined.

(** C3, as the claim words it, fails on [root_tree]: the back-reference
    read in the first pass has offset 1; the decrement makes it 0 and the
    loop ends there, where the claim has it continue.  No search at offset 0
    follows, and the extent item in slot 0 is never reached. *)
Lemma offset_one_ends_scan :
  step_offset (mk_key 8192 176 1) <> step_offset_as_specified (mk_key 8192 176 1) /\
  step_offset (mk_key 8192 176 1) = (Break, mk_key 8192 176 0) /\
  step_offset_as_specified (mk_key 8192 176 1) = (Continue, mk_key 8192 176 0) /\
  fst (corrupt_extent 5 8192 0 (fresh_fs root_tree)) = Done 0 /\
  searched (log (snd (corrupt_extent 5 8192 0 (fresh_fs root_tree))))
  = [first_key 8192] /\
  nth_error (committed (snd (corrupt_extent 5 8192 0 (fresh_fs root_tree)))) 0
  = nth_error root_tree 0.
Proof. split; [discriminate | repeat split; reflexivity]. Qed.

(** ** C5: records of other objects *)

Lemma zeroed_in_visit (vs : list visit) (slot : nat) :
  zeroed_in vs slot = true -> exists k r it, In (VZero k r slot it) vs.
Proof.
  unfold zeroed_in. rewrite existsb_exists. intros [v [Hin Hz]].
  destruct v as [ | | | | k r s it]; simpl in Hz; try discriminate.
  apply Nat.eqb_eq in Hz. subst s. exists k, r, it. exact Hin.
Qed.

(** A slot zeroed by a scan held, when the scan started, an item of the
    object whose type is one of the six kinds. *)
Lemma zeroed_in_ok (bytenr : Z) (k : btrfs_key) (fs fs' : fs_info) (vs : list visit)
    (slot : nat) (it0 : btrfs_item) :
  scan bytenr k fs vs fs' ->
  nth_error (leaf_items fs) slot = Some it0 ->
  zeroed_in vs slot = true ->
  objectid (key it0) = bytenr /\ In (type (key it0)) extent_ref_kinds.
Proof.
  intros Hs H0 Hz. destruct (zeroed_in_visit _ _ Hz) as [k1 [r [it Hin]]].
  pose proof (scan_visits_ok _ _ _ _ _ Hs _ Hin) as Hok. simpl in Hok.
  destruct Hok as [_ [Hobj [Hty [it1 [Hn [Hk _]]]]]].
  rewrite H0 in Hn. inversion Hn; subst it1. rewrite Hk. auto.
Qed.

(** C5.  [corrupt_extent] zeroes only items whose key has the objectid
    [bytenr].  A visit that reads a key with another objectid is the last
    visit of the scan: the loop ends there, before the type test, and that
    item is not zeroed.  Every item of another object is, in the leaf the
    run leaves, what it was; that leaf is the image when the commit has gone
    through, and the image is not touched when it has not. *)
Theorem corrupt_extent_only_bytenr
    (fuel : nat) (bytenr copy : Z) (fs : fs_info) :
  valid_leaf (leaf_items fs) ->
  (length (leaf_items fs) < fuel)%nat ->
  exists o fs' vs,
    corrupt_extent fuel bytenr copy fs = (o, fs') /\
    log fs' = log fs ++ EvStartTransaction :: scan_events vs
                     ++ [EvFreePath; EvCommit; EvCloseCtree (close_ret fs)] /\
    (forall k r slot it,
        In (VZero k r slot it) vs ->
        objectid (key it) = bytenr /\
        exists it0, nth_error (leaf_items fs) slot = Some it0 /\ key it0 = key it) /\
    (forall pre k r slot it post,
        vs = pre ++ VForeign k r slot it :: post ->
        post = [] /\ objectid (key it) <> bytenr /\ zeroed_in vs slot = false) /\
    (forall slot it0,
        nth_error (leaf_items fs) slot = Some it0 ->
        objectid (key it0) <> bytenr ->
        nth_error (leaf_items fs') slot = Some it0) /\
    committed fs' = (if commit_ret fs =? 0 then leaf_items fs' else committed fs).
Proof.
  intros Hv Hfuel.
  destruct (corrupt_extent_scan fuel bytenr copy fs Hv Hfuel) as [vs [fs1 [Hs Hrun]]].
  exists (if close_ret fs1 =? 0 then Done 0 else Bug), (finished fs1), vs.
  split; [exact Hrun|].
  split.
  { simpl. rewrite (scan_log _ _ _ _ _ Hs), (scan_close_ret _ _ _ _ _ Hs). simpl.
    rewrite <- !app_assoc. reflexivity. }
  split.
  { intros k r slot it Hin.
    pose proof (scan_visits_ok _ _ _ _ _ Hs _ Hin) as Hok. simpl in Hok.
    destruct Hok as [_ [Hobj [_ [it0 [Hn [Hk _]]]]]].
    split; [exact Hobj|]. exists it0. auto. }
  split.
  { intros pre k r slot it post E.
    assert (Hin : In (VForeign k r slot it) vs)
      by (rewrite E; apply in_or_app; right; left; reflexivity).
    pose proof (scan_visits_ok _ _ _ _ _ Hs _ Hin) as Hok. simpl in Hok.
    destruct Hok as [_ [Hobj [it0 [Hn [Hk _]]]]].
    split; [eapply scan_break_last; eauto|]. split; [exact Hobj|].
    destruct (zeroed_in vs slot) eqn:Hz; [|reflexivity].
    exfalso. destruct (zeroed_in_ok _ _ _ _ _ _ _ Hs Hn Hz) as [Hobj' _].
    congruence. }
  split; [|exact (finished_image _ _ _ _ _ Hs)].
  intros slot it0 H0 Hobj. rewrite leaf_items_finished.
  rewrite (scan_items _ _ _ _ _ Hs slot it0 H0).
  destruct (zeroed_in vs slot) eqn:Hz; [|reflexivity].
  exfalso. destruct (zeroed_in_ok _ _ _ _ _ _ _ Hs H0 Hz) as [Hobj' _].
  congruence.
Qed.

(** On [block_tree] the two neighbours of extent 8192 come out as they
    went in. *)
Lemma corrupt_extent_only_bytenr_witness :
  valid_leaf (leaf_items (fresh_fs block_tree)) /\
  (length (leaf_items (fresh_fs block_tree)) < 5)%nat /\
  exists o fs',
    corrupt_extent 5 8192 0 (fresh_fs block_tree) = (o, fs') /\
    nth_error (committed fs') 0 = nth_error block_tree 0 /\
    nth_error (committed fs') 3 = nth_error block_tree 3.
Proof.
  split; [exact block_tree_valid|]. split; [simpl; lia|].
  destruct (corrupt_extent_only_bytenr 5 8192 0 (fresh_fs block_tree) block_tree_valid)
    as [o [fs' [vs [Hrun [_ [_ [_ [Hkeep Himage]]]]]]]]; [simpl; lia|].
  exists o, fs'. split; [exact Hrun|]. simpl in Himage. rewrite Himage.
  split; (erewrite Hkeep; [reflexivity | reflexivity | simpl; lia]).
Defined.

(** ** C6: the keys searched for *)

Lemma searched_app (l1 l2 : list event) :
  searched (l1 ++ l2) = searched l1 ++ searched l2.
Proof.
  induction l1 as [|e l1 IH]; simpl; [reflexivity|].
  destruct e; simpl; rewrite ?IH; reflexivity.
Qed.

Lemma pass_searched (bytenr : Z) (k : btrfs_key) (fs : fs_info) (v : visit) :
  pass bytenr k fs v -> searched (events_of v) = [k].
Proof. destruct 1; reflexivity. Qed.

Lemma key_lt_le_trans (a b c : btrfs_key) :
  key_lt a b -> comp_keys b c <> Gt -> key_lt a c.
Proof.
  unfold key_lt. intros Hab Hbc.
  destruct (comp_keys b c) eqn:E; try congruence.
  - apply (key_lt_eq_trans _ _ _ Hab E).
  - apply (key_lt_trans _ _ _ Hab E).
Qed.

(** The keys a scan searches for go strictly down in the order of the
    tree, and none has a negative offset. *)
Lemma scan_searched (bytenr : Z) (k : btrfs_key) (fs fs' : fs_info) (vs : list visit) :
  scan bytenr k fs vs fs' ->
  valid_leaf (leaf_items fs) ->
  0 <= offset k ->
  exists ks,
    searched (scan_events vs) = k :: ks /\
    StronglySorted (fun a b => key_lt b a) (k :: ks) /\
    Forall (fun a => 0 <= offset a) (k :: ks).
Proof.
  induction 1 as [k fs v Hp Hc | k fs v vs fs' Hp Hc Hs IH]; intros Hv Hk;
    unfold scan_events; simpl.
  - exists []. rewrite app_nil_r, (pass_searched _ _ _ _ Hp).
    split; [reflexivity|]. split; repeat constructor. exact Hk.
  - destruct (leaves v) as [c k'] eqn:L. simpl in Hc, Hs, IH. subst c.
    destruct (pass_continue _ _ _ _ _ Hv Hp L)
      as [slot [it [Hfound [Hn [_ [Hk' [H2 [Hlt _]]]]]]]].
    destruct IH as [ks [Hks [Hsorted Hpos]]].
    + apply valid_leaf_after. exact Hv.
    + rewrite Hk'. simpl. lia.
    + destruct (found_some _ _ _ Hfound) as [it' [Hn' Hle]].
      rewrite Hn in Hn'. inversion Hn'; subst it'.
      assert (Hkk : key_lt k' k) by (eapply key_lt_le_trans; eauto).
      exists (k' :: ks). rewrite searched_app, (pass_searched _ _ _ _ Hp).
      fold (scan_events vs). rewrite Hks.
      split; [reflexivity|]. split.
      * constructor; [exact Hsorted|].
        constructor; [exact Hkk|].
        apply StronglySorted_inv in Hsorted. destruct Hsorted as [_ Hall].
        eapply Forall_impl; [|exact Hall].
        intros a Ha. simpl in Ha. eapply key_lt_trans; eauto.
      * constructor; [exact Hk | exact Hpos].
Qed.

Lemma first_key_offset (bytenr : Z) : 0 <= offset (first_key bytenr).
Proof. unfold first_key, u64; simpl. apply Z.mod_pos_bound. reflexivity. Qed.

(** C6, as the code has it.  On a valid leaf the loop of [corrupt_extent]
    comes to its end within one pass more than the leaf has items.  The keys
    it searches for go strictly down in the order of the tree (objectid,
    then type, then offset), and no offset searched for is below 0. *)
Theorem corrupt_extent_terminates
    (fuel : nat) (bytenr copy : Z) (fs : fs_info) :
  valid_leaf (leaf_items fs) ->
  (length (leaf_items fs) < fuel)%nat ->
  exists o fs' evs,
    corrupt_extent fuel bytenr copy fs = (o, fs') /\
    (o = Done 0 \/ o = Bug) /\
    log fs' = log fs ++ EvStartTransaction :: evs
                     ++ [EvFreePath; EvCommit; EvCloseCtree (close_ret fs)] /\
    StronglySorted (fun a b => key_lt b a) (searched evs) /\
    Forall (fun a => 0 <= offset a) (searched evs).
Proof.
  intros Hv Hfuel.
  destruct (corrupt_extent_scan fuel bytenr copy fs Hv Hfuel) as [vs [fs1 [Hs Hrun]]].
  exists (if close_ret fs1 =? 0 then Done 0 else Bug), (finished fs1), (scan_events vs).
  split; [exact Hrun|].
  split; [destruct (close_ret fs1 =? 0); auto|].
  split.
  { simpl. rewrite (scan_log _ _ _ _ _ Hs), (scan_close_ret _ _ _ _ _ Hs). simpl.
    rewrite <- !app_assoc. reflexivity. }
  destruct (scan_searched _ _ _ _ _ Hs Hv (first_key_offset bytenr))
    as [ks [Hks [Hsorted Hpos]]].
  rewrite Hks. split; assumption.
Qed.

Lemma corrupt_extent_terminates_witness :
  valid_leaf (leaf_items (fresh_fs block_tree)) /\
  (length (leaf_items (fresh_fs block_tree)) < 5)%nat /\
  exists o fs' evs,
    corrupt_extent 5 8192 0 (fresh_fs block_tree) = (o, fs') /\
    (o = Done 0 \/ o = Bug) /\
    StronglySorted (fun a b => key_lt b a) (searched evs).
Proof.
  split; [exact block_tree_valid|]. split; [simpl; lia|].
  destruct (corrupt_extent_terminates 5 8192 0 (fresh_fs block_tree) block_tree_valid)
    as [o [fs' [evs [Hrun [Ho [_ [Hsorted _]]]]]]]; [simpl; lia|].
  exists o, fs', evs. auto.
Defined.

(** C6, as the claim words it, fails on [block_tree]: the scan ends, but
    the offsets it searches for are 2^64-1, then 4 (below the back-reference
    of tree 5), then 4095 (below the extent item of size 4096), which is not
    a decreasing sequence. *)
Lemma offsets_not_decreasing :
  fst (corrupt_extent 5 8192 0 (fresh_fs block_tree)) = Done 0 /\
  map offset (searched (log (snd (corrupt_extent 5 8192 0 (fresh_fs block_tree)))))
  = [18446744073709551615; 4; 4095] /\
  ~ strictly_decreasing
      (map offset (searched (log (snd (corrupt_extent 5 8192 0 (fresh_fs block_tree)))))).
Proof.
  split; [reflexivity|]. split; [reflexivity|].
  vm_compute. intros [_ [H _]]. discriminate H.
Qed.

(** ** C8: which items are zeroed *)

(** C8.  The log of [corrupt_extent] is the calls of its visits.  A visit
    that passed the objectid test is either [VSkip], whose calls are the
    search, the key read and the release of the path, or [VZero], whose
    calls also hold the [memset] of the payload and
    [btrfs_mark_buffer_dirty]; it is [VZero] exactly when the type of the
    key is one of the six kinds.  In the leaf the run leaves every slot holds
    the item it held, with the same key and a payload of the same length,
    zeroed when a visit zeroed it and untouched otherwise; a zeroed slot
    held an item of [bytenr] of one of the six kinds.  That leaf is the
    image when the commit has gone through, and the image is not touched
    when it has not. *)
Theorem corrupt_extent_zeroes_six_kinds
    (fuel : nat) (bytenr copy : Z) (fs : fs_info) :
  valid_leaf (leaf_items fs) ->
  (length (leaf_items fs) < fuel)%nat ->
  exists o fs' vs,
    corrupt_extent fuel bytenr copy fs = (o, fs') /\
    log fs' = log fs ++ EvStartTransaction :: scan_events vs
                     ++ [EvFreePath; EvCommit; EvCloseCtree (close_ret fs)] /\
    (forall v, In v vs -> visit_ok bytenr (leaf_items fs) v) /\
    length (leaf_items fs') = length (leaf_items fs) /\
    committed fs' = (if commit_ret fs =? 0 then leaf_items fs' else committed fs) /\
    (forall slot it0,
        nth_error (leaf_items fs) slot = Some it0 ->
        exists it1,
          nth_error (leaf_items fs') slot = Some it1 /\
          key it1 = key it0 /\
          length (data it1) = length (data it0) /\
          (zeroed_in vs slot = true ->
             data it1 = repeat Byte.x00 (length (data it0)) /\
             objectid (key it0) = bytenr /\ In (type (key it0)) extent_ref_kinds) /\
          (zeroed_in vs slot = false -> it1 = it0)).
Proof.
  intros Hv Hfuel.
  destruct (corrupt_extent_scan fuel bytenr copy fs Hv Hfuel) as [vs [fs1 [Hs Hrun]]].
  exists (if close_ret fs1 =? 0 then Done 0 else Bug), (finished fs1), vs.
  split; [exact Hrun|].
  split.
  { simpl. rewrite (scan_log _ _ _ _ _ Hs), (scan_close_ret _ _ _ _ _ Hs). simpl.
    rewrite <- !app_assoc. reflexivity. }
  split; [exact (scan_visits_ok _ _ _ _ _ Hs)|].
  split; [rewrite leaf_items_finished; exact (scan_length _ _ _ _ _ Hs)|].
  split; [exact (finished_image _ _ _ _ _ Hs)|].
  intros slot it0 H0. rewrite leaf_items_finished.
  rewrite (scan_items _ _ _ _ _ Hs slot it0 H0).
  destruct (zeroed_in vs slot) eqn:Hz.
  - exists (zero_item it0). split; [reflexivity|]. split; [reflexivity|].
    split; [simpl; apply repeat_length|].
    split; [|discriminate].
    intros _. split; [reflexivity|].
    exact (zeroed_in_ok _ _ _ _ _ _ _ Hs H0 Hz).
  - exists it0. split; [reflexivity|]. split; [reflexivity|].
    split; [reflexivity|]. split; [discriminate | reflexivity].
Qed.

(** On [mixed_tree] the block group item (type 192) is visited first and
    left alone. *)
Lemma corrupt_extent_zeroes_six_kinds_witness :
  valid_leaf (leaf_items (fresh_fs mixed_tree)) /\
  (length (leaf_items (fresh_fs mixed_tree)) < 4)%nat /\
  exists o fs' vs,
    corrupt_extent 4 8192 0 (fresh_fs mixed_tree) = (o, fs') /\
    length (committed fs') = 3%nat /\
    (forall v, In v vs -> visit_ok 8192 mixed_tree v).
Proof.
  split; [exact mixed_tree_valid|]. split; [simpl; lia|].
  destruct (corrupt_extent_zeroes_six_kinds 4 8192 0 (fresh_fs mixed_tree)
              mixed_tree_valid)
    as [o [fs' [vs [Hrun [_ [Hok [Hlen [Himage _]]]]]]]]; [simpl; lia|].
  exists o, fs', vs. simpl in Himage. rewrite Himage. auto.
Defined.

(** ** One pass of the mirror loop *)

Import MirrorCorrupter MirrorSpec.

Lemma pwrite_zeros (d : Z -> Z -> Byte.byte) (f off n f' o : Z) :
  pwrite d f off n (repeat Byte.x00 (Z.to_nat n)) f' o =
  if in_range f off n f' o then Byte.x00 else d f' o.
Proof.
  unfold pwrite. destruct (in_range f off n f' o); [|reflexivity].
  apply nth_repeat.
Qed.

(** Lines 66-71 on a buffer bound to a physical location: the five calls
    are made whatever fails; the device changes only where the write went
    through. *)
Lemma corrupt_copy_run (flt : faults) (eb : extent_buffer) (m : Z) (w : world) :
  exists eb' w',
    corrupt_copy flt eb m w = (Done eb', w') /\
    start eb' = start eb /\ len eb' = len eb /\
    log w' = log w ++
             [EvRead (eb_fd eb) (dev_bytenr eb) (len eb);
              EvStdoutCorrupting (start eb) m;
              EvMemset (len eb);
              EvWrite (eb_fd eb) (dev_bytenr eb) (repeat Byte.x00 (Z.to_nat (len eb)));
              EvFsync (eb_fd eb)] /\
    (forall f o,
        disk w' f o =
        if negb (write_fails flt (eb_fd eb) (dev_bytenr eb)) &&
           in_range (eb_fd eb) (dev_bytenr eb) (len eb) f o
        then Byte.x00 else disk w f o).
Proof.
  unfold corrupt_copy, read_extent_from_disk, memset_data, write_extent_to_disk,
    fsync, emit, get_world, mret, bind, set_data; simpl.
  destruct (read_fails flt (eb_fd eb) (dev_bytenr eb)); simpl;
    destruct (write_fails flt (eb_fd eb) (dev_bytenr eb)); simpl;
    destruct (fsync_fails flt (eb_fd eb)); simpl;
    eexists; eexists; (split; [reflexivity|]); simpl;
    (split; [reflexivity|]); (split; [reflexivity|]);
    (split; [rewrite <- !app_assoc; reflexivity|]);
    intros f o; try reflexivity; apply pwrite_zeros.
Qed.

Section StableMirrors.
Variable flt : faults.
Variable root : btrfs_root.
Variables bytenr blocksize copy N : Z.
Variable loc : Z -> btrfs_bio_stripe.
Hypothesis Hstable : stable_mirrors root bytenr blocksize N loc.
Hypothesis HN : N < INT_MAX.

(** The pass for mirror [m]: the loop goes on to [m + 1] unless [m] is the
    last mirror. *)
Lemma mirror_body_stable (eb : extent_buffer) (length m : Z) (w : world) :
  1 <= m <= N ->
  start eb = bytenr -> len eb = blocksize ->
  exists eb' length' w',
    mirror_body flt root bytenr copy eb length m w =
    (Done (if m =? N then Break else Continue,
           (eb', length', if N =? 1 then m else m + 1)), w') /\
    start eb' = bytenr /\ len eb' = blocksize /\
    log w' = log w ++ mirror_events bytenr blocksize copy m (loc m) /\
    (forall f o, disk w' f o =
                 if writes flt blocksize copy loc f o m then Byte.x00 else disk w f o).
Proof.
  intros Hm Hs Hl. destruct Hstable as [Hn Hmap].
  unfold mirror_body.
  destruct (Hmap w length m Hm) as [l' Hmb].
  rewrite (bind_done _ _ w w (map_block root w (start eb) length m)) by reflexivity.
  rewrite Hs, Hmb.
  erewrite bind_done; [| reflexivity].
  erewrite bind_done; [| reflexivity].
  simpl dev_bytenr.
  set (eb1 := set_dev_bytenr (set_fd eb (fd (dev (loc m)))) (physical (loc m))).
  simpl disk. simpl total_ios. simpl log.
  set (w1 := {| disk := _; total_ios := _; log := _ ++ _ |}).
  assert (Hfin : forall eb0 w0,
             start eb0 = bytenr -> len eb0 = blocksize ->
             (n <- btrfs_num_copies root (start eb0) (len eb0);;
              (if n =? 1
               then mret (Break, (eb0, l', m))
               else
                 if m =? INT_MAX
                 then undefined
                 else
                   if m + 1 >? n
                   then mret (Break, (eb0, l', m + 1))
                   else mret (Continue, (eb0, l', m + 1)))) w0 =
             (Done (if m =? N then Break else Continue,
                    (eb0, l', if N =? 1 then m else m + 1)), w0)).
  { intros eb0 w0 Hs0 Hl0.
    unfold btrfs_num_copies, get_world, mret, bind. rewrite Hs0, Hl0, Hn.
    destruct (Z.eqb_spec N 1) as [E1|E1].
    - assert (m = N) by lia. subst m. rewrite Z.eqb_refl. reflexivity.
    - destruct (Z.eqb_spec m INT_MAX) as [E2|E2]; [lia|].
      destruct (Z.eqb_spec m N) as [E3|E3].
      + subst m. assert (H : (N + 1 >? N) = true) by (apply Z.gtb_lt; lia).
        rewrite H. reflexivity.
      + assert (H : (m + 1 >? N) = false).
        { destruct (Z.gtb_spec (m + 1) N); [lia | reflexivity]. }
        rewrite H. reflexivity. }
  unfold mirror_events, writes. fold (selected copy m).
  destruct (selected copy m) eqn:Hsel.
  - destruct (corrupt_copy_run flt eb1 m w1) as [eb' [w' [Hrun [Hs' [Hl' [Hlog Hdisk]]]]]].
    exists eb', l', w'.
    rewrite (bind_done _ _ _ _ _ Hrun).
    rewrite Hfin by (rewrite ?Hs', ?Hl'; assumption).
    split; [reflexivity|].
    split; [rewrite Hs'; exact Hs|]. split; [rewrite Hl'; exact Hl|].
    split.
    + rewrite Hlog. subst w1 eb1. simpl. rewrite Hs, Hl.
      rewrite <- app_assoc. reflexivity.
    + intros f o. rewrite Hdisk. subst w1 eb1. simpl. rewrite Hl. reflexivity.
  - exists eb1, l', w1.
    rewrite (bind_done _ _ w1 w1 eb1) by reflexivity.
    rewrite Hfin by assumption.
    split; [reflexivity|]. split; [exact Hs|]. split; [exact Hl|].
    split; reflexivity.
Qed.

(** ** The whole loop *)

(** From mirror [m] on, with [n] mirrors after it: the loop makes the
    passes for [m], [m + 1], ..., [N] and returns. *)
Lemma mirror_loop_stable (n : nat) :
  forall (m : Z) (eb : extent_buffer) (length : Z) (w : world) (fuel : nat),
    N - m = Z.of_nat n -> 1 <= m -> (n < fuel)%nat ->
    start eb = bytenr -> len eb = blocksize ->
    exists eb' w',
      mirror_loop flt root fuel bytenr copy eb length m w = (Done eb', w') /\
      start eb' = bytenr /\ len eb' = blocksize /\
      log w' = log w ++
               flat_map (fun i => mirror_events bytenr blocksize copy i (loc i))
                        (range m (S n)) /\
      (forall f o,
          disk w' f o =
          if existsb (writes flt blocksize copy loc f o) (range m (S n))
          then Byte.x00 else disk w f o).
Proof.
  induction n as [|n IH]; intros m eb length w fuel Hn Hm Hfuel Hs Hl;
    (destruct fuel as [|fuel]; [lia|]);
    destruct (mirror_body_stable eb length m w) as
      [eb1 [l1 [w1 [Hb [Hs1 [Hl1 [Hlog1 Hdisk1]]]]]]]; try lia; try assumption;
    simpl mirror_loop; rewrite (bind_done _ _ _ _ _ Hb).
  - assert (E : (m =? N) = true) by (apply Z.eqb_eq; lia). rewrite E.
    exists eb1, w1. split; [reflexivity|].
    split; [exact Hs1|]. split; [exact Hl1|].
    cbn [range flat_map existsb].
    rewrite app_nil_r. split; [exact Hlog1|].
    intros f o. rewrite orb_false_r. apply Hdisk1.
  - assert (E : (m =? N) = false) by (apply Z.eqb_neq; lia). rewrite E.
    assert (E1 : (N =? 1) = false) by (apply Z.eqb_neq; lia). rewrite E1.
    destruct (IH (m + 1) eb1 l1 w1 fuel) as [eb' [w' [Hrun [Hs' [Hl' [Hlog Hdisk]]]]]];
      try lia; try assumption.
    exists eb', w'. split; [exact Hrun|].
    split; [exact Hs'|]. split; [exact Hl'|]. split.
    + rewrite Hlog, Hlog1. rewrite <- app_assoc. reflexivity.
    + intros f o. rewrite Hdisk, Hdisk1.
      change (existsb (writes flt blocksize copy loc f o) (range m (S (S n))))
        with (writes flt blocksize copy loc f o m ||
              existsb (writes flt blocksize copy loc f o) (range (m + 1) (S n))).
      destruct (writes flt blocksize copy loc f o m);
        destruct (existsb (writes flt blocksize copy loc f o) (range (m + 1) (S n)));
        reflexivity.
Qed.

(** [debug_corrupt_block] on a block with [N] stable mirrors: it returns
    the buffer after the passes for mirrors 1 to [N], whatever fails on the
    devices. *)
Lemma debug_corrupt_block_stable (N' fuel : nat) (w : world) :
  N = Z.of_nat N' -> (1 <= N')%nat -> (N' <= fuel)%nat ->
  nomem flt = false ->
  exists eb w',
    debug_corrupt_block flt root fuel bytenr blocksize copy w = (Done (Some eb), w') /\
    start eb = bytenr /\ len eb = blocksize /\
    log w' = log w ++
             flat_map (fun i => mirror_events bytenr blocksize copy i (loc i))
                      (range 1 N') /\
    (forall f o,
        disk w' f o =
        if existsb (writes flt blocksize copy loc f o) (range 1 N')
        then Byte.x00 else disk w f o).
Proof.
  intros HN' H1 Hfuel Hmem.
  destruct N' as [|n]; [lia|].
  unfold debug_corrupt_block, btrfs_find_create_tree_block. rewrite Hmem.
  cbv iota. erewrite bind_done; [| reflexivity]. cbv iota beta.
  match goal with
  | |- context [mirror_loop _ _ _ _ _ ?e _ _] => set (eb0 := e)
  end.
  destruct (mirror_loop_stable n 1 eb0 blocksize w fuel)
    as [eb' [w' [Hrun [Hs' [Hl' [Hlog Hdisk]]]]]]; try lia; try reflexivity.
  exists eb', w'. rewrite (bind_done _ _ _ _ _ Hrun).
  split; [reflexivity|]. auto.
Qed.
End StableMirrors.

Lemma in_range_bounds (f0 off n f o : Z) :
  in_range f0 off n f o = true <-> f = f0 /\ off <= o < off + n.
Proof.
  unfold in_range. rewrite !andb_true_iff, Z.eqb_eq, Z.leb_le, Z.ltb_lt. tauto.
Qed.

Lemma In_range (i m : Z) (n : nat) :
  In i (range m n) <-> m <= i < m + Z.of_nat n.
Proof.
  revert m. induction n as [|n IH]; intros m; simpl range.
  - simpl. lia.
  - simpl In. rewrite IH. lia.
Qed.

Lemma content_ext (d d' : Z -> Z -> Byte.byte) (f off n : Z) :
  (forall o, off <= o < off + n -> d' f o = d f o) ->
  content d' f off n = content d f off n.
Proof.
  intros H. unfold content. apply map_ext_in. intros i Hi.
  apply in_seq in Hi. apply H. lia.
Qed.

Lemma content_zero (d : Z -> Z -> Byte.byte) (f off n : Z) :
  (forall o, off <= o < off + n -> d f o = Byte.x00) ->
  content d f off n = repeat Byte.x00 (Z.to_nat n).
Proof.
  intros H. unfold content.
  transitivity (map (fun _ : nat => Byte.x00) (seq 0 (Z.to_nat n))).
  - apply map_ext_in. intros i Hi. apply in_seq in Hi. apply H. lia.
  - rewrite map_const, length_seq. reflexivity.
Qed.

(** With a target mirror [k] between 1 and the number of mirrors, the
    bytes written are those of mirror [k], when its write goes through. *)
Lemma writes_target (flt : faults) (blocksize k : Z) (loc : Z -> btrfs_bio_stripe)
    (N' : nat) (f o : Z) :
  1 <= k <= Z.of_nat N' ->
  write_fails flt (loc_fd (loc k)) (physical (loc k)) = false ->
  existsb (writes flt blocksize k loc f o) (range 1 N') =
  in_range (loc_fd (loc k)) (physical (loc k)) blocksize f o.
Proof.
  intros Hk Hw.
  destruct (in_range (loc_fd (loc k)) (physical (loc k)) blocksize f o) eqn:R.
  - apply existsb_exists. exists k. split; [apply In_range; lia|].
    unfold writes, selected. rewrite Hw, R, Z.eqb_refl, orb_true_r. reflexivity.
  - destruct (existsb _ _) eqn:E; [|reflexivity].
    apply existsb_exists in E. destruct E as [i [_ Hi]].
    unfold writes, selected in Hi.
    apply andb_true_iff in Hi. destruct Hi as [Hi Hr].
    apply andb_true_iff in Hi. destruct Hi as [Hsel _].
    apply orb_true_iff in Hsel. destruct Hsel as [H0 | Hik].
    + apply Z.eqb_eq in H0. lia.
    + apply Z.eqb_eq in Hik. subst i. congruence.
Qed.

(** ** The claims about [debug_corrupt_block] *)

(** C2.  A block with [N] mirrors, [N] at least 1 and the mapping stable,
    corrupted with [copy = 0]: the corrupter returns, and what it did is,
    for the mirror numbers 1, 2, ..., [N] in this order and nothing after
    [N], print the mirror, read the block at the location of the mirror,
    zero the buffer, write it back there and flush the device, once each.
    Wherever a write went through, the location reads as zero bytes of the
    block length. *)
Theorem debug_corrupt_block_all_mirrors
    (flt : faults) (root : btrfs_root) (bytenr blocksize : Z)
    (loc : Z -> btrfs_bio_stripe) (N' fuel : nat) (w : world) :
  stable_mirrors root bytenr blocksize (Z.of_nat N') loc ->
  (1 <= N')%nat ->
  Z.of_nat N' < INT_MAX ->
  (N' <= fuel)%nat ->
  nomem flt = false ->
  exists eb w',
    debug_corrupt_block flt root fuel bytenr blocksize 0 w = (Done (Some eb), w') /\
    log w' = log w ++
             flat_map (fun i =>
                         EvStdoutMirror i bytenr (physical (loc i)) (name (dev (loc i)))
                         :: corrupting_events bytenr blocksize i (loc i))
                      (range 1 N') /\
    (forall i, 1 <= i <= Z.of_nat N' ->
               write_fails flt (loc_fd (loc i)) (physical (loc i)) = false ->
               content (disk w') (loc_fd (loc i)) (physical (loc i)) blocksize
               = repeat Byte.x00 (Z.to_nat blocksize)).
Proof.
  intros Hst H1 HN Hfuel Hmem.
  destruct (debug_corrupt_block_stable flt root bytenr blocksize 0 _ loc Hst HN
              N' fuel w eq_refl H1 Hfuel Hmem)
    as [eb [w' [Hrun [_ [_ [Hlog Hdisk]]]]]].
  exists eb, w'. split; [exact Hrun|]. split; [exact Hlog|].
  intros i Hi Hw. apply content_zero. intros o Ho.
  rewrite Hdisk.
  assert (E : existsb (writes flt blocksize 0 loc (loc_fd (loc i)) o) (range 1 N') = true).
  { apply existsb_exists. exists i. split; [apply In_range; lia|].
    unfold writes, selected. rewrite Hw. simpl.
    apply in_range_bounds. auto. }
  rewrite E. reflexivity.
Qed.

(** C7, as the code has it.  A block with [N] stable mirrors, corrupted
    with a target mirror [k] between 1 and [N] whose write goes through:
    afterwards the location of mirror [k] reads as zero bytes of the block
    length, every byte of every device outside that location is what it was,
    and so the location of every other mirror, which does not overlap it,
    reads as before. *)
Theorem debug_corrupt_block_one_mirror
    (flt : faults) (root : btrfs_root) (bytenr blocksize k : Z)
    (loc : Z -> btrfs_bio_stripe) (N' fuel : nat) (w : world) :
  stable_mirrors root bytenr blocksize (Z.of_nat N') loc ->
  (1 <= N')%nat ->
  Z.of_nat N' < INT_MAX ->
  (N' <= fuel)%nat ->
  nomem flt = false ->
  1 <= k <= Z.of_nat N' ->
  write_fails flt (loc_fd (loc k)) (physical (loc k)) = false ->
  (forall j, 1 <= j <= Z.of_nat N' -> j <> k -> disjoint (loc j) (loc k) blocksize) ->
  exists eb w',
    debug_corrupt_block flt root fuel bytenr blocksize k w = (Done (Some eb), w') /\
    content (disk w') (loc_fd (loc k)) (physical (loc k)) blocksize
    = repeat Byte.x00 (Z.to_nat blocksize) /\
    (forall f o,
        in_range (loc_fd (loc k)) (physical (loc k)) blocksize f o = false ->
        disk w' f o = disk w f o) /\
    (forall j, 1 <= j <= Z.of_nat N' -> j <> k ->
               content (disk w') (loc_fd (loc j)) (physical (loc j)) blocksize
               = content (disk w) (loc_fd (loc j)) (physical (loc j)) blocksize).
Proof.
  intros Hst H1 HN Hfuel Hmem Hk Hw Hdis.
  destruct (debug_corrupt_block_stable flt root bytenr blocksize k _ loc Hst HN
              N' fuel w eq_refl H1 Hfuel Hmem)
    as [eb [w' [Hrun [_ [_ [_ Hdisk]]]]]].
  assert (Hd : forall f o,
             disk w' f o =
             if in_range (loc_fd (loc k)) (physical (loc k)) blocksize f o
             then Byte.x00 else disk w f o).
  { intros f o. rewrite Hdisk, (writes_target flt blocksize k loc N' f o Hk Hw).
    reflexivity. }
  exists eb, w'. split; [exact Hrun|]. split.
  { apply content_zero. intros o Ho. rewrite Hd.
    assert (E : in_range (loc_fd (loc k)) (physical (loc k)) blocksize
                         (loc_fd (loc k)) o = true)
      by (apply in_range_bounds; auto).
    rewrite E. reflexivity. }
  split.
  { intros f o R. rewrite Hd, R. reflexivity. }
  intros j Hj Hjk. apply content_ext. intros o Ho. rewrite Hd.
  destruct (in_range (loc_fd (loc k)) (physical (loc k)) blocksize (loc_fd (loc j)) o)
    eqn:R; [|reflexivity].
  exfalso. apply in_range_bounds in R. destruct R as [Hfd Hr].
  destruct (Hdis j Hj Hjk) as [D | [D | D]]; [congruence | lia | lia].
Qed.

(** C1, as the code has it.  The results of the write-back and of the
    flush are dropped (lines 70-71): on a block with stable mirrors a run in
    which writes or flushes fail returns the buffer as the run in which none
    of them fails does, after the same calls for the same mirrors in the
    same order.  Nothing is propagated, nothing aborts, and the mirrors after
    the failing one are visited. *)
Theorem debug_corrupt_block_ignores_write_failures
    (flt : faults) (root : btrfs_root) (bytenr blocksize copy : Z)
    (loc : Z -> btrfs_bio_stripe) (N' fuel : nat) (w : world) :
  stable_mirrors root bytenr blocksize (Z.of_nat N') loc ->
  (1 <= N')%nat ->
  Z.of_nat N' < INT_MAX ->
  (N' <= fuel)%nat ->
  nomem flt = false ->
  exists eb w' eb0 w0,
    debug_corrupt_block flt root fuel bytenr blocksize copy w = (Done (Some eb), w') /\
    debug_corrupt_block (without_write_faults flt) root fuel bytenr blocksize copy w
    = (Done (Some eb0), w0) /\
    log w' = log w0 /\
    log w' = log w ++
             flat_map (fun i => mirror_events bytenr blocksize copy i (loc i))
                      (range 1 N').
Proof.
  intros Hst H1 HN Hfuel Hmem.
  destruct (debug_corrupt_block_stable flt root bytenr blocksize copy _ loc Hst HN
              N' fuel w eq_refl H1 Hfuel Hmem)
    as [eb [w' [Hrun [_ [_ [Hlog _]]]]]].
  destruct (debug_corrupt_block_stable (without_write_faults flt) root bytenr blocksize
              copy _ loc Hst HN N' fuel w eq_refl H1 Hfuel Hmem)
    as [eb0 [w0 [Hrun0 [_ [_ [Hlog0 _]]]]]].
  exists eb, w', eb0, w0. split; [exact Hrun|]. split; [exact Hrun0|].
  split; [congruence | exact Hlog].
Qed.

Lemma raid1_stable (bytenr blocksize : Z) :
  stable_mirrors raid1_root bytenr blocksize 2 (raid1_loc bytenr).
Proof.
  split; [reflexivity|].
  intros w l i Hi. exists l. simpl.
  destruct (Z.leb_spec 1 i); destruct (Z.leb_spec i 2); try lia. reflexivity.
Qed.

Lemma raid1_disjoint (bytenr blocksize j k : Z) :
  j <> k -> 1 <= j <= 2 -> 1 <= k <= 2 ->
  disjoint (raid1_loc bytenr j) (raid1_loc bytenr k) blocksize.
Proof.
  intros Hjk Hj Hk. left. unfold raid1_loc, loc_fd.
  destruct (Z.eqb_spec j 1); destruct (Z.eqb_spec k 1); simpl; lia.
Qed.

(** The two-mirror block at 4096 with [copy = 0], while [sdb] fails. *)
Lemma debug_corrupt_block_all_mirrors_witness :
  stable_mirrors raid1_root 4096 4096 (Z.of_nat 2) (raid1_loc 4096) /\
  exists eb w',
    debug_corrupt_block sdb_fails raid1_root 2 4096 4096 0 full_world
    = (Done (Some eb), w') /\
    log w' =
    [EvStdoutMirror 1 4096 1052672 "/dev/sdb";
     EvRead 3 1052672 4096; EvStdoutCorrupting 4096 1; EvMemset 4096;
     EvWrite 3 1052672 (repeat Byte.x00 4096); EvFsync 3;
     EvStdoutMirror 2 4096 2101248 "/dev/sdc";
     EvRead 4 2101248 4096; EvStdoutCorrupting 4096 2; EvMemset 4096;
     EvWrite 4 2101248 (repeat Byte.x00 4096); EvFsync 4].
Proof.
  split; [exact (raid1_stable 4096 4096)|].
  destruct (debug_corrupt_block_all_mirrors sdb_fails raid1_root 4096 4096
              (raid1_loc 4096) 2 2 full_world (raid1_stable 4096 4096))
    as [eb [w' [Hrun [Hlog _]]]];
    [lia | reflexivity | lia | reflexivity |].
  exists eb, w'. split; [exact Hrun|]. rewrite Hlog. reflexivity.
Defined.

(** The same block with target mirror 2 and no fault: mirror 1 on [sdb]
    reads as before. *)
Lemma debug_corrupt_block_one_mirror_witness :
  stable_mirrors raid1_root 4096 4096 (Z.of_nat 2) (raid1_loc 4096) /\
  1 <= 2 <= Z.of_nat 2 /\
  exists eb w',
    debug_corrupt_block no_faults raid1_root 2 4096 4096 2 full_world
    = (Done (Some eb), w') /\
    content (disk w') 4 2101248 4096 = repeat Byte.x00 4096 /\
    content (disk w') 3 1052672 4096 = content (disk full_world) 3 1052672 4096.
Proof.
  split; [exact (raid1_stable 4096 4096)|]. split; [simpl; lia|].
  destruct (debug_corrupt_block_one_mirror no_faults raid1_root 4096 4096 2
              (raid1_loc 4096) 2 2 full_world (raid1_stable 4096 4096))
    as [eb [w' [Hrun [Hz [_ Hkeep]]]]];
    [lia | reflexivity | lia | reflexivity | simpl; lia | reflexivity
     | intros j Hj Hjk; apply raid1_disjoint; simpl in Hj; lia |].
  exists eb, w'. split; [exact Hrun|]. split; [exact Hz|].
  apply (Hkeep 1); simpl; lia.
Defined.

(** The two-mirror block at 4096 while writes on [sdb] fail, next to the
    run on a machine where they go through. *)
Lemma debug_corrupt_block_ignores_write_failures_witness :
  stable_mirrors raid1_root 4096 4096 (Z.of_nat 2) (raid1_loc 4096) /\
  exists eb w' eb0 w0,
    debug_corrupt_block sdb_read_only raid1_root 2 4096 4096 0 full_world
    = (Done (Some eb), w') /\
    debug_corrupt_block (without_write_faults sdb_read_only) raid1_root 2 4096 4096 0
                        full_world
    = (Done (Some eb0), w0) /\
    log w' = log w0.
Proof.
  split; [exact (raid1_stable 4096 4096)|].
  destruct (debug_corrupt_block_ignores_write_failures sdb_read_only raid1_root
              4096 4096 0 (raid1_loc 4096) 2 2 full_world (raid1_stable 4096 4096))
    as [eb [w' [eb0 [w0 [Hrun [Hrun0 [Hlog _]]]]]]];
    [lia | reflexivity | lia | reflexivity |].
  exists eb, w', eb0, w0. auto.
Defined.

(** C1, as the claim words it, fails on the two-mirror block at 4096 when
    every write on [sdb], the device of mirror 1, fails: no failure is
    reported and nothing aborts; the buffer is returned; the block on [sdb]
    keeps its bytes; and the corrupter has gone on to mirror 2 on [sdc],
    which it has read, zeroed, written and flushed. *)
Lemma failed_write_does_not_stop_run :
  write_fails sdb_read_only 3 1052672 = true /\
  (exists eb,
      fst (debug_corrupt_block sdb_read_only raid1_root 2 4096 4096 0 full_world)
      = Done (Some eb)) /\
  log (snd (debug_corrupt_block sdb_read_only raid1_root 2 4096 4096 0 full_world)) =
    [EvStdoutMirror 1 4096 1052672 "/dev/sdb";
     EvRead 3 1052672 4096; EvStdoutCorrupting 4096 1; EvMemset 4096;
     EvWrite 3 1052672 (repeat Byte.x00 4096); EvFsync 3;
     EvStdoutMirror 2 4096 2101248 "/dev/sdc";
     EvRead 4 2101248 4096; EvStdoutCorrupting 4096 2; EvMemset 4096;
     EvWrite 4 2101248 (repeat Byte.x00 4096); EvFsync 4] /\
  content (disk (snd (debug_corrupt_block sdb_read_only raid1_root 2 4096 4096 0
                                          full_world)))
          3 1052672 4096 = repeat Byte.xff 4096 /\
  content (disk (snd (debug_corrupt_block sdb_read_only raid1_root 2 4096 4096 0
                                          full_world)))
          4 2101248 4096 = repeat Byte.x00 4096.
Proof.
  split; [reflexivity|].
  split; [eexists; vm_compute; reflexivity|].
  split; [vm_compute; reflexivity|].
  split; vm_compute; reflexivity.
Qed.

(** C7, as the claim words it, fails on the two-mirror block at 4096 with
    target mirror 1 when every write on [sdb], the device of mirror 1,
    fails.  The block has its two stable mirrors at locations that do not
    overlap, and 1 is a mirror of it; the run returns the buffer as any
    other run does; and the location of mirror 1 does not read as zero bytes
    afterwards: it holds the bytes it held. *)
Lemma target_mirror_not_zeroed_when_write_fails :
  stable_mirrors raid1_root 4096 4096 (Z.of_nat 2) (raid1_loc 4096) /\
  disjoint (raid1_loc 4096 2) (raid1_loc 4096 1) 4096 /\
  write_fails sdb_read_only (loc_fd (raid1_loc 4096 1)) (physical (raid1_loc 4096 1))
  = true /\
  (exists eb,
      fst (debug_corrupt_block sdb_read_only raid1_root 2 4096 4096 1 full_world)
      = Done (Some eb)) /\
  content (disk (snd (debug_corrupt_block sdb_read_only raid1_root 2 4096 4096 1
                                          full_world)))
          (loc_fd (raid1_loc 4096 1)) (physical (raid1_loc 4096 1)) 4096
  = repeat Byte.xff 4096 /\
  content (disk (snd (debug_corrupt_block sdb_read_only raid1_root 2 4096 4096 1
                                          full_world)))
          (loc_fd (raid1_loc 4096 1)) (physical (raid1_loc 4096 1)) 4096
  <> repeat Byte.x00 (Z.to_nat 4096).
Proof.
  split; [exact (raid1_stable 4096 4096)|].
  split; [apply raid1_disjoint; lia|].
  split; [reflexivity|].
  split; [eexists; vm_compute; reflexivity|].
  split; [vm_compute; reflexivity|].
  vm_compute. discriminate.
Qed.

(** ** The command line *)

Import Cli CliSpec.

(** One option either leaves the log alone, or ends the process with
    status 1 after the usage text. *)
Lemma handle_option_run (c : option_char) (v : locals) (l : list action) :
  (exists v', handle_option c v l = (Done v', l) /\
              ((logical v' = logical v /\ forall a, c <> Opt_l a) \/
               (logical v' <> 0 /\ exists a, c = Opt_l a /\ logical v' = u64 a))) \/
  (exists pre, handle_option c v l = (Exited 1, l ++ pre ++ [ActUsage]) /\
               Forall is_stderr pre).
Proof.
  destruct c as [a | a | a | | ]; simpl.
  - destruct (Z.eqb_spec (u64 a) 0) as [E|E].
    + right. exists [ActStderr "invalid extent number"].
      split; [| repeat constructor; eexists; reflexivity].
      unfold bind, act, print_usage. rewrite <- app_assoc. reflexivity.
    + left. eexists. split; [reflexivity|]. right. simpl. split; [exact E|].
      exists a. auto.
  - destruct (Z.eqb_spec a 0) as [E|E].
    + right. exists [ActStderr "invalid copy number"].
      split; [| repeat constructor; eexists; reflexivity].
      unfold bind, act, print_usage. rewrite <- app_assoc. reflexivity.
    + left. eexists. split; [reflexivity|]. left. simpl. split; [reflexivity|].
      discriminate.
  - destruct (Z.eqb_spec (u64 a) 0) as [E|E].
    + right. exists [ActStderr "invalid byte count"].
      split; [| repeat constructor; eexists; reflexivity].
      unfold bind, act, print_usage. rewrite <- app_assoc. reflexivity.
    + left. eexists. split; [reflexivity|]. left. simpl. split; [reflexivity|].
      discriminate.
  - left. eexists. split; [reflexivity|]. left. simpl. split; [reflexivity|].
    discriminate.
  - right. exists []. split; [reflexivity | constructor].
Qed.

(** The option loop: it comes through with the log as it was and
    [logical] either untouched, when no [-l] was given, or the nonzero value
    of a [-l]; or it ends the process with status 1 after the usage text. *)
Lemma option_loop_run (opts : list option_char) :
  forall (v : locals) (l : list action),
    (exists v', option_loop opts v l = (Done v', l) /\
                ((logical v' = logical v /\ forall a, ~ In (Opt_l a) opts) \/
                 (logical v' <> 0 /\ exists a, In (Opt_l a) opts /\ logical v' = u64 a))) \/
    (exists pre, option_loop opts v l = (Exited 1, l ++ pre ++ [ActUsage]) /\
                 Forall is_stderr pre).
Proof.
  induction opts as [|c opts IH]; intros v l; simpl.
  - left. exists v. split; [reflexivity|]. left. auto.
  - destruct (handle_option_run c v l) as [[v1 [H1 Hl1]] | [pre [H1 Hpre]]].
    + rewrite (bind_done _ _ _ _ _ H1).
      destruct (IH v1 l) as [[v' [H2 Hl2]] | [pre [H2 Hpre]]].
      * left. exists v'. split; [exact H2|].
        destruct Hl2 as [[E Hno] | [Hnz [a [Hin Ha]]]].
        -- destruct Hl1 as [[E1 Hc] | [Hnz [a [Hc Ha]]]].
           ++ left. split; [congruence|].
              intros a [Hc' | Hin]; [exact (Hc a Hc') | exact (Hno a Hin)].
           ++ right. split; [congruence|]. exists a. split; [left; exact Hc | congruence].
        -- right. split; [exact Hnz|]. exists a. split; [right; exact Hin | exact Ha].
      * right. exists pre. split; assumption.
    + right. exists pre. split; [| exact Hpre].
      unfold bind. rewrite H1. reflexivity.
Qed.

(** A part of [main] that calls no corrupter leaves their state alone. *)
Lemma lift_log_run {St A : Type} (m : M (list action) A) (l l' : list action)
    (st : St) (o : outcome A) :
  m l = (o, l') -> lift_log m (l, st) = (o, (l', st)).
Proof. intros H. unfold lift_log. simpl. rewrite H. reflexivity. Qed.

(** A call is recorded; how it ends and what it leaves are the
    corrupter's. *)
Lemma call_run {St A : Type} (a : action) (m : M St A) (l : list action) (st : St) :
  call a m (l, st) = (fst (m st), (l ++ [a], snd (m st))).
Proof. unfold call. simpl. destruct (m st). reflexivity. Qed.

Lemma bind_mret {S A : Type} (m : M S A) (s : S) :
  bind m (fun a => mret a) s = m s.
Proof. unfold bind, mret. destruct (m s) as [[a | | | | n] s']; reflexivity. Qed.

(** The block loop only ever calls [debug_corrupt_block]. *)
Lemma block_loop_run {St Eb : Type} (debug_corrupt_block : Z -> Z -> Z -> M St Eb)
    (fuel : nat) :
  forall (sectorsize logical bytes copy : Z) (l : list action) (st : St),
  exists o calls st',
    block_loop debug_corrupt_block fuel sectorsize logical bytes copy (l, st)
    = (o, (l ++ calls, st')) /\
    forallb is_block_call calls = true.
Proof.
  induction fuel as [|fuel IH]; intros s lg b c l st; simpl.
  - exists NoFuel, [], st. rewrite app_nil_r. auto.
  - destruct (b >? 0).
    + unfold bind at 1. rewrite call_run.
      destruct (debug_corrupt_block lg s c st) as [[eb | | | | n] st1]; simpl.
      * destruct (IH s (u64 (lg + s)) (u64 (b - s)) c
                     (l ++ [ActDebugCorruptBlock lg s c]) st1)
          as [o [calls [st' [H Hc]]]].
        exists o, (ActDebugCorruptBlock lg s c :: calls), st'.
        rewrite H, <- app_assoc. split; [reflexivity | exact Hc].
      * exists Bug, [ActDebugCorruptBlock lg s c], st1. auto.
      * exists Undef, [ActDebugCorruptBlock lg s c], st1. auto.
      * exists NoFuel, [ActDebugCorruptBlock lg s c], st1. auto.
      * exists (Exited n), [ActDebugCorruptBlock lg s c], st1. auto.
    + exists (Done tt), [], st. rewrite app_nil_r. auto.
Qed.

Lemma stderr_not_open (pre : list action) :
  Forall is_stderr pre -> ~ In ActOpenCtree (pre ++ [ActUsage]).
Proof.
  intros H Hin. apply in_app_or in Hin. destruct Hin as [Hin | [Hin | []]].
  - rewrite Forall_forall in H. destruct (H _ Hin) as [m Hm]. discriminate.
  - discriminate.
Qed.

Lemma stderr_not_extent (pre : list action) (b c : Z) :
  Forall is_stderr pre -> ~ In (ActCorruptExtent b c) (pre ++ [ActUsage]).
Proof.
  intros H Hin. apply in_app_or in Hin. destruct Hin as [Hin | [Hin | []]].
  - rewrite Forall_forall in H. destruct (H _ Hin) as [m Hm]. discriminate.
  - discriminate.
Qed.

Lemma block_calls_not_extent (calls : list action) (b c : Z) :
  forallb is_block_call calls = true -> ~ In (ActCorruptExtent b c) calls.
Proof.
  intros H Hin. rewrite forallb_forall in H. specialize (H _ Hin). discriminate.
Qed.

(** ** [main] up to the call of a corrupter *)

(** The option loop ends the process: nothing else happens. *)
Lemma main_options_exit {St Eb : Type}
    (corrupt_extent : Z -> Z -> M St Z) (debug_corrupt_block : Z -> Z -> Z -> M St Eb)
    (fuel : nat) (garbage : Z) (opts : list option_char) (rest : Z)
    (open_ctree : option Z) (st : St) (n : Z) (acts : list action) :
  option_loop opts (initial_locals garbage) [] = (Exited n, acts) ->
  main corrupt_extent debug_corrupt_block fuel garbage opts rest open_ctree ([], st)
  = (Exited n, (acts, st)).
Proof.
  intros H. unfold main. fold (initial_locals garbage).
  unfold bind at 1. rewrite (lift_log_run _ _ _ _ _ H). reflexivity.
Qed.

(** The option loop comes through with the locals [v]: the three checks
    of lines 222-227, [open_ctree], and then one of the two corrupters. *)
Lemma main_after_options {St Eb : Type}
    (corrupt_extent : Z -> Z -> M St Z) (debug_corrupt_block : Z -> Z -> Z -> M St Eb)
    (fuel : nat) (garbage : Z) (opts : list option_char) (rest : Z)
    (open_ctree : option Z) (st : St) (v : locals) :
  option_loop opts (initial_locals garbage) [] = (Done v, []) ->
  main corrupt_extent debug_corrupt_block fuel garbage opts rest open_ctree ([], st) =
  if rest =? 0 then (Exited 1, ([ActUsage], st))
  else if logical v =? 0 then (Exited 1, ([ActUsage], st))
  else if copy v <? 0 then (Exited 1, ([ActUsage], st))
  else
    match open_ctree with
    | None => (Exited 1, ([ActOpenCtree; ActStderr "Open ctree failed"], st))
    | Some sectorsize =>
        if negb (extent_rec v =? 0) then
          (fst (corrupt_extent (logical v) 0 st),
           ([ActOpenCtree; ActCorruptExtent (logical v) 0],
            snd (corrupt_extent (logical v) 0 st)))
        else if sectorsize =? 0 then (Undef, ([ActOpenCtree], st))
        else
          bind (block_loop debug_corrupt_block fuel sectorsize (logical v)
                  (u64 (u64 ((if bytes v =? 0 then sectorsize else bytes v)
                             + sectorsize - 1) / sectorsize * sectorsize))
                  (copy v))
               (fun _ => mret 0) ([ActOpenCtree], st)
    end.
Proof.
  intros H. unfold main. fold (initial_locals garbage).
  rewrite (bind_done _ _ _ _ _ (lift_log_run _ _ _ st _ H)).
  destruct (rest =? 0); [reflexivity|].
  destruct (logical v =? 0); [reflexivity|].
  destruct (copy v <? 0); [reflexivity|].
  unfold bind at 1 2 3 4. unfold lift_log at 1 2 3 4. unfold mret at 1 2 3.
  unfold act at 1. cbn [fst snd app].
  destruct open_ctree as [s|]; [|reflexivity].
  destruct (negb (extent_rec v =? 0)).
  - rewrite bind_mret, call_run. reflexivity.
  - destruct (s =? 0); reflexivity.
Qed.

(** ** The claims about [main] *)

(** C10.  Whatever the other options, the remaining arguments, the
    filesystem, the initial content of [extent_rec] and what the corrupters
    do: a command line without [-l] ends with the usage text and status 1,
    and [open_ctree] is not reached.  [corrupt_extent] is only ever called
    on a nonzero logical address, which is the value of a [-l] option. *)
Theorem main_needs_logical {St Eb : Type}
    (corrupt_extent : Z -> Z -> M St Z) (debug_corrupt_block : Z -> Z -> Z -> M St Eb)
    (fuel : nat) (garbage : Z) (opts : list option_char) (rest : Z)
    (open_ctree : option Z) (st : St) :
  exists o acts st',
    main corrupt_extent debug_corrupt_block fuel garbage opts rest open_ctree ([], st)
    = (o, (acts, st')) /\
    ((forall a, ~ In (Opt_l a) opts) ->
     o = Exited 1 /\ ~ In ActOpenCtree acts /\
     exists pre, acts = pre ++ [ActUsage] /\ Forall is_stderr pre) /\
    (forall b c, In (ActCorruptExtent b c) acts ->
                 b <> 0 /\ c = 0 /\ exists a, In (Opt_l a) opts /\ b = u64 a).
Proof.
  destruct (option_loop_run opts (initial_locals garbage) [])
    as [[v [Hloop Hl]] | [pre [Hloop Hpre]]].
  2: { exists (Exited 1), (pre ++ [ActUsage]), st.
       split; [exact (main_options_exit _ _ _ _ _ _ _ _ _ _ Hloop)|]. split.
       - intros _. split; [reflexivity|]. split; [apply stderr_not_open; exact Hpre|].
         exists pre. auto.
       - intros b c Hin. exfalso. exact (stderr_not_extent _ _ _ Hpre Hin). }
  rewrite (main_after_options _ _ _ _ _ _ _ _ _ Hloop). simpl in Hl.
  assert (Husage :
            exists o acts st',
              (Exited 1, ([ActUsage], st)) = (o : outcome Z, (acts, st')) /\
              ((forall a, ~ In (Opt_l a) opts) ->
               o = Exited 1 /\ ~ In ActOpenCtree acts /\
               exists pre, acts = pre ++ [ActUsage] /\ Forall is_stderr pre) /\
              (forall b c, In (ActCorruptExtent b c) acts ->
                           b <> 0 /\ c = 0 /\ exists a, In (Opt_l a) opts /\ b = u64 a)).
  { exists (Exited 1), [ActUsage], st.
    split; [reflexivity|]. split.
    - intros _. split; [reflexivity|]. split.
      + intros [H | []]; discriminate.
      + exists []. split; [reflexivity | constructor].
    - intros b c [H | []]; discriminate. }
  destruct (Z.eqb_spec rest 0) as [Hrest | Hrest]; [exact Husage|].
  destruct (Z.eqb_spec (logical v) 0) as [Hlog | Hlog]; [exact Husage|].
  destruct (Z.ltb_spec (copy v) 0) as [Hcopy | Hcopy]; [exact Husage|].
  clear Husage.
  assert (Hfrom : exists a, In (Opt_l a) opts /\ logical v = u64 a).
  { destruct Hl as [[E _] | [_ H]]; [simpl in E; congruence | exact H]. }
  assert (Hno : (forall a, ~ In (Opt_l a) opts) -> False).
  { intros H. destruct Hfrom as [a [Hin _]]. exact (H a Hin). }
  destruct open_ctree as [s|].
  - destruct (extent_rec v =? 0); cbn [negb].
    + destruct (s =? 0).
      * exists Undef, [ActOpenCtree], st. split; [reflexivity|].
        split; [intros H; destruct (Hno H)|].
        intros b c [H | []]; discriminate.
      * match goal with
        | |- context [block_loop _ fuel s ?lg ?b ?c] =>
            destruct (block_loop_run debug_corrupt_block fuel s lg b c [ActOpenCtree] st)
              as [o [calls [st' [H Hc]]]]
        end.
        exists (match o with Done _ => Done 0 | Bug => Bug | Undef => Undef
                        | NoFuel => NoFuel | Exited n => Exited n end),
               (ActOpenCtree :: calls), st'.
        split; [unfold bind; rewrite H; destruct o; reflexivity|].
        split; [intros H'; destruct (Hno H')|].
        intros b c [Hin | Hin]; [discriminate|].
        exfalso. exact (block_calls_not_extent _ _ _ Hc Hin).
    + eexists. eexists. eexists. split; [reflexivity|].
      split; [intros H; destruct (Hno H)|].
      intros b c [Hin | [Hin | []]]; [discriminate|].
      inversion Hin; subst. auto.
  - exists (Exited 1), [ActOpenCtree; ActStderr "Open ctree failed"], st.
    split; [reflexivity|].
    split; [intros H; destruct (Hno H)|].
    intros b c [Hin | [Hin | []]]; discriminate.
Qed.

(** [-e] and a device, no [-l], with corrupters that would stop the
    process if they were called. *)
Lemma main_needs_logical_witness :
  (forall a, ~ In (Opt_l a) [Opt_e]) /\
  exists o acts st',
    main (fun _ _ => BUG_ON true ;; mret 0) (fun _ _ _ => BUG_ON true)
         1 0 [Opt_e] 1 (Some 4096) ([], tt) = (o, (acts, st')) /\
    o = Exited 1 /\ ~ In ActOpenCtree acts.
Proof.
  assert (H : forall a, ~ In (Opt_l a) [Opt_e])
    by (intros a [H | []]; discriminate).
  split; [exact H|].
  destruct (main_needs_logical (fun _ _ => BUG_ON true ;; mret 0)
              (fun _ _ _ => BUG_ON true) 1 0 [Opt_e] 1 (Some 4096) tt)
    as [o [acts [st' [Hrun [Hu _]]]]].
  destruct (Hu H) as [Ho [Hopen _]].
  exists o, acts, st'. auto.
Defined.

Lemma block_calls_no_extent_call (calls : list action) :
  forallb is_block_call calls = true -> existsb is_extent_call calls = false.
Proof.
  induction calls as [|x calls IH]; simpl; [reflexivity|].
  intros H. apply andb_true_iff in H. destruct H as [Hx Hc].
  rewrite (IH Hc). destruct x; simpl in *; try discriminate; reflexivity.
Qed.

Lemma handle_option_extent_rec (c : option_char) (v v' : locals) (l l' : list action) :
  handle_option c v l = (Done v', l') ->
  extent_rec v' = if is_opt_e c then 1 else extent_rec v.
Proof.
  destruct c as [a | a | a | | ]; simpl.
  - destruct (u64 a =? 0); [unfold bind, act, print_usage; discriminate|].
    intros H; inversion H; reflexivity.
  - destruct (a =? 0); [unfold bind, act, print_usage; discriminate|].
    intros H; inversion H; reflexivity.
  - destruct (u64 a =? 0); [unfold bind, act, print_usage; discriminate|].
    intros H; inversion H; reflexivity.
  - intros H; inversion H; reflexivity.
  - unfold print_usage; discriminate.
Qed.

Lemma option_loop_extent_rec (opts : list option_char) :
  forall (v v' : locals) (l l' : list action),
    option_loop opts v l = (Done v', l') ->
    extent_rec v' = if existsb is_opt_e opts then 1 else extent_rec v.
Proof.
  induction opts as [|c opts IH]; intros v v' l l'; simpl.
  - intros H; inversion H; reflexivity.
  - unfold bind. destruct (handle_option c v l) as [[v1| | | |n] l1] eqn:H1;
      try discriminate.
    intros H. rewrite (IH _ _ _ _ H), (handle_option_extent_rec _ _ _ _ _ H1).
    destruct (is_opt_e c); simpl; [|reflexivity].
    destruct (existsb is_opt_e opts); reflexivity.
Qed.

(** Which operation [main] runs on a command line that passes the checks
    of lines 183-227, once the filesystem is open: [corrupt_extent] is called
    exactly when [-e] was given or [extent_rec] did not start at 0.  With
    [-e] the choice is settled; without it, it is left to the initial
    content of the variable. *)
Lemma main_selection {St Eb : Type}
    (corrupt_extent : Z -> Z -> M St Z) (debug_corrupt_block : Z -> Z -> Z -> M St Eb)
    (fuel : nat) (garbage : Z) (opts : list option_char) (rest sectorsize : Z)
    (v : locals) (st : St) :
  option_loop opts (initial_locals garbage) [] = (Done v, []) ->
  rest <> 0 -> logical v <> 0 -> 0 <= copy v ->
  exists o acts st',
    main corrupt_extent debug_corrupt_block fuel garbage opts rest (Some sectorsize)
         ([], st) = (o, (acts, st')) /\
    existsb is_extent_call acts = existsb is_opt_e opts || negb (garbage =? 0).
Proof.
  intros Hloop Hrest Hlog Hcopy.
  pose proof (option_loop_extent_rec _ _ _ _ _ Hloop) as Hrec. simpl in Hrec.
  rewrite (main_after_options _ _ _ _ _ _ _ _ _ Hloop).
  destruct (Z.eqb_spec rest 0) as [E|_]; [contradiction|].
  destruct (Z.eqb_spec (logical v) 0) as [E|_]; [contradiction|].
  destruct (Z.ltb_spec (copy v) 0) as [E|_]; [lia|].
  assert (Hsel : (extent_rec v =? 0) = negb (existsb is_opt_e opts || negb (garbage =? 0))).
  { rewrite Hrec. destruct (existsb is_opt_e opts); simpl; [reflexivity|].
    rewrite negb_involutive. reflexivity. }
  rewrite Hsel, negb_involutive.
  destruct (existsb is_opt_e opts || negb (garbage =? 0)).
  - eexists. eexists. eexists. split; reflexivity.
  - destruct (sectorsize =? 0).
    + exists Undef, [ActOpenCtree], st. split; reflexivity.
    + match goal with
      | |- context [block_loop _ fuel sectorsize ?lg ?b ?c] =>
          destruct (block_loop_run debug_corrupt_block fuel sectorsize lg b c
                                   [ActOpenCtree] st)
            as [o [calls [st' [H Hc]]]]
      end.
      exists (match o with Done _ => Done 0 | Bug => Bug | Undef => Undef
                      | NoFuel => NoFuel | Exited n => Exited n end),
             (ActOpenCtree :: calls), st'.
      split; [unfold bind; rewrite H; destruct o; reflexivity|].
      simpl. apply block_calls_no_extent_call. exact Hc.
Qed.

(** C9 fails on the command line [-l 4096 <device>], which has no [-e]:
    [extent_rec] is read at line 239 without ever having been written, and
    which operation runs is decided by what the variable happened to hold.
    With 0 there [debug_corrupt_block] is called on the block, and [main]
    returns 0 when the call returns; with anything else [corrupt_extent] is
    called, and [main] ends as that call ends.  This holds whatever the two
    corrupters do. *)
Theorem main_selection_follows_garbage {St Eb : Type}
    (corrupt_extent : Z -> Z -> M St Z) (debug_corrupt_block : Z -> Z -> Z -> M St Eb)
    (st : St) :
  main corrupt_extent debug_corrupt_block 2 0 [Opt_l 4096] 1 (Some 4096) ([], st)
  = (match fst (debug_corrupt_block 4096 4096 0 st) with
     | Done _ => Done 0
     | Bug => Bug
     | Undef => Undef
     | NoFuel => NoFuel
     | Exited n => Exited n
     end,
     ([ActOpenCtree; ActDebugCorruptBlock 4096 4096 0],
      snd (debug_corrupt_block 4096 4096 0 st))) /\
  main corrupt_extent debug_corrupt_block 2 1 [Opt_l 4096] 1 (Some 4096) ([], st)
  = (fst (corrupt_extent 4096 0 st),
     ([ActOpenCtree; ActCorruptExtent 4096 0], snd (corrupt_extent 4096 0 st))).
Proof.
  split.
  - rewrite (main_after_options _ _ 2 0 [Opt_l 4096] 1 (Some 4096) st
               {| logical := 4096; copy := 0; bytes := 4096; extent_rec := 0 |} eq_refl).
    cbn [logical copy bytes extent_rec].
    cbn [Z.eqb Z.ltb Z.compare Pos.compare Pos.compare_cont negb Pos.eqb block_loop].
    change (u64 (u64 (4096 + 4096 - 1) / 4096 * 4096)) with 4096.
    change (u64 (4096 - 4096)) with 0.
    change (4096 >? 0) with true. change (0 >? 0) with false. cbv iota.
    unfold bind. rewrite call_run. cbn [fst snd app].
    destruct (debug_corrupt_block 4096 4096 0 st) as [[eb | | | | n] st1];
      reflexivity.
  - rewrite (main_after_options _ _ 2 1 [Opt_l 4096] 1 (Some 4096) st
               {| logical := 4096; copy := 0; bytes := 4096; extent_rec := 1 |} eq_refl).
    reflexivity.
Qed.

(** * Further properties of [corrupt_extent] *)

Import ExtentCorrupter ExtentSpec ExtentMore.

Lemma comp_keys_gt (a b : btrfs_key) :
  comp_keys a b = Gt <-> key_lt b a.
Proof.
  unfold key_lt. rewrite comp_keys_lt. unfold comp_keys.
  destruct (Z.compare_spec (objectid a) (objectid b));
    destruct (Z.compare_spec (type a) (type b));
    destruct (Z.compare_spec (offset a) (offset b));
    split; intros; try discriminate; try reflexivity; lia.
Qed.

Lemma comp_keys_le (a b : btrfs_key) :
  comp_keys a b <> Gt <->
  objectid a < objectid b \/
  (objectid a = objectid b /\
   (type a < type b \/ (type a = type b /\ offset a <= offset b))).
Proof.
  destruct (comp_keys a b) eqn:E.
  - apply comp_keys_eq in E. split; [lia | discriminate].
  - apply comp_keys_lt in E. split; [lia | discriminate].
  - apply comp_keys_gt in E. unfold key_lt in E. rewrite comp_keys_lt in E.
    split; [congruence | lia].
Qed.

Lemma keys_zero_slot (l : list btrfs_item) (n : nat) :
  keys (zero_slot l n) = keys l.
Proof.
  unfold keys. revert n. induction l as [|x l IH]; intros [|n]; simpl; try reflexivity.
  rewrite IH. reflexivity.
Qed.

Lemma keys_after (fs : fs_info) (v : visit) :
  keys (leaf_items (fs_after fs v)) = keys (leaf_items fs).
Proof.
  destruct v; simpl; try reflexivity. unfold leaf_items; simpl. apply keys_zero_slot.
Qed.

Lemma keys_nth (l : list btrfs_item) (i : nat) (it : btrfs_item) :
  nth_error l i = Some it -> nth_error (keys l) i = Some (key it).
Proof. intros H. unfold keys. rewrite nth_error_map, H. reflexivity. Qed.

Lemma strongly_sorted_nth {A : Type} (R : A -> A -> Prop) (l : list A) :
  StronglySorted R l ->
  forall i j a b, (i < j)%nat ->
    nth_error l i = Some a -> nth_error l j = Some b -> R a b.
Proof.
  induction 1 as [|x l Hs IH Hall]; intros i j a b Hij Hi Hj.
  - destruct i; discriminate.
  - destruct j as [|j]; [lia|]. simpl in Hj.
    destruct i as [|i]; simpl in Hi.
    + inversion Hi; subst. rewrite Forall_forall in Hall.
      apply Hall. eapply nth_error_In; eauto.
    + apply (IH i j); auto. lia.
Qed.

Lemma sorted_leaf_nth (l : list btrfs_item) (i j : nat) (a b : btrfs_item) :
  sorted_leaf l -> (i < j)%nat ->
  nth_error l i = Some a -> nth_error l j = Some b -> key_lt (key a) (key b).
Proof.
  intros Hs Hij Ha Hb.
  exact (strongly_sorted_nth key_lt (keys l) Hs i j _ _ Hij (keys_nth _ _ _ Ha)
           (keys_nth _ _ _ Hb)).
Qed.

(** In a sorted leaf the slot the scan settles on is the last one whose
    key is not above the key searched for. *)
Lemma found_sorted_max (l : list btrfs_item) (k : btrfs_key) (j : nat) :
  sorted_leaf l -> found l k = Some j ->
  forall i it, nth_error l i = Some it -> comp_keys (key it) k <> Gt -> (i <= j)%nat.
Proof.
  intros Hs Hf i it Hi Hle.
  destruct (Nat.le_gt_cases i j) as [?|Hgt]; [assumption|]. exfalso.
  unfold found in Hf. destruct (bin_search l k) as [r s] eqn:E.
  destruct (bin_search_spec l k r s E) as [_ Hat].
  destruct Hat as [[-> [x [Hx Hc]]] | [-> Hs']]; simpl in Hf.
  - inversion Hf; subst s.
    pose proof (sorted_leaf_nth _ _ _ _ _ Hs Hgt Hx Hi) as Hlt.
    apply Hle. apply comp_keys_gt. apply comp_keys_eq in Hc.
    unfold key_lt in *. rewrite comp_keys_lt in *. lia.
  - destruct s as [|s]; simpl in Hf; [discriminate|]. inversion Hf; subst s.
    destruct Hs' as [Hlen | [x [Hx Hc]]].
    + assert (i < length l)%nat by (apply nth_error_Some; congruence). lia.
    + apply comp_keys_gt in Hc.
      destruct (Nat.eq_dec i (S j)) as [->|Hne].
      * rewrite Hi in Hx. inversion Hx; subst x.
        apply Hle. apply comp_keys_gt. exact Hc.
      * assert (Hlt : key_lt (key x) (key it))
          by (apply (sorted_leaf_nth l (S j) i); auto; lia).
        apply Hle. apply comp_keys_gt. eapply key_lt_trans; eauto.
Qed.

Lemma found_sorted_none (l : list btrfs_item) (k : btrfs_key) :
  sorted_leaf l -> found l k = None ->
  forall i it, nth_error l i = Some it -> key_lt k (key it).
Proof.
  intros Hs Hf i it Hi.
  unfold found in Hf. destruct (bin_search l k) as [r s] eqn:E.
  destruct (bin_search_spec l k r s E) as [_ Hat].
  destruct Hat as [[-> _] | [-> Hs']]; simpl in Hf; [discriminate|].
  destruct s as [|s]; simpl in Hf; [|discriminate].
  destruct Hs' as [Hlen | [x [Hx Hc]]].
  - assert (i < length l)%nat by (apply nth_error_Some; congruence). lia.
  - apply comp_keys_gt in Hc. destruct i as [|i].
    + rewrite Hi in Hx. inversion Hx; subst. exact Hc.
    + eapply key_lt_trans; [exact Hc|].
      apply (sorted_leaf_nth l 0 (S i)); auto. lia.
Qed.

(** The slot of an item that is not above the key, with every later item
    above it, is the slot the scan settles on. *)
Lemma found_sorted_intro (l : list btrfs_item) (k : btrfs_key) (j : nat)
    (it : btrfs_item) :
  sorted_leaf l ->
  nth_error l j = Some it -> comp_keys (key it) k <> Gt ->
  (forall i x, (j < i)%nat -> nth_error l i = Some x -> key_lt k (key x)) ->
  found l k = Some j.
Proof.
  intros Hs Hj Hle Hlater.
  destruct (found l k) as [j'|] eqn:F.
  - pose proof (found_sorted_max _ _ _ Hs F j it Hj Hle) as Hjj.
    destruct (found_some _ _ _ F) as [x [Hx Hxle]].
    destruct (Nat.eq_dec j j') as [->|Hne]; [reflexivity|].
    exfalso. apply Hxle. apply comp_keys_gt. apply (Hlater j'); auto. lia.
  - exfalso. apply Hle. apply comp_keys_gt.
    exact (found_sorted_none _ _ Hs F j it Hj).
Qed.

Lemma first_key_above (bytenr : Z) (k : btrfs_key) :
  valid_key k -> objectid k = bytenr -> comp_keys k (first_key bytenr) <> Gt.
Proof.
  intros [_ [Ht Ho]] Hobj. apply comp_keys_le. unfold first_key; simpl.
  change (u8 (-1)) with 255. change (u64 (-1)) with 18446744073709551615.
  change (2 ^ 8) with 256 in Ht. change (2 ^ 64) with 18446744073709551616 in Ho.
  lia.
Qed.

Lemma no_fault_after (fs : fs_info) (v : visit) :
  search_faults fs = [] -> search_faults (fs_after fs v) = [].
Proof. intros H. simpl. rewrite H. reflexivity. Qed.

(** On a sorted leaf without search errors where every item of [bytenr]
    has an offset of 2 or more, a scan from [k] zeroes every item of
    [bytenr] that is not above [k] and passes the type test. *)
Lemma scan_complete (bytenr : Z) (k : btrfs_key) (fs fs' : fs_info) (vs : list visit) :
  scan bytenr k fs vs fs' ->
  sorted_leaf (leaf_items fs) -> valid_leaf (leaf_items fs) ->
  search_faults fs = [] -> objectid k = bytenr ->
  Forall (fun x => objectid x = bytenr -> 2 <= offset x) (keys (leaf_items fs)) ->
  forall i it,
    nth_error (leaf_items fs) i = Some it ->
    objectid (key it) = bytenr ->
    comp_keys (key it) k <> Gt ->
    not_extent_ref (type (key it)) = false ->
    zeroed_in vs i = true.
Proof.
  induction 1 as [k fs v Hp Hc | k fs v vs fs' Hp Hc Hs IH];
    intros Hsorted Hvalid Hnf Hk Hoff i it Hi Hobj Hle Hty.
  - exfalso.
    assert (Hoff' : forall slot x, nth_error (leaf_items fs) slot = Some x ->
                                   objectid (key x) = bytenr -> 2 <= offset (key x)).
    { intros slot x Hx. rewrite Forall_forall in Hoff. apply Hoff.
      eapply nth_error_In. apply keys_nth. exact Hx. }
    destruct Hp as [Hf | Hf Hfound | slot x Hf Hfound Hx Hxobj
                    | slot x Hf Hfound Hx Hxobj Hxty | slot x Hf Hfound Hx Hxobj Hxty].
    + unfold fault in Hf. rewrite Hnf in Hf. lia.
    + apply Hle. apply comp_keys_gt. exact (found_sorted_none _ _ Hsorted Hfound i it Hi).
    + pose proof (found_sorted_max _ _ _ Hsorted Hfound i it Hi Hle) as Hij.
      destruct (found_some _ _ _ Hfound) as [x' [Hx' Hxle]].
      rewrite Hx in Hx'. inversion Hx'; subst x'.
      destruct (Nat.eq_dec i slot) as [->|Hne].
      * rewrite Hi in Hx. inversion Hx; subst. contradiction.
      * assert (Hlt : key_lt (key it) (key x))
          by (apply (sorted_leaf_nth (leaf_items fs) i slot it x); auto; lia).
        apply comp_keys_le in Hxle. unfold key_lt in Hlt. rewrite comp_keys_lt in Hlt.
        lia.
    + simpl in Hc. pose proof (Hoff' _ _ Hx Hxobj) as H2.
      rewrite step_offset_eq in Hc by lia. simpl in Hc.
      destruct (Z.leb_spec (offset (key x)) 1); [lia | discriminate].
    + simpl in Hc. pose proof (Hoff' _ _ Hx Hxobj) as H2.
      rewrite step_offset_eq in Hc by lia. simpl in Hc.
      destruct (Z.leb_spec (offset (key x)) 1); [lia | discriminate].
  - destruct (leaves v) as [c k'] eqn:L. simpl in Hc, Hs, IH. subst c.
    destruct (pass_continue _ _ _ _ _ Hvalid Hp L)
      as [slot [x [Hfound [Hx [Hxobj [Hk' [H2 [Hlt _]]]]]]]].
    pose proof (found_sorted_max _ _ _ Hsorted Hfound i it Hi Hle) as Hij.
    unfold zeroed_in. simpl. fold (zeroed_in vs i).
    destruct (Nat.eq_dec i slot) as [->|Hne].
    + rewrite Hi in Hx. inversion Hx; subst x.
      destruct Hp as [ | | | s y Hf Hfd Hy Hyobj Hyty | s y Hf Hfd Hy Hyobj Hyty];
        simpl in L; try discriminate.
      * rewrite Hfound in Hfd. inversion Hfd; subst s.
        rewrite Hi in Hy. inversion Hy; subst y. congruence.
      * rewrite Hfound in Hfd. inversion Hfd; subst s.
        simpl. rewrite Nat.eqb_refl. reflexivity.
    + assert (Hz : zeroes i v = false).
      { destruct Hp as [ | | | s y Hf Hfd Hy Hyobj Hyty | s y Hf Hfd Hy Hyobj Hyty];
          simpl; try reflexivity.
        rewrite Hfound in Hfd. inversion Hfd; subst s.
        apply Nat.eqb_neq. congruence. }
      rewrite Hz. simpl.
      apply IH with (it := it).
      * unfold sorted_leaf. rewrite keys_after. exact Hsorted.
      * exact (valid_leaf_after fs v Hvalid).
      * exact (no_fault_after fs v Hnf).
      * rewrite Hk'. simpl. exact Hxobj.
      * rewrite keys_after. exact Hoff.
      * rewrite (nth_error_after fs v i it Hi), Hz. reflexivity.
      * exact Hobj.
      * assert (Hlt' : key_lt (key it) (key x))
          by (apply (sorted_leaf_nth (leaf_items fs) i slot it x); auto; lia).
        rewrite Hk'. apply comp_keys_le. unfold set_offset; simpl.
        unfold key_lt in Hlt'. rewrite comp_keys_lt in Hlt'. lia.
      * exact Hty.
Qed.

Lemma nth_error_same_lists {A : Type} (l l' : list A) :
  (forall n, nth_error l n = nth_error l' n) -> l = l'.
Proof.
  revert l'. induction l as [|x l IH]; intros [|y l'] H.
  - reflexivity.
  - specialize (H 0%nat). discriminate.
  - specialize (H 0%nat). discriminate.
  - pose proof (H 0%nat) as H0. simpl in H0. inversion H0; subst.
    f_equal. apply IH. intros n. exact (H (S n)).
Qed.

(** X1.  On a sorted leaf, without search errors, where every item of
    [bytenr] has an offset of 2 or more, [corrupt_extent] leaves the leaf in
    which every item of [bytenr] with one of the six types is zeroed and
    every other item is what it was: no extent-reference record of the
    extent is missed.  That leaf is the image when the commit goes through;
    when it does not, the image stays as it was. *)
Theorem corrupt_extent_complete (fuel : nat) (bytenr copy : Z) (fs : fs_info) :
  sorted_leaf (leaf_items fs) ->
  valid_leaf (leaf_items fs) ->
  search_faults fs = [] ->
  (forall it, In it (leaf_items fs) -> objectid (key it) = bytenr ->
              2 <= offset (key it)) ->
  (length (leaf_items fs) < fuel)%nat ->
  exists o fs',
    corrupt_extent fuel bytenr copy fs = (o, fs') /\
    leaf_items fs' = map (corrupted bytenr) (leaf_items fs) /\
    committed fs' = (if commit_ret fs =? 0 then map (corrupted bytenr) (leaf_items fs)
                     else committed fs).
Proof.
  intros Hsorted Hvalid Hnf Hoff Hfuel.
  destruct (corrupt_extent_scan fuel bytenr copy fs Hvalid Hfuel) as [vs [fs1 [Hs Hrun]]].
  eexists. eexists. split; [exact Hrun|].
  assert (Hleaf : leaf_items (finished fs1) = map (corrupted bytenr) (leaf_items fs));
    [| split; [exact Hleaf | rewrite <- Hleaf; exact (finished_image _ _ _ _ _ Hs)]].
  rewrite leaf_items_finished.
  apply nth_error_same_lists. intros n.
  rewrite nth_error_map.
  destruct (nth_error (leaf_items fs) n) as [it|] eqn:Hn.
  - change (leaf_items fs) with (leaf_items (started fs)) in Hn.
    rewrite (scan_items _ _ _ _ _ Hs n it Hn). simpl. f_equal.
    unfold corrupted.
    destruct (zeroed_in vs n) eqn:Hz.
    + destruct (zeroed_in_ok _ _ _ _ _ _ _ Hs Hn Hz) as [Hobj Hty].
      apply not_extent_ref_kinds in Hty.
      apply Z.eqb_eq in Hobj. rewrite Hobj, Hty. reflexivity.
    + destruct (Z.eqb_spec (objectid (key it)) bytenr) as [Hobj|Hobj]; [|reflexivity].
      destruct (not_extent_ref (type (key it))) eqn:Hty; [reflexivity|].
      exfalso.
      assert (Hz' : zeroed_in vs n = true).
      { apply (scan_complete _ _ _ _ _ Hs) with (it := it); auto.
        - rewrite Forall_forall. intros x Hx Hxobj.
          unfold keys in Hx. apply in_map_iff in Hx. destruct Hx as [y [<- Hy]].
          apply Hoff; assumption.
        - apply first_key_above; [| exact Hobj].
          exact (valid_leaf_nth _ _ _ Hvalid Hn). }
      congruence.
  - simpl. apply nth_error_None. apply nth_error_None in Hn.
    rewrite (scan_length _ _ _ _ _ Hs). exact Hn.
Qed.

Lemma data_tree_valid : valid_leaf data_tree.
Proof.
  unfold valid_leaf, data_tree.
  repeat (apply Forall_cons; [cbv; repeat split; discriminate|]). apply Forall_nil.
Qed.

Lemma data_tree_sorted : sorted_leaf data_tree.
Proof.
  unfold sorted_leaf, data_tree, keys. simpl.
  repeat (apply SSorted_cons; [| repeat (apply Forall_cons; [reflexivity|]); apply Forall_nil]).
  apply SSorted_nil.
Qed.

(** The data extent at 8192: its three records are zeroed, its two
    neighbours are not. *)
Lemma corrupt_extent_complete_witness :
  sorted_leaf (leaf_items (fresh_fs data_tree)) /\
  valid_leaf (leaf_items (fresh_fs data_tree)) /\
  (length (leaf_items (fresh_fs data_tree)) < 6)%nat /\
  exists o fs',
    corrupt_extent 6 8192 0 (fresh_fs data_tree) = (o, fs') /\
    committed fs' =
    [ item 4096 BTRFS_EXTENT_ITEM_KEY 4096 [Byte.x11];
      item 8192 BTRFS_EXTENT_ITEM_KEY 8192 [Byte.x00; Byte.x00];
      item 8192 BTRFS_EXTENT_DATA_REF_KEY 77 [Byte.x00; Byte.x00; Byte.x00];
      item 8192 BTRFS_SHARED_DATA_REF_KEY 16384 [Byte.x00];
      item 16384 BTRFS_EXTENT_ITEM_KEY 4096 [Byte.x51] ].
Proof.
  split; [exact data_tree_sorted|]. split; [exact data_tree_valid|].
  split; [simpl; lia|].
  destruct (corrupt_extent_complete 6 8192 0 (fresh_fs data_tree)
              data_tree_sorted data_tree_valid eq_refl)
    as [o [fs' [Hrun [_ Hc]]]].
  - intros it Hin Hobj. simpl in Hin.
    repeat (destruct Hin as [<- | Hin]; [simpl in *; lia|]). contradiction.
  - simpl; lia.
  - exists o, fs'. split; [exact Hrun|]. rewrite Hc. reflexivity.
Defined.

(** X2.  When no item of the leaf belongs to [bytenr], [corrupt_extent]
    makes one search, zeroes nothing and commits the leaf as it was: on a
    handle with nothing staged the image is what it was, whatever the commit
    answers. *)
Theorem corrupt_extent_no_record (fuel : nat) (bytenr copy : Z) (fs : fs_info) :
  valid_leaf (leaf_items fs) ->
  (length (leaf_items fs) < fuel)%nat ->
  (forall it, In it (leaf_items fs) -> objectid (key it) <> bytenr) ->
  exists o fs' evs,
    corrupt_extent fuel bytenr copy fs = (o, fs') /\
    leaf_items fs' = leaf_items fs /\
    log fs' = log fs ++ EvStartTransaction :: evs
                     ++ [EvFreePath; EvCommit; EvCloseCtree (close_ret fs)] /\
    searched evs = [first_key bytenr] /\
    (forall slot n, ~ In (EvMemset slot n) evs) /\
    committed fs' = (if commit_ret fs =? 0 then leaf_items fs else committed fs) /\
    (committed fs = leaf_items fs -> committed fs' = leaf_items fs).
Proof.
  intros Hvalid Hfuel Hnone.
  destruct (corrupt_extent_scan fuel bytenr copy fs Hvalid Hfuel) as [vs [fs1 [Hs Hrun]]].
  pose proof (finished_image _ _ _ _ _ Hs) as Himage.
  rewrite leaf_items_finished in Himage.
  assert (Hitem : forall slot x, nth_error (leaf_items (started fs)) slot = Some x ->
                                 objectid (key x) <> bytenr).
  { intros slot x Hx. apply Hnone. eapply nth_error_In. exact Hx. }
  inversion Hs as [k fs0 v Hp Hc | k fs0 v vs' fs0' Hp Hc Hs']; subst.
  - exists (if close_ret (fs_after (started fs) v) =? 0 then Done 0 else Bug),
           (finished (fs_after (started fs) v)), (events_of v).
    split; [exact Hrun|].
    destruct Hp as [Hf | Hf Hfound | slot x Hf Hfound Hx Hxobj
                    | slot x Hf Hfound Hx Hxobj Hxty | slot x Hf Hfound Hx Hxobj Hxty];
      try (exfalso; exact (Hitem _ _ Hx Hxobj));
      (split; [rewrite leaf_items_finished; reflexivity|]);
      (split; [simpl; rewrite <- !app_assoc; reflexivity|]);
      (split; [reflexivity|]);
      (split; [intros slot' n Hin; simpl in Hin;
               repeat (destruct Hin as [Hin | Hin]; [discriminate|]); contradiction|]);
      (split; [exact Himage|]);
      intros Hfresh; rewrite Himage, Hfresh;
      destruct (commit_ret fs =? 0); reflexivity.
  - exfalso. destruct (leaves v) as [c k'] eqn:L. simpl in Hc. subst c.
    destruct (pass_continue bytenr _ _ (started fs) v Hvalid Hp L)
      as [slot [x [_ [Hx [Hxobj _]]]]].
    exact (Hitem _ _ Hx Hxobj).
Qed.

Lemma corrupt_extent_no_record_witness :
  valid_leaf (leaf_items (fresh_fs data_tree)) /\
  (length (leaf_items (fresh_fs data_tree)) < 6)%nat /\
  exists o fs',
    corrupt_extent 6 12288 0 (fresh_fs data_tree) = (o, fs') /\
    committed fs' = data_tree.
Proof.
  split; [exact data_tree_valid|]. split; [simpl; lia|].
  destruct (corrupt_extent_no_record 6 12288 0 (fresh_fs data_tree) data_tree_valid)
    as [o [fs' [evs [Hrun [_ [_ [_ [_ [_ Hc]]]]]]]]].
  - simpl; lia.
  - intros it Hin. simpl in Hin.
    repeat (destruct Hin as [<- | Hin]; [simpl; lia|]). contradiction.
  - exists o, fs'. split; [exact Hrun | exact (Hc eq_refl)].
Defined.

Lemma scan_first (bytenr : Z) (k : btrfs_key) (fs fs' : fs_info) (vs : list visit) :
  scan bytenr k fs vs fs' ->
  exists v,
    pass bytenr k fs v /\
    ((fst (leaves v) = Break /\ vs = [v] /\ fs' = fs_after fs v) \/
     (fst (leaves v) = Continue /\
      exists vs', vs = v :: vs' /\
                  scan bytenr (snd (leaves v)) (fs_after fs v) vs' fs')).
Proof.
  destruct 1 as [k fs v Hp Hc | k fs v vs fs' Hp Hc Hs]; exists v; split; auto.
  right. split; [exact Hc|]. exists vs. auto.
Qed.

(** X3.  On a sorted leaf without search errors, when the last item of
    [bytenr] has offset 0 or 1 the scan ends with it: [corrupt_extent] makes
    one search, zeroes that item when it passes the type test, and leaves
    every other item as it was, the items of [bytenr] in front of it
    included.  The leaf it leaves is the image when the commit goes through;
    when it does not, the image stays as it was. *)
Theorem corrupt_extent_stops_at_low_offset
    (fuel : nat) (bytenr copy : Z) (fs : fs_info) (j : nat) (it : btrfs_item) :
  sorted_leaf (leaf_items fs) ->
  valid_leaf (leaf_items fs) ->
  search_faults fs = [] ->
  nth_error (leaf_items fs) j = Some it ->
  objectid (key it) = bytenr ->
  (forall i x, (j < i)%nat -> nth_error (leaf_items fs) i = Some x ->
               bytenr < objectid (key x)) ->
  offset (key it) <= 1 ->
  (length (leaf_items fs) < fuel)%nat ->
  exists o fs' evs,
    corrupt_extent fuel bytenr copy fs = (o, fs') /\
    leaf_items fs' = (if not_extent_ref (type (key it)) then leaf_items fs
                      else zero_slot (leaf_items fs) j) /\
    log fs' = log fs ++ EvStartTransaction :: evs
                     ++ [EvFreePath; EvCommit; EvCloseCtree (close_ret fs)] /\
    searched evs = [first_key bytenr] /\
    committed fs' = (if commit_ret fs =? 0 then leaf_items fs' else committed fs).
Proof.
  intros Hsorted Hvalid Hnf Hj Hobj Hlast Hoff Hfuel.
  destruct (corrupt_extent_scan fuel bytenr copy fs Hvalid Hfuel) as [vs [fs1 [Hs Hrun]]].
  pose proof (finished_image _ _ _ _ _ Hs) as Himage.
  assert (Hfound : found (leaf_items (started fs)) (first_key bytenr) = Some j).
  { apply found_sorted_intro with (it := it); auto.
    - apply first_key_above; [| exact Hobj]. exact (valid_leaf_nth _ _ _ Hvalid Hj).
    - intros i x Hi Hx. pose proof (Hlast i x Hi Hx) as Hgt.
      unfold key_lt. apply comp_keys_lt. simpl. lia. }
  destruct (scan_first _ _ _ _ _ Hs) as [v [Hp [[Hc [Evs Efs]] | [Hc _]]]].
  - rewrite Efs in Hrun, Himage.
    exists (if close_ret (fs_after (started fs) v) =? 0 then Done 0 else Bug),
           (finished (fs_after (started fs) v)), (events_of v).
    split; [exact Hrun|].
    destruct Hp as [Hf | Hf Hfd | slot x Hf Hfd Hx Hxobj
                    | slot x Hf Hfd Hx Hxobj Hxty | slot x Hf Hfd Hx Hxobj Hxty].
    + exfalso. unfold fault in Hf. simpl in Hf. rewrite Hnf in Hf. lia.
    + congruence.
    + exfalso. rewrite Hfound in Hfd. inversion Hfd; subst slot.
      change (leaf_items (started fs)) with (leaf_items fs) in Hx.
      rewrite Hj in Hx. inversion Hx; subst x. contradiction.
    + rewrite Hfound in Hfd. inversion Hfd; subst slot.
      change (leaf_items (started fs)) with (leaf_items fs) in Hx.
      rewrite Hj in Hx. inversion Hx; subst x. rewrite Hxty.
      split; [rewrite leaf_items_finished; reflexivity|].
      split; [simpl; rewrite <- !app_assoc; reflexivity|].
      split; [reflexivity | exact Himage].
    + rewrite Hfound in Hfd. inversion Hfd; subst slot.
      change (leaf_items (started fs)) with (leaf_items fs) in Hx.
      rewrite Hj in Hx. inversion Hx; subst x. rewrite Hxty.
      split; [rewrite leaf_items_finished; reflexivity|].
      split; [simpl; rewrite <- !app_assoc; reflexivity|].
      split; [reflexivity | exact Himage].
  - exfalso. destruct (leaves v) as [c k'] eqn:L. simpl in Hc. subst c.
    destruct (pass_continue bytenr _ _ (started fs) v Hvalid Hp L)
      as [slot [x [Hfd [Hx [_ [_ [H2 _]]]]]]].
    rewrite Hfound in Hfd. inversion Hfd; subst slot.
    change (leaf_items (started fs)) with (leaf_items fs) in Hx.
    rewrite Hj in Hx. inversion Hx; subst x. lia.
Qed.

Lemma root_tree_sorted : sorted_leaf root_tree.
Proof.
  unfold sorted_leaf, root_tree, keys. simpl.
  repeat (apply SSorted_cons; [| repeat (apply Forall_cons; [reflexivity|]); apply Forall_nil]).
  apply SSorted_nil.
Qed.

(** The tree block referenced by tree 1: its extent item stays as it was. *)
Lemma corrupt_extent_stops_at_low_offset_witness :
  sorted_leaf (leaf_items (fresh_fs root_tree)) /\
  valid_leaf (leaf_items (fresh_fs root_tree)) /\
  nth_error (leaf_items (fresh_fs root_tree)) 1
  = Some (item 8192 BTRFS_TREE_BLOCK_REF_KEY 1 [Byte.x31]) /\
  exists o fs',
    corrupt_extent 3 8192 0 (fresh_fs root_tree) = (o, fs') /\
    committed fs' =
    [ item 8192 BTRFS_EXTENT_ITEM_KEY 4096 [Byte.x21; Byte.x22; Byte.x23];
      item 8192 BTRFS_TREE_BLOCK_REF_KEY 1 [Byte.x00] ].
Proof.
  split; [exact root_tree_sorted|]. split; [exact root_tree_valid|].
  split; [reflexivity|].
  destruct (corrupt_extent_stops_at_low_offset 3 8192 0 (fresh_fs root_tree) 1
              (item 8192 BTRFS_TREE_BLOCK_REF_KEY 1 [Byte.x31])
              root_tree_sorted root_tree_valid eq_refl eq_refl eq_refl)
    as [o [fs' [evs [Hrun [Hc [_ [_ Himage]]]]]]].
  - intros i x Hi Hx. exfalso.
    assert (H : (i < length root_tree)%nat).
    { apply nth_error_Some. intros Hn.
      change (leaf_items (fresh_fs root_tree)) with root_tree in Hx. congruence. }
    simpl in H. lia.
  - simpl; lia.
  - simpl; lia.
  - exists o, fs'. split; [exact Hrun|]. simpl in Himage. rewrite Himage. exact Hc.
Defined.

Lemma scan_searched_length (bytenr : Z) (k : btrfs_key) (fs fs' : fs_info)
    (vs : list visit) :
  scan bytenr k fs vs fs' -> length (searched (scan_events vs)) = length vs.
Proof.
  induction 1 as [k fs v Hp Hc | k fs v vs fs' Hp Hc Hs IH]; unfold scan_events; simpl.
  - rewrite app_nil_r, (pass_searched _ _ _ _ Hp). reflexivity.
  - rewrite searched_app, (pass_searched _ _ _ _ Hp). simpl.
    fold (scan_events vs). rewrite IH. reflexivity.
Qed.

Lemma scan_length_bound (bytenr : Z) (k : btrfs_key) (fs fs' : fs_info)
    (vs : list visit) :
  scan bytenr k fs vs fs' ->
  valid_leaf (leaf_items fs) ->
  (length vs <= match found (leaf_items fs) k with
                | None => 1
                | Some j => S (S j)
                end)%nat.
Proof.
  induction 1 as [k fs v Hp Hc | k fs v vs fs' Hp Hc Hs IH]; intros Hvalid.
  - simpl. destruct (found (leaf_items fs) k); lia.
  - destruct (leaves v) as [c k'] eqn:L. simpl in Hc, Hs, IH. subst c.
    destruct (pass_continue _ _ _ _ _ Hvalid Hp L)
      as [slot [x [Hfound [Hx [_ [_ [_ [Hlt Hsame]]]]]]]].
    specialize (IH (valid_leaf_after fs v Hvalid)).
    rewrite Hsame in IH. rewrite Hfound.
    pose proof (found_decreases _ _ _ _ Hx Hlt) as Hd.
    simpl. destruct (found (leaf_items fs) k'); lia.
Qed.

(** X4.  [corrupt_extent] makes at most one search more than the leaf has
    items, whatever the keys and whatever the searches answer. *)
Theorem corrupt_extent_search_bound (fuel : nat) (bytenr copy : Z) (fs : fs_info) :
  valid_leaf (leaf_items fs) ->
  (length (leaf_items fs) < fuel)%nat ->
  exists o fs' evs,
    corrupt_extent fuel bytenr copy fs = (o, fs') /\
    log fs' = log fs ++ EvStartTransaction :: evs
                     ++ [EvFreePath; EvCommit; EvCloseCtree (close_ret fs)] /\
    (length (searched evs) <= S (length (leaf_items fs)))%nat.
Proof.
  intros Hvalid Hfuel.
  destruct (corrupt_extent_scan fuel bytenr copy fs Hvalid Hfuel) as [vs [fs1 [Hs Hrun]]].
  exists (if close_ret fs1 =? 0 then Done 0 else Bug), (finished fs1), (scan_events vs).
  split; [exact Hrun|]. split.
  { simpl. rewrite (scan_log _ _ _ _ _ Hs), (scan_close_ret _ _ _ _ _ Hs). simpl.
    rewrite <- !app_assoc. reflexivity. }
  rewrite (scan_searched_length _ _ _ _ _ Hs).
  pose proof (scan_length_bound _ _ _ _ _ Hs Hvalid) as Hb.
  change (leaf_items (started fs)) with (leaf_items fs) in Hb.
  destruct (found (leaf_items fs) (first_key bytenr)) as [j|] eqn:F; [|lia].
  apply found_bound in F. lia.
Qed.

Lemma corrupt_extent_search_bound_witness :
  valid_leaf (leaf_items (fresh_fs data_tree)) /\
  (length (leaf_items (fresh_fs data_tree)) < 6)%nat /\
  exists o fs' evs,
    corrupt_extent 6 8192 0 (fresh_fs data_tree) = (o, fs') /\
    log fs' = EvStartTransaction :: evs ++ [EvFreePath; EvCommit; EvCloseCtree 0] /\
    (length (searched evs) <= 6)%nat.
Proof.
  split; [exact data_tree_valid|]. split; [simpl; lia|].
  destruct (corrupt_extent_search_bound 6 8192 0 (fresh_fs data_tree) data_tree_valid)
    as [o [fs' [evs [Hrun [Hlog Hb]]]]]; [simpl; lia|].
  exists o, fs', evs. split; [exact Hrun|]. split; [exact Hlog | exact Hb].
Defined.

(** X5.  [corrupt_extent] returns 0 exactly when [close_ctree] answers 0
    and stops on the [BUG_ON] of line 166 otherwise, whatever the commit
    answered: [btrfs_commit_transaction] is called just before
    [close_ctree] and its answer is dropped (line 164).  The image is the
    staged leaf when the commit went through; when it did not, the image
    stays as it was and the function returns 0 all the same. *)
Theorem corrupt_extent_result (fuel : nat) (bytenr copy : Z) (fs : fs_info) :
  valid_leaf (leaf_items fs) ->
  (length (leaf_items fs) < fuel)%nat ->
  exists fs' pre,
    corrupt_extent fuel bytenr copy fs
    = ((if close_ret fs =? 0 then Done 0 else Bug), fs') /\
    log fs' = pre ++ [EvCommit; EvCloseCtree (close_ret fs)] /\
    committed fs' = (if commit_ret fs =? 0 then leaf_items fs' else committed fs).
Proof.
  intros Hvalid Hfuel.
  destruct (corrupt_extent_scan fuel bytenr copy fs Hvalid Hfuel) as [vs [fs1 [Hs Hrun]]].
  exists (finished fs1), (log fs1 ++ [EvFreePath]).
  rewrite <- (scan_close_ret _ _ _ _ _ Hs) at 1.
  split; [exact Hrun|]. split; [| exact (finished_image _ _ _ _ _ Hs)].
  simpl. rewrite (scan_close_ret _ _ _ _ _ Hs). simpl.
  rewrite <- app_assoc. reflexivity.
Qed.

(** A filesystem whose commit fails with -5 and whose [close_ctree]
    succeeds: the three records of the extent at 8192 are zeroed in the
    leaf, nothing reaches the image, and 0 is returned. *)
Lemma corrupt_extent_result_witness :
  valid_leaf data_tree /\
  exists fs' pre,
    corrupt_extent 6 8192 0
      {| extent_root := {| items := data_tree; dirty := false |};
         committed := data_tree; search_faults := [];
         commit_ret := -5; close_ret := 0; log := [] |}
    = (Done 0, fs') /\
    log fs' = pre ++ [EvCommit; EvCloseCtree 0] /\
    committed fs' = data_tree /\
    leaf_items fs' <> data_tree.
Proof.
  split; [exact data_tree_valid|].
  destruct (corrupt_extent_result 6 8192 0
      {| extent_root := {| items := data_tree; dirty := false |};
         committed := data_tree; search_faults := [];
         commit_ret := -5; close_ret := 0; log := [] |}
      data_tree_valid) as [fs' [pre [Hrun [Hlog Himage]]]]; [simpl; lia|].
  exists fs', pre. split; [exact Hrun|]. split; [exact Hlog|].
  split; [exact Himage|].
  vm_compute in Hrun. inversion Hrun. discriminate.
Defined.

(** ** Scanning twice *)

Lemma bin_search_keys (l l2 : list btrfs_item) (k : btrfs_key) :
  keys l2 = keys l -> bin_search l2 k = bin_search l k.
Proof.
  revert l2. induction l as [|x l IH]; intros [|y l2] H; simpl in *; try discriminate.
  - reflexivity.
  - inversion H as [[Hk Hl]]. rewrite Hk, (IH l2 Hl). reflexivity.
Qed.

Lemma found_keys (l l2 : list btrfs_item) (k : btrfs_key) :
  keys l2 = keys l -> found l2 k = found l k.
Proof. intros H. unfold found. rewrite (bin_search_keys _ _ _ H). reflexivity. Qed.

Lemma keys_nth_inv (l l2 : list btrfs_item) (i : nat) (it : btrfs_item) :
  keys l2 = keys l -> nth_error l i = Some it ->
  exists it2, nth_error l2 i = Some it2 /\ key it2 = key it.
Proof.
  intros H Hi. pose proof (keys_nth _ _ _ Hi) as Hk. rewrite <- H in Hk.
  unfold keys in Hk. rewrite nth_error_map in Hk.
  destruct (nth_error l2 i) as [it2|]; [|discriminate].
  exists it2. split; [reflexivity|]. simpl in Hk. congruence.
Qed.

Lemma valid_leaf_keys (l l2 : list btrfs_item) :
  keys l2 = keys l -> valid_leaf l -> valid_leaf l2.
Proof.
  unfold valid_leaf. rewrite !Forall_forall. intros H Hv it2 Hin.
  destruct (In_nth_error _ _ Hin) as [i Hi].
  destruct (keys_nth_inv l2 l i it2 (eq_sym H) Hi) as [it [Hit Hk]].
  rewrite <- Hk. apply Hv. eapply nth_error_In; eauto.
Qed.

Lemma scan_keys (bytenr : Z) (k : btrfs_key) (fs fs' : fs_info) (vs : list visit) :
  scan bytenr k fs vs fs' -> keys (leaf_items fs') = keys (leaf_items fs).
Proof.
  induction 1 as [k fs v Hp Hc | k fs v vs fs' Hp Hc Hs IH].
  - apply keys_after.
  - rewrite IH. apply keys_after.
Qed.

Lemma scan_no_fault (bytenr : Z) (k : btrfs_key) (fs fs' : fs_info) (vs : list visit) :
  scan bytenr k fs vs fs' -> search_faults fs = [] -> search_faults fs' = [].
Proof.
  induction 1 as [k fs v Hp Hc | k fs v vs fs' Hp Hc Hs IH]; intros H.
  - exact (no_fault_after fs v H).
  - apply IH. exact (no_fault_after fs v H).
Qed.

(** Which way a pass takes is settled by the key and the filesystem. *)
Lemma pass_unique (bytenr : Z) (k : btrfs_key) (fs : fs_info) (v1 v2 : visit) :
  pass bytenr k fs v1 -> pass bytenr k fs v2 -> v1 = v2.
Proof.
  intros H1 H2.
  destruct H1 as [Hf | Hf Hfd | s x Hf Hfd Hx Hobj | s x Hf Hfd Hx Hobj Hty
                  | s x Hf Hfd Hx Hobj Hty];
    destruct H2 as [Hf' | Hf' Hfd' | s' x' Hf' Hfd' Hx' Hobj' | s' x' Hf' Hfd' Hx' Hobj' Hty'
                    | s' x' Hf' Hfd' Hx' Hobj' Hty'];
    try reflexivity; try lia; try congruence;
    (rewrite Hfd in Hfd'; inversion Hfd'; subst s';
     rewrite Hx in Hx'; inversion Hx'; subst x';
     try reflexivity; congruence).
Qed.

Lemma scan_unique (bytenr : Z) (k : btrfs_key) (fs fs1 : fs_info) (vs1 : list visit) :
  scan bytenr k fs vs1 fs1 ->
  forall vs2 fs2, scan bytenr k fs vs2 fs2 -> vs1 = vs2 /\ fs1 = fs2.
Proof.
  induction 1 as [k fs v Hp Hc | k fs v vs fs' Hp Hc Hs IH]; intros vs2 fs2 H2;
    destruct (scan_first _ _ _ _ _ H2) as [v2 [Hp2 [[Hc2 [E1 E2]] | [Hc2 [vs' [E1 Hs2]]]]]];
    pose proof (pass_unique _ _ _ _ _ Hp Hp2) as Ev; subst v2; try congruence.
  - subst. auto.
  - destruct (IH _ _ Hs2) as [Evs Efs]. subst. auto.
Qed.

(** A scan of a leaf with the same keys takes the same ways and zeroes the
    same slots. *)
Lemma scan_same_keys (bytenr : Z) (k : btrfs_key) (fs fs' : fs_info) (vs : list visit) :
  scan bytenr k fs vs fs' ->
  forall fs2,
    keys (leaf_items fs2) = keys (leaf_items fs) ->
    search_faults fs2 = search_faults fs ->
    exists vs2 fs2',
      scan bytenr k fs2 vs2 fs2' /\
      forall slot, zeroed_in vs2 slot = zeroed_in vs slot.
Proof.
  assert (Hone : forall k fs v fs2,
             pass bytenr k fs v ->
             keys (leaf_items fs2) = keys (leaf_items fs) ->
             search_faults fs2 = search_faults fs ->
             exists v2, pass bytenr k fs2 v2 /\ leaves v2 = leaves v /\
                        forall slot, zeroes slot v2 = zeroes slot v).
  { intros k0 fs0 v fs2 Hp Hk Hflt.
    assert (Hf : fault fs2 = fault fs0) by (unfold fault; rewrite Hflt; reflexivity).
    pose proof (found_keys _ _ k0 Hk) as Hfd2.
    pose proof (bin_search_keys _ _ k0 Hk) as Hbs.
    destruct Hp as [Hf0 | Hf0 Hfd | s x Hf0 Hfd Hx Hobj | s x Hf0 Hfd Hx Hobj Hty
                    | s x Hf0 Hfd Hx Hobj Hty].
    - exists (VError k0 (fault fs2)). split; [apply pass_error; lia|].
      split; reflexivity.
    - exists (VFront k0 (fst (bin_search (leaf_items fs2) k0))).
      split; [apply pass_front; [lia | congruence]|]. split; reflexivity.
    - destruct (keys_nth_inv _ _ _ _ Hk Hx) as [x2 [Hx2 Hk2]].
      exists (VForeign k0 (fst (bin_search (leaf_items fs2) k0)) s x2).
      split; [apply pass_foreign; [lia | congruence | exact Hx2 | congruence]|].
      split; [simpl; congruence | reflexivity].
    - destruct (keys_nth_inv _ _ _ _ Hk Hx) as [x2 [Hx2 Hk2]].
      exists (VSkip k0 (fst (bin_search (leaf_items fs2) k0)) s x2).
      split; [apply pass_skip; [lia | congruence | exact Hx2 | congruence | congruence]|].
      split; [simpl; congruence | reflexivity].
    - destruct (keys_nth_inv _ _ _ _ Hk Hx) as [x2 [Hx2 Hk2]].
      exists (VZero k0 (fst (bin_search (leaf_items fs2) k0)) s x2).
      split; [apply pass_zero; [lia | congruence | exact Hx2 | congruence | congruence]|].
      split; [simpl; congruence | reflexivity]. }
  induction 1 as [k fs v Hp Hc | k fs v vs fs' Hp Hc Hs IH]; intros fs2 Hk Hflt.
  - destruct (Hone _ _ _ _ Hp Hk Hflt) as [v2 [Hp2 [Hl Hz]]].
    exists [v2], (fs_after fs2 v2). split.
    + apply scan_last; [exact Hp2 | congruence].
    + intros slot. unfold zeroed_in; simpl. rewrite Hz. reflexivity.
  - destruct (Hone _ _ _ _ Hp Hk Hflt) as [v2 [Hp2 [Hl Hz]]].
    destruct (IH (fs_after fs2 v2)) as [vs2 [fs2' [Hs2 Hzs]]].
    + rewrite !keys_after. exact Hk.
    + simpl. rewrite Hflt. reflexivity.
    + exists (v2 :: vs2), fs2'. split.
      * apply scan_more; [exact Hp2 | congruence |]. rewrite Hl. exact Hs2.
      * intros slot. unfold zeroed_in in *; simpl. rewrite Hz, Hzs. reflexivity.
Qed.

(** X6.  Running [corrupt_extent] a second time, on the filesystem opened
    again after a first run whose commit went through, changes nothing:
    without search errors the second run visits the same items, zeroes what
    is already zero, and leaves the image the first run committed, whether
    its own commit goes through or not. *)
Theorem corrupt_extent_twice (fuel : nat) (bytenr copy : Z) (fs : fs_info) (c r : Z) :
  valid_leaf (leaf_items fs) ->
  search_faults fs = [] ->
  commit_ret fs = 0 ->
  (length (leaf_items fs) < fuel)%nat ->
  exists o1 fs1 o2 fs2,
    corrupt_extent fuel bytenr copy fs = (o1, fs1) /\
    corrupt_extent fuel bytenr copy (reopened fs1 c r) = (o2, fs2) /\
    leaf_items fs2 = committed fs1 /\
    committed fs2 = committed fs1.
Proof.
  intros Hvalid Hnf Hcommit Hfuel.
  destruct (corrupt_extent_scan fuel bytenr copy fs Hvalid Hfuel) as [vs [fsA [Hs Hrun]]].
  pose proof (scan_keys _ _ _ _ _ Hs) as HkA.
  change (leaf_items (started fs)) with (leaf_items fs) in HkA.
  assert (Himage1 : committed (finished fsA) = leaf_items fsA).
  { rewrite committed_finished, (scan_commit_ret _ _ _ _ _ Hs). simpl.
    rewrite Hcommit. reflexivity. }
  set (fsR := reopened (finished fsA) c r).
  assert (HleafR : leaf_items fsR = leaf_items fsA) by exact Himage1.
  assert (Hvalid1 : valid_leaf (leaf_items fsR)).
  { rewrite HleafR. exact (valid_leaf_keys _ _ HkA Hvalid). }
  assert (Hfuel1 : (length (leaf_items fsR) < fuel)%nat).
  { rewrite HleafR, (scan_length _ _ _ _ _ Hs). exact Hfuel. }
  destruct (corrupt_extent_scan fuel bytenr copy fsR Hvalid1 Hfuel1)
    as [vs2 [fsB [Hs2 Hrun2]]].
  eexists. eexists. eexists. eexists.
  split; [exact Hrun|]. split; [exact Hrun2|].
  destruct (scan_same_keys _ _ _ _ _ Hs (started fsR)) as [vs2' [fsB' [Hs2' Hz]]].
  { change (leaf_items (started fsR)) with (leaf_items fsR).
    rewrite HleafR. exact HkA. }
  { simpl. exact (eq_sym Hnf). }
  destruct (scan_unique _ _ _ _ _ Hs2 _ _ Hs2') as [<- <-].
  assert (Hleaf : leaf_items fsB = leaf_items fsA).
  { apply nth_error_same_lists. intros n.
    destruct (nth_error (leaf_items fs) n) as [it0|] eqn:Hn.
    - pose proof (scan_items _ _ _ _ _ Hs n it0 Hn) as HA.
      assert (HR : nth_error (leaf_items (started fsR)) n
                   = Some (if zeroed_in vs n then zero_item it0 else it0)).
      { change (leaf_items (started fsR)) with (leaf_items fsR).
        rewrite HleafR. exact HA. }
      pose proof (scan_items _ _ _ _ _ Hs2 n _ HR) as HB.
      rewrite HB, HA, Hz.
      destruct (zeroed_in vs n); [rewrite zero_item_idem|]; reflexivity.
    - assert (HA : nth_error (leaf_items fsA) n = None).
      { apply nth_error_None. apply nth_error_None in Hn.
        rewrite (scan_length _ _ _ _ _ Hs). exact Hn. }
      rewrite HA. apply nth_error_None. apply nth_error_None in HA.
      rewrite (scan_length _ _ _ _ _ Hs2).
      change (leaf_items (started fsR)) with (leaf_items fsR).
      rewrite HleafR. exact HA. }
  rewrite Himage1.
  split; [rewrite leaf_items_finished; exact Hleaf|].
  rewrite (finished_image _ _ _ _ _ Hs2), leaf_items_finished, Hleaf.
  destruct (commit_ret fsR =? 0); [reflexivity | exact Himage1].
Qed.

(** The second run, on the image the first one left, with a commit that
    fails. *)
Lemma corrupt_extent_twice_witness :
  valid_leaf (leaf_items (fresh_fs data_tree)) /\
  (length (leaf_items (fresh_fs data_tree)) < 6)%nat /\
  exists o1 fs1 o2 fs2,
    corrupt_extent 6 8192 0 (fresh_fs data_tree) = (o1, fs1) /\
    corrupt_extent 6 8192 0 (reopened fs1 (-5) 0) = (o2, fs2) /\
    committed fs2 = committed fs1.
Proof.
  split; [exact data_tree_valid|]. split; [simpl; lia|].
  destruct (corrupt_extent_twice 6 8192 0 (fresh_fs data_tree) (-5) 0
              data_tree_valid eq_refl eq_refl)
    as [o1 [fs1 [o2 [fs2 [H1 [H2 [_ H3]]]]]]]; [simpl; lia|].
  exists o1, fs1, o2, fs2. auto.
Defined.

(** * Further properties of [debug_corrupt_block] *)

Import MirrorCorrupter MirrorSpec.

Lemma writes_inv (flt : faults) (blocksize copy : Z) (loc : Z -> btrfs_bio_stripe)
    (f o : Z) (l : list Z) :
  existsb (writes flt blocksize copy loc f o) l = true ->
  exists i, In i l /\ selected copy i = true /\
            write_fails flt (loc_fd (loc i)) (physical (loc i)) = false /\
            in_range (loc_fd (loc i)) (physical (loc i)) blocksize f o = true.
Proof.
  intros H. apply existsb_exists in H. destruct H as [i [Hin Hw]].
  unfold writes in Hw. apply andb_true_iff in Hw. destruct Hw as [Hw Hr].
  apply andb_true_iff in Hw. destruct Hw as [Hs Hf].
  apply negb_true_iff in Hf. exists i. auto.
Qed.

(** X7.  Whatever the target mirror and whatever fails, a run on a block
    with stable mirrors leaves every byte of every device either as it was
    or zero, and a byte is only changed inside the location of a selected
    mirror whose write went through. *)
Theorem debug_corrupt_block_frame
    (flt : faults) (root : btrfs_root) (bytenr blocksize copy : Z)
    (loc : Z -> btrfs_bio_stripe) (N' fuel : nat) (w : world) :
  stable_mirrors root bytenr blocksize (Z.of_nat N') loc ->
  (1 <= N')%nat ->
  Z.of_nat N' < INT_MAX ->
  (N' <= fuel)%nat ->
  nomem flt = false ->
  exists eb w',
    debug_corrupt_block flt root fuel bytenr blocksize copy w = (Done (Some eb), w') /\
    forall f o,
      disk w' f o = disk w f o \/
      (disk w' f o = Byte.x00 /\
       exists i, 1 <= i <= Z.of_nat N' /\ selected copy i = true /\
                 write_fails flt (loc_fd (loc i)) (physical (loc i)) = false /\
                 in_range (loc_fd (loc i)) (physical (loc i)) blocksize f o = true).
Proof.
  intros Hst H1 HN Hfuel Hmem.
  destruct (debug_corrupt_block_stable flt root bytenr blocksize copy _ loc Hst HN
              N' fuel w eq_refl H1 Hfuel Hmem)
    as [eb [w' [Hrun [_ [_ [_ Hdisk]]]]]].
  exists eb, w'. split; [exact Hrun|]. intros f o. rewrite Hdisk.
  destruct (existsb (writes flt blocksize copy loc f o) (range 1 N')) eqn:E.
  - right. split; [reflexivity|].
    destruct (writes_inv _ _ _ _ _ _ _ E) as [i [Hin H]].
    exists i. split; [| exact H]. apply In_range in Hin. lia.
  - left. reflexivity.
Qed.

Lemma debug_corrupt_block_frame_witness :
  stable_mirrors raid1_root 4096 4096 (Z.of_nat 2) (raid1_loc 4096) /\
  exists eb w',
    debug_corrupt_block sdb_read_only raid1_root 2 4096 4096 0 full_world
    = (Done (Some eb), w') /\
    (disk w' 3 0 = Byte.xff \/ disk w' 3 0 = Byte.x00).
Proof.
  split; [exact (raid1_stable 4096 4096)|].
  destruct (debug_corrupt_block_frame sdb_read_only raid1_root 4096 4096 0
              (raid1_loc 4096) 2 2 full_world (raid1_stable 4096 4096))
    as [eb [w' [Hrun Hd]]]; [lia | reflexivity | lia | reflexivity |].
  exists eb, w'. split; [exact Hrun|].
  destruct (Hd 3 0) as [H | [H _]]; [left | right]; exact H.
Defined.

Lemma no_target_events (bytenr blocksize copy : Z) (loc : Z -> btrfs_bio_stripe)
    (l : list Z) :
  (forall i, In i l -> selected copy i = false) ->
  flat_map (fun i => mirror_events bytenr blocksize copy i (loc i)) l =
  map (fun i => EvStdoutMirror i bytenr (physical (loc i)) (name (dev (loc i)))) l.
Proof.
  induction l as [|a l IH]; intros H; [reflexivity|].
  cbn [flat_map map].
  rewrite IH by (intros i Hi; apply H; right; exact Hi).
  unfold mirror_events. rewrite (H a (or_introl eq_refl)). reflexivity.
Qed.

(** X8.  A target mirror that the block does not have (a [copy] other than
    0 outside 1..N) makes [debug_corrupt_block] print the N mirror lines and
    do nothing else: no read, no write, no flush, and no byte of any device
    changes.  No error is reported. *)
Theorem debug_corrupt_block_no_such_mirror
    (flt : faults) (root : btrfs_root) (bytenr blocksize copy : Z)
    (loc : Z -> btrfs_bio_stripe) (N' fuel : nat) (w : world) :
  stable_mirrors root bytenr blocksize (Z.of_nat N') loc ->
  (1 <= N')%nat ->
  Z.of_nat N' < INT_MAX ->
  (N' <= fuel)%nat ->
  nomem flt = false ->
  copy < 0 \/ Z.of_nat N' < copy ->
  exists eb w',
    debug_corrupt_block flt root fuel bytenr blocksize copy w = (Done (Some eb), w') /\
    log w' = log w ++
             map (fun i => EvStdoutMirror i bytenr (physical (loc i)) (name (dev (loc i))))
                 (range 1 N') /\
    (forall f o, disk w' f o = disk w f o).
Proof.
  intros Hst H1 HN Hfuel Hmem Hcopy.
  destruct (debug_corrupt_block_stable flt root bytenr blocksize copy _ loc Hst HN
              N' fuel w eq_refl H1 Hfuel Hmem)
    as [eb [w' [Hrun [_ [_ [Hlog Hdisk]]]]]].
  assert (Hsel : forall i, In i (range 1 N') -> selected copy i = false).
  { intros i Hi. apply In_range in Hi. unfold selected.
    destruct (Z.eqb_spec copy 0); [lia|]. destruct (Z.eqb_spec i copy); [lia|].
    reflexivity. }
  exists eb, w'. split; [exact Hrun|]. split.
  - rewrite Hlog, (no_target_events _ _ _ _ _ Hsel). reflexivity.
  - intros f o. rewrite Hdisk.
    destruct (existsb (writes flt blocksize copy loc f o) (range 1 N')) eqn:E;
      [|reflexivity].
    destruct (writes_inv _ _ _ _ _ _ _ E) as [i [Hin [Hs _]]].
    rewrite (Hsel i Hin) in Hs. discriminate.
Qed.

(** [-c 3] on the two-mirror block. *)
Lemma debug_corrupt_block_no_such_mirror_witness :
  stable_mirrors raid1_root 4096 4096 (Z.of_nat 2) (raid1_loc 4096) /\
  (3 < 0 \/ Z.of_nat 2 < 3) /\
  exists eb w',
    debug_corrupt_block no_faults raid1_root 2 4096 4096 3 full_world
    = (Done (Some eb), w') /\
    log w' = [EvStdoutMirror 1 4096 1052672 "/dev/sdb";
              EvStdoutMirror 2 4096 2101248 "/dev/sdc"] /\
    (forall f o, disk w' f o = Byte.xff).
Proof.
  split; [exact (raid1_stable 4096 4096)|]. split; [right; simpl; lia|].
  destruct (debug_corrupt_block_no_such_mirror no_faults raid1_root 4096 4096 3
              (raid1_loc 4096) 2 2 full_world (raid1_stable 4096 4096))
    as [eb [w' [Hrun [Hlog Hd]]]];
    [lia | reflexivity | lia | reflexivity | right; simpl; lia |].
  exists eb, w'. split; [exact Hrun|]. split; [exact Hlog|].
  intros f o. rewrite Hd. reflexivity.
Defined.

(** X9.  Corrupting the same block a second time with the same target
    leaves every byte as the first run left it, provided no write that
    failed in the first run goes through in the second; the faults of the
    two runs are otherwise unrelated.  A write that fails the first time and
    goes through the second time is the one way the second run changes a
    byte. *)
Theorem debug_corrupt_block_twice
    (flt1 flt2 : faults) (root : btrfs_root) (bytenr blocksize copy : Z)
    (loc : Z -> btrfs_bio_stripe) (N' fuel : nat) (w : world) :
  stable_mirrors root bytenr blocksize (Z.of_nat N') loc ->
  (1 <= N')%nat ->
  Z.of_nat N' < INT_MAX ->
  (N' <= fuel)%nat ->
  nomem flt1 = false ->
  nomem flt2 = false ->
  (forall i, 1 <= i <= Z.of_nat N' -> selected copy i = true ->
             write_fails flt1 (loc_fd (loc i)) (physical (loc i)) = true ->
             write_fails flt2 (loc_fd (loc i)) (physical (loc i)) = true) ->
  exists eb1 w1 eb2 w2,
    debug_corrupt_block flt1 root fuel bytenr blocksize copy w = (Done (Some eb1), w1) /\
    debug_corrupt_block flt2 root fuel bytenr blocksize copy w1 = (Done (Some eb2), w2) /\
    (forall f o, disk w2 f o = disk w1 f o).
Proof.
  intros Hst H1 HN Hfuel Hmem1 Hmem2 Hfail.
  destruct (debug_corrupt_block_stable flt1 root bytenr blocksize copy _ loc Hst HN
              N' fuel w eq_refl H1 Hfuel Hmem1)
    as [eb1 [w1 [Hrun1 [_ [_ [_ Hdisk1]]]]]].
  destruct (debug_corrupt_block_stable flt2 root bytenr blocksize copy _ loc Hst HN
              N' fuel w1 eq_refl H1 Hfuel Hmem2)
    as [eb2 [w2 [Hrun2 [_ [_ [_ Hdisk2]]]]]].
  exists eb1, w1, eb2, w2. split; [exact Hrun1|]. split; [exact Hrun2|].
  intros f o. rewrite Hdisk2.
  destruct (existsb (writes flt2 blocksize copy loc f o) (range 1 N')) eqn:E2;
    [|reflexivity].
  destruct (writes_inv _ _ _ _ _ _ _ E2) as [i [Hin [Hsel [Hw2 Hr]]]].
  apply In_range in Hin.
  assert (Hw1 : write_fails flt1 (loc_fd (loc i)) (physical (loc i)) = false).
  { destruct (write_fails flt1 (loc_fd (loc i)) (physical (loc i))) eqn:E;
      [|reflexivity].
    rewrite (Hfail i ltac:(lia) Hsel E) in Hw2. discriminate. }
  assert (E1 : existsb (writes flt1 blocksize copy loc f o) (range 1 N') = true).
  { apply existsb_exists. exists i. split; [apply In_range; lia|].
    unfold writes. rewrite Hsel, Hw1, Hr. reflexivity. }
  rewrite Hdisk1, E1. reflexivity.
Qed.

(** The first run with every write going through, the second with the
    writes on [sdb] failing. *)
Lemma debug_corrupt_block_twice_witness :
  stable_mirrors raid1_root 4096 4096 (Z.of_nat 2) (raid1_loc 4096) /\
  exists eb1 w1 eb2 w2,
    debug_corrupt_block no_faults raid1_root 2 4096 4096 0 full_world
    = (Done (Some eb1), w1) /\
    debug_corrupt_block sdb_read_only raid1_root 2 4096 4096 0 w1
    = (Done (Some eb2), w2) /\
    (forall f o, disk w2 f o = disk w1 f o).
Proof.
  split; [exact (raid1_stable 4096 4096)|].
  apply (debug_corrupt_block_twice no_faults sdb_read_only raid1_root 4096 4096 0
           (raid1_loc 4096) 2 2 full_world (raid1_stable 4096 4096));
    [lia | reflexivity | lia | reflexivity | reflexivity
     | intros i _ _ H; discriminate H].
Defined.

(** ** Mirrors that do not resolve, and blocks with fewer than two copies *)

(** The pass for a mirror that resolves to [s], on a block for which the
    mapping layer always counts [N] copies, whatever [N] is. *)
Lemma mirror_body_resolved
    (flt : faults) (root : btrfs_root) (bytenr blocksize copy N : Z)
    (s : btrfs_bio_stripe) (eb : extent_buffer) (length m : Z) (w : world) :
  (forall w, num_copies root w bytenr blocksize = N) ->
  (forall w l, exists l', map_block root w bytenr l m = Some (l', s)) ->
  N = 1 \/ m < INT_MAX ->
  start eb = bytenr -> len eb = blocksize ->
  exists eb' length' w',
    mirror_body flt root bytenr copy eb length m w =
    (Done (if (N =? 1) || (m + 1 >? N) then Break else Continue,
           (eb', length', if N =? 1 then m else m + 1)), w') /\
    start eb' = bytenr /\ len eb' = blocksize /\
    log w' = log w ++ mirror_events bytenr blocksize copy m s /\
    (forall f o,
        disk w' f o =
        if selected copy m && negb (write_fails flt (loc_fd s) (physical s)) &&
           in_range (loc_fd s) (physical s) blocksize f o
        then Byte.x00 else disk w f o).
Proof.
  intros Hn Hmap Hm Hs Hl.
  unfold mirror_body.
  destruct (Hmap w length) as [l' Hmb].
  rewrite (bind_done _ _ w w (map_block root w (start eb) length m)) by reflexivity.
  rewrite Hs, Hmb.
  erewrite bind_done; [| reflexivity].
  erewrite bind_done; [| reflexivity].
  simpl dev_bytenr.
  set (eb1 := set_dev_bytenr (set_fd eb (fd (dev s))) (physical s)).
  simpl disk. simpl total_ios. simpl log.
  set (w1 := {| disk := _; total_ios := _; log := _ ++ _ |}).
  assert (Hfin : forall eb0 w0,
             start eb0 = bytenr -> len eb0 = blocksize ->
             (n <- btrfs_num_copies root (start eb0) (len eb0);;
              (if n =? 1
               then mret (Break, (eb0, l', m))
               else
                 if m =? INT_MAX
                 then undefined
                 else
                   if m + 1 >? n
                   then mret (Break, (eb0, l', m + 1))
                   else mret (Continue, (eb0, l', m + 1)))) w0 =
             (Done (if (N =? 1) || (m + 1 >? N) then Break else Continue,
                    (eb0, l', if N =? 1 then m else m + 1)), w0)).
  { intros eb0 w0 Hs0 Hl0.
    unfold btrfs_num_copies, get_world, mret, bind. rewrite Hs0, Hl0, Hn.
    destruct (Z.eqb_spec N 1) as [E1|E1]; [reflexivity|].
    destruct (Z.eqb_spec m INT_MAX) as [E2|E2]; [lia|].
    simpl. destruct (m + 1 >? N); reflexivity. }
  unfold mirror_events. fold (selected copy m).
  destruct (selected copy m) eqn:Hsel.
  - destruct (corrupt_copy_run flt eb1 m w1) as [eb' [w' [Hrun [Hs' [Hl' [Hlog Hdisk]]]]]].
    exists eb', l', w'.
    rewrite (bind_done _ _ _ _ _ Hrun).
    rewrite Hfin by (rewrite ?Hs', ?Hl'; assumption).
    split; [reflexivity|].
    split; [rewrite Hs'; exact Hs|]. split; [rewrite Hl'; exact Hl|].
    split.
    + rewrite Hlog. subst w1 eb1. simpl. rewrite Hs, Hl.
      rewrite <- app_assoc. reflexivity.
    + intros f o. rewrite Hdisk. subst w1 eb1. simpl. rewrite Hl. reflexivity.
  - exists eb1, l', w1.
    rewrite (bind_done _ _ w1 w1 eb1) by reflexivity.
    rewrite Hfin by assumption.
    split; [reflexivity|]. split; [exact Hs|]. split; [exact Hl|].
    split; reflexivity.
Qed.

(** The pass for a mirror that does not resolve: [BUG_ON(ret)]. *)
Lemma mirror_body_bug
    (flt : faults) (root : btrfs_root) (bytenr copy : Z)
    (eb : extent_buffer) (length m : Z) (w : world) :
  map_block root w (start eb) length m = None ->
  mirror_body flt root bytenr copy eb length m w = (Bug, w).
Proof.
  intros H. unfold mirror_body.
  rewrite (bind_done _ _ w w (map_block root w (start eb) length m)) by reflexivity.
  rewrite H. reflexivity.
Qed.

(** X10.  When the mapping layer counts fewer than two copies of the block,
    one, none or a negative number, [debug_corrupt_block] makes exactly one
    pass, for mirror 1, and returns. *)
Theorem debug_corrupt_block_few_copies
    (flt : faults) (root : btrfs_root) (bytenr blocksize copy n : Z)
    (s : btrfs_bio_stripe) (fuel : nat) (w : world) :
  (forall w, num_copies root w bytenr blocksize = n) ->
  n <= 1 ->
  (forall w l, exists l', map_block root w bytenr l 1 = Some (l', s)) ->
  (1 <= fuel)%nat ->
  nomem flt = false ->
  exists eb w',
    debug_corrupt_block flt root fuel bytenr blocksize copy w = (Done (Some eb), w') /\
    log w' = log w ++ mirror_events bytenr blocksize copy 1 s /\
    (forall f o,
        disk w' f o =
        if selected copy 1 && negb (write_fails flt (loc_fd s) (physical s)) &&
           in_range (loc_fd s) (physical s) blocksize f o
        then Byte.x00 else disk w f o).
Proof.
  intros Hn Hle Hmap Hfuel Hmem.
  destruct fuel as [|fuel]; [lia|].
  unfold debug_corrupt_block, btrfs_find_create_tree_block. rewrite Hmem.
  cbv iota. erewrite bind_done; [| reflexivity]. cbv iota beta.
  match goal with
  | |- context [mirror_loop _ _ _ _ _ ?e _ _] => set (eb0 := e)
  end.
  destruct (mirror_body_resolved flt root bytenr blocksize copy n s eb0 blocksize 1 w
              Hn Hmap) as [eb' [l' [w' [Hb [_ [_ [Hlog Hdisk]]]]]]];
    [right; reflexivity | reflexivity | reflexivity |].
  assert (E : (n =? 1) || (1 + 1 >? n) = true).
  { destruct (Z.eqb_spec n 1); [reflexivity|]. simpl. apply Z.gtb_lt. lia. }
  assert (Hloop : mirror_loop flt root (S fuel) bytenr copy eb0 blocksize 1 w
                  = (Done eb', w')).
  { simpl mirror_loop. rewrite (bind_done _ _ _ _ _ Hb), E. reflexivity. }
  rewrite (bind_done _ _ _ _ _ Hloop).
  exists eb', w'. split; [reflexivity|]. split; assumption.
Qed.

(** A mapping that resolves mirror 1 on [sdb] and counts no copy at all. *)
Lemma debug_corrupt_block_few_copies_witness :
  (0 <= 1) /\
  exists eb w',
    debug_corrupt_block no_faults
      {| sectorsize := 4096;
         map_block := fun _ logical length _ => Some (length, raid1_loc logical 1);
         num_copies := fun _ _ _ => 0 |}
      1 4096 4096 0 full_world = (Done (Some eb), w') /\
    log w' = full_world.(log) ++ mirror_events 4096 4096 0 1 (raid1_loc 4096 1).
Proof.
  split; [lia|].
  destruct (debug_corrupt_block_few_copies no_faults
              {| sectorsize := 4096;
                 map_block := fun _ logical length _ => Some (length, raid1_loc logical 1);
                 num_copies := fun _ _ _ => 0 |}
              4096 4096 0 0 (raid1_loc 4096 1) 1 full_world)
    as [eb [w' [Hrun [Hlog _]]]].
  - reflexivity.
  - lia.
  - intros w0 l. exists l. reflexivity.
  - lia.
  - reflexivity.
  - exists eb, w'. split; [exact Hrun | exact Hlog].
Defined.

Section UnresolvedMirror.
Variable flt : faults.
Variable root : btrfs_root.
Variables bytenr blocksize copy N J : Z.
Variable loc : Z -> btrfs_bio_stripe.
Hypothesis Hn : forall w, num_copies root w bytenr blocksize = N.
Hypothesis Hres : forall w l i, 1 <= i < J ->
                                exists l', map_block root w bytenr l i = Some (l', loc i).
Hypothesis Hfail : forall w l, map_block root w bytenr l J = None.
Hypothesis HJ : J <= N.
Hypothesis HN : N < INT_MAX.

Lemma mirror_loop_until_bug (n : nat) :
  forall (m : Z) (eb : extent_buffer) (length : Z) (w : world) (fuel : nat),
    J - m = Z.of_nat n -> 1 <= m -> (n < fuel)%nat ->
    start eb = bytenr -> len eb = blocksize ->
    exists w',
      mirror_loop flt root fuel bytenr copy eb length m w = (Bug, w') /\
      log w' = log w ++
               flat_map (fun i => mirror_events bytenr blocksize copy i (loc i))
                        (range m n) /\
      (forall f o,
          disk w' f o =
          if existsb (writes flt blocksize copy loc f o) (range m n)
          then Byte.x00 else disk w f o).
Proof.
  induction n as [|n IH]; intros m eb length w fuel Hm H1 Hfuel Hs Hl;
    (destruct fuel as [|fuel]; [lia|]); simpl mirror_loop.
  - assert (m = J) by lia. subst m.
    unfold bind. rewrite mirror_body_bug by (rewrite Hs; apply Hfail).
    exists w. split; [reflexivity|]. simpl. rewrite app_nil_r. auto.
  - destruct (mirror_body_resolved flt root bytenr blocksize copy N (loc m) eb length m w
                Hn (fun w0 l => Hres w0 l m ltac:(lia)))
      as [eb1 [l1 [w1 [Hb [Hs1 [Hl1 [Hlog1 Hdisk1]]]]]]];
      [right; lia | exact Hs | exact Hl |].
    rewrite (bind_done _ _ _ _ _ Hb).
    assert (E1 : (N =? 1) = false) by (apply Z.eqb_neq; lia).
    assert (E2 : (m + 1 >? N) = false).
    { destruct (Z.gtb_spec (m + 1) N); [lia | reflexivity]. }
    rewrite E1, E2. simpl orb. cbv iota.
    destruct (IH (m + 1) eb1 l1 w1 fuel) as [w' [Hrun [Hlog Hdisk]]];
      try lia; try assumption.
    exists w'. split; [exact Hrun|]. split.
    + rewrite Hlog, Hlog1. rewrite <- app_assoc. reflexivity.
    + intros f o. rewrite Hdisk, Hdisk1.
      change (existsb (writes flt blocksize copy loc f o) (range m (S n)))
        with (writes flt blocksize copy loc f o m ||
              existsb (writes flt blocksize copy loc f o) (range (m + 1) n)).
      unfold writes at 2. unfold loc_fd.
      destruct (selected copy m && negb (write_fails flt (fd (dev (loc m))) (physical (loc m)))
                && in_range (fd (dev (loc m))) (physical (loc m)) blocksize f o);
        destruct (existsb (writes flt blocksize copy loc f o) (range (m + 1) n));
        reflexivity.
Qed.

End UnresolvedMirror.

(** X11.  When the mapping layer resolves the first [n] mirrors of a block
    and fails on the next one, which the block is counted to have, the run
    stops on the [BUG_ON] of line 54 after the passes for mirrors 1 to [n]:
    what those passes wrote stays written and no later mirror is touched. *)
Theorem debug_corrupt_block_unresolved_mirror
    (flt : faults) (root : btrfs_root) (bytenr blocksize copy N : Z)
    (loc : Z -> btrfs_bio_stripe) (n fuel : nat) (w : world) :
  (forall w, num_copies root w bytenr blocksize = N) ->
  (forall w l i, 1 <= i <= Z.of_nat n ->
                 exists l', map_block root w bytenr l i = Some (l', loc i)) ->
  (forall w l, map_block root w bytenr l (Z.of_nat n + 1) = None) ->
  Z.of_nat n < N ->
  N < INT_MAX ->
  (n < fuel)%nat ->
  nomem flt = false ->
  exists w',
    debug_corrupt_block flt root fuel bytenr blocksize copy w = (Bug, w') /\
    log w' = log w ++
             flat_map (fun i => mirror_events bytenr blocksize copy i (loc i))
                      (range 1 n) /\
    (forall f o,
        disk w' f o =
        if existsb (writes flt blocksize copy loc f o) (range 1 n)
        then Byte.x00 else disk w f o).
Proof.
  intros Hn Hres Hfail HnN HN Hfuel Hmem.
  unfold debug_corrupt_block, btrfs_find_create_tree_block. rewrite Hmem.
  cbv iota. erewrite bind_done; [| reflexivity]. cbv iota beta.
  match goal with
  | |- context [mirror_loop _ _ _ _ _ ?e _ _] => set (eb0 := e)
  end.
  destruct (mirror_loop_until_bug flt root bytenr blocksize copy N (Z.of_nat n + 1) loc
              Hn (fun w0 l i Hi => Hres w0 l i ltac:(lia)) Hfail ltac:(lia) HN
              n 1 eb0 blocksize w fuel)
    as [w' [Hrun [Hlog Hdisk]]]; try lia; try reflexivity.
  exists w'. split; [| split; assumption].
  unfold bind. rewrite Hrun. reflexivity.
Qed.

(** A block counted to have two copies whose second mirror does not
    resolve. *)
Lemma debug_corrupt_block_unresolved_mirror_witness :
  (Z.of_nat 1 < 2) /\
  exists w',
    debug_corrupt_block no_faults
      {| sectorsize := 4096;
         map_block := fun _ logical length i =>
                        if i =? 1 then Some (length, raid1_loc logical 1) else None;
         num_copies := fun _ _ _ => 2 |}
      2 4096 4096 0 full_world = (Bug, w') /\
    content (disk w') 3 1052672 4096 = repeat Byte.x00 4096.
Proof.
  split; [simpl; lia|].
  destruct (debug_corrupt_block_unresolved_mirror no_faults
              {| sectorsize := 4096;
                 map_block := fun _ logical length i =>
                                if i =? 1 then Some (length, raid1_loc logical 1) else None;
                 num_copies := fun _ _ _ => 2 |}
              4096 4096 0 2 (raid1_loc 4096) 1 2 full_world)
    as [w' [Hrun [_ Hdisk]]].
  - reflexivity.
  - intros w0 l i Hi. exists l. simpl in Hi. assert (i = 1) by lia. subst i. reflexivity.
  - reflexivity.
  - simpl; lia.
  - reflexivity.
  - lia.
  - reflexivity.
  - exists w'. split; [exact Hrun|].
    apply content_zero. intros o Ho. rewrite Hdisk.
    assert (E : existsb (writes no_faults 4096 0 (raid1_loc 4096) 3 o) (range 1 1) = true).
    { simpl. unfold writes, selected, in_range, loc_fd. simpl.
      destruct (Z.leb_spec 1052672 o); destruct (Z.ltb_spec o (1052672 + 4096));
        try lia; try reflexivity. }
    rewrite E. reflexivity.
Defined.

(** ** The buffer returned and the I/O counters *)

(** What a pass that comes through leaves in the buffer and in the
    counters, when its mirror resolves to [s]: the buffer is bound to [s],
    holds zeros if the mirror was selected and what it held otherwise, and
    the device of [s] has one more I/O counted. *)
Lemma mirror_body_buffer
    (flt : faults) (root : btrfs_root) (bytenr copy : Z)
    (eb : extent_buffer) (length m : Z) (w : world)
    (c : ctl) (eb' : extent_buffer) (l' m' : Z) (w' : world)
    (l1 : Z) (s : btrfs_bio_stripe) :
  map_block root w (start eb) length m = Some (l1, s) ->
  mirror_body flt root bytenr copy eb length m w = (Done (c, (eb', l', m')), w') ->
  eb_fd eb' = loc_fd s /\ dev_bytenr eb' = physical s /\
  data eb' = (if selected copy m then repeat Byte.x00 (Z.to_nat (len eb)) else data eb) /\
  (forall d, total_ios w' d =
             if d =? devid (dev s) then u64 (total_ios w d + 1) else total_ios w d).
Proof.
  intros Hmap. unfold mirror_body.
  rewrite (bind_done _ _ w w (map_block root w (start eb) length m)) by reflexivity.
  rewrite Hmap. fold (selected copy m).
  unfold corrupt_copy, read_extent_from_disk, memset_data, write_extent_to_disk,
    fsync, btrfs_num_copies, count_io, emit, get_world, mret, bind, undefined,
    set_data, set_dev_bytenr, set_fd, loc_fd; simpl.
  destruct (selected copy m); simpl;
    repeat match goal with
           | |- context [if ?b then _ else _] => destruct b; simpl
           end;
    intros E; inversion E; subst; simpl; auto.
Qed.

Section StableBuffer.
Variable flt : faults.
Variable root : btrfs_root.
Variables bytenr blocksize copy N : Z.
Variable loc : Z -> btrfs_bio_stripe.
Hypothesis Hstable : stable_mirrors root bytenr blocksize N loc.
Hypothesis HN : N < INT_MAX.

Lemma mirror_loop_buffer (n : nat) :
  forall (m : Z) (eb : extent_buffer) (length : Z) (w : world) (fuel : nat)
         (eb' : extent_buffer) (w' : world),
    N - m = Z.of_nat n -> 1 <= m ->
    start eb = bytenr -> len eb = blocksize ->
    (forall d, 0 <= total_ios w d < 2 ^ 64) ->
    mirror_loop flt root fuel bytenr copy eb length m w = (Done eb', w') ->
    eb_fd eb' = loc_fd (loc N) /\ dev_bytenr eb' = physical (loc N) /\
    data eb' = (if existsb (selected copy) (range m (S n))
                then repeat Byte.x00 (Z.to_nat blocksize) else data eb) /\
    (forall d, total_ios w' d =
               u64 (total_ios w d +
                    Z.of_nat (List.length (filter (fun i => d =? devid (dev (loc i)))
                                                  (range m (S n)))))).
Proof.
  induction n as [|n IH]; intros m eb length w fuel eb' w' Hn Hm Hs Hl Hio;
    (destruct fuel as [|fuel]; [discriminate|]);
    destruct (mirror_body_stable flt root bytenr blocksize copy N loc Hstable HN
                eb length m w) as [eb1 [l1 [w1 [Hb [Hs1 [Hl1 _]]]]]];
    try lia; try assumption;
    simpl mirror_loop; rewrite (bind_done _ _ _ _ _ Hb);
    destruct Hstable as [_ Hmap];
    destruct (Hmap w length m ltac:(lia)) as [l0 Hmb]; rewrite <- Hs in Hmb;
    destruct (mirror_body_buffer _ _ _ _ _ _ _ _ _ _ _ _ _ _ _ Hmb Hb)
      as [Hfd [Hphys [Hdata Hio1]]].
  - assert (E : (m =? N) = true) by (apply Z.eqb_eq; lia). rewrite E.
    intros Hrun. inversion Hrun; subst eb' w'. assert (m = N) by lia. subst m.
    split; [exact Hfd|]. split; [exact Hphys|].
    cbn [range existsb]. rewrite orb_false_r. rewrite Hl in Hdata.
    split; [exact Hdata|].
    intros d. rewrite Hio1. cbn [range filter].
    destruct (d =? devid (dev (loc N))); simpl List.length.
    + reflexivity.
    + simpl Z.of_nat. rewrite Z.add_0_r. unfold u64.
      symmetry. apply Z.mod_small. apply Hio.
  - assert (E : (m =? N) = false) by (apply Z.eqb_neq; lia). rewrite E.
    assert (E1 : (N =? 1) = false) by (apply Z.eqb_neq; lia). rewrite E1.
    intros Hrun.
    assert (Hio1' : forall d, 0 <= total_ios w1 d < 2 ^ 64).
    { intros d. rewrite Hio1. destruct (d =? devid (dev (loc m)));
        [unfold u64; apply Z.mod_pos_bound; lia | apply Hio]. }
    destruct (IH (m + 1) eb1 l1 w1 fuel eb' w') as [Hfd' [Hphys' [Hdata' Hio']]];
      try lia; try assumption.
    split; [exact Hfd'|]. split; [exact Hphys'|]. split.
    + rewrite Hdata', Hdata, Hl.
      change (existsb (selected copy) (range m (S (S n))))
        with (selected copy m || existsb (selected copy) (range (m + 1) (S n))).
      destruct (selected copy m);
        destruct (existsb (selected copy) (range (m + 1) (S n))); reflexivity.
    + intros d. rewrite Hio', Hio1.
      change (range m (S (S n))) with (m :: range (m + 1) (S n)).
      cbn [filter].
      destruct (d =? devid (dev (loc m))).
      * cbn [List.length]. unfold u64. rewrite Zplus_mod_idemp_l. f_equal. lia.
      * reflexivity.
Qed.

Lemma debug_corrupt_block_buffer (N' fuel : nat) (w : world)
    (eb : extent_buffer) (w' : world) :
  N = Z.of_nat N' -> (1 <= N')%nat ->
  (forall d, 0 <= total_ios w d < 2 ^ 64) ->
  debug_corrupt_block flt root fuel bytenr blocksize copy w = (Done (Some eb), w') ->
  eb_fd eb = loc_fd (loc N) /\ dev_bytenr eb = physical (loc N) /\
  data eb = (if existsb (selected copy) (range 1 N')
             then repeat Byte.x00 (Z.to_nat blocksize)
             else map (junk flt) (seq 0 (Z.to_nat blocksize))) /\
  (forall d, total_ios w' d =
             u64 (total_ios w d +
                  Z.of_nat (List.length (filter (fun i => d =? devid (dev (loc i)))
                                                (range 1 N'))))).
Proof.
  intros HN' H1 Hio. destruct N' as [|n]; [lia|].
  unfold debug_corrupt_block, btrfs_find_create_tree_block.
  destruct (nomem flt); [discriminate|].
  cbv iota. erewrite bind_done; [| reflexivity]. cbv iota beta.
  match goal with
  | |- context [mirror_loop _ _ _ _ _ ?e _ _] => set (eb0 := e)
  end.
  unfold bind.
  destruct (mirror_loop flt root fuel bytenr copy eb0 blocksize 1 w)
    as [[eb1 | | | | st] w1] eqn:Hloop; try discriminate.
  intros E. inversion E; subst eb1 w1.
  exact (mirror_loop_buffer n 1 eb0 blocksize w fuel eb w' ltac:(lia) ltac:(lia)
           eq_refl eq_refl Hio Hloop).
Qed.
End StableBuffer.

(** X12.  On a block with [N] stable mirrors, the buffer
    [debug_corrupt_block] returns is bound to the last mirror, whichever
    mirror was asked for.  It holds zeros if some mirror was corrupted, and
    otherwise what the buffer held when it was made: what
    [read_extent_from_disk] put there is never in it. *)
Theorem debug_corrupt_block_returned_buffer
    (flt : faults) (root : btrfs_root) (bytenr blocksize copy : Z)
    (loc : Z -> btrfs_bio_stripe) (N' fuel : nat) (w : world) :
  stable_mirrors root bytenr blocksize (Z.of_nat N') loc ->
  Z.of_nat N' < INT_MAX ->
  (1 <= N')%nat -> (N' <= fuel)%nat ->
  nomem flt = false ->
  (forall d, 0 <= total_ios w d < 2 ^ 64) ->
  exists eb w',
    debug_corrupt_block flt root fuel bytenr blocksize copy w = (Done (Some eb), w') /\
    start eb = bytenr /\ len eb = blocksize /\
    eb_fd eb = loc_fd (loc (Z.of_nat N')) /\
    dev_bytenr eb = physical (loc (Z.of_nat N')) /\
    data eb = (if existsb (selected copy) (range 1 N')
               then repeat Byte.x00 (Z.to_nat blocksize)
               else map (junk flt) (seq 0 (Z.to_nat blocksize))).
Proof.
  intros Hst HN H1 Hfuel Hmem Hio.
  destruct (debug_corrupt_block_stable flt root bytenr blocksize copy _ loc Hst HN
              N' fuel w eq_refl H1 Hfuel Hmem) as [eb [w' [Hrun [Hs [Hl _]]]]].
  destruct (debug_corrupt_block_buffer flt root bytenr blocksize copy _ loc Hst HN
              N' fuel w eb w' eq_refl H1 Hio Hrun) as [Hfd [Hphys [Hdata _]]].
  exists eb, w'. auto 7.
Qed.

(** Mirror 1 of the two-mirror filesystem is asked for: the buffer that
    comes back is bound to mirror 2 on [sdc]. *)
Lemma debug_corrupt_block_returned_buffer_witness :
  exists eb w',
    debug_corrupt_block no_faults raid1_root 2 4096 4096 1 full_world
    = (Done (Some eb), w') /\
    eb_fd eb = 4 /\ dev_bytenr eb = 2097152 + 4096 /\
    data eb = repeat Byte.x00 4096.
Proof.
  destruct (debug_corrupt_block_returned_buffer no_faults raid1_root 4096 4096 1
              (raid1_loc 4096) 2 2 full_world)
    as [eb [w' [Hrun [_ [_ [Hfd [Hphys Hdata]]]]]]].
  - apply raid1_stable.
  - reflexivity.
  - lia.
  - lia.
  - reflexivity.
  - intros d. simpl. lia.
  - exists eb, w'. split; [exact Hrun|]. auto.
Defined.

(** X13.  On a block with [N] stable mirrors, every pass counts one I/O
    on the device of its mirror, before it is known whether the mirror is
    selected: after the run the counter of a device has grown, as a 64-bit
    value, by the number of mirrors of the block on that device, whichever
    copy was asked for and whatever failed. *)
Theorem debug_corrupt_block_counts_ios
    (flt : faults) (root : btrfs_root) (bytenr blocksize copy : Z)
    (loc : Z -> btrfs_bio_stripe) (N' fuel : nat) (w : world) :
  stable_mirrors root bytenr blocksize (Z.of_nat N') loc ->
  Z.of_nat N' < INT_MAX ->
  (1 <= N')%nat -> (N' <= fuel)%nat ->
  nomem flt = false ->
  (forall d, 0 <= total_ios w d < 2 ^ 64) ->
  exists eb w',
    debug_corrupt_block flt root fuel bytenr blocksize copy w = (Done (Some eb), w') /\
    forall d,
      total_ios w' d =
      u64 (total_ios w d +
           Z.of_nat (List.length (filter (fun i => d =? devid (dev (loc i)))
                                         (range 1 N')))).
Proof.
  intros Hst HN H1 Hfuel Hmem Hio.
  destruct (debug_corrupt_block_stable flt root bytenr blocksize copy _ loc Hst HN
              N' fuel w eq_refl H1 Hfuel Hmem) as [eb [w' [Hrun _]]].
  destruct (debug_corrupt_block_buffer flt root bytenr blocksize copy _ loc Hst HN
              N' fuel w eb w' eq_refl H1 Hio Hrun) as [_ [_ [_ Hcount]]].
  exists eb, w'. split; [exact Hrun | exact Hcount].
Qed.

(** Only mirror 2 is asked for, and every operation on [sdb] would fail:
    [sdb] has an I/O counted all the same. *)
Lemma debug_corrupt_block_counts_ios_witness :
  exists eb w',
    debug_corrupt_block sdb_fails raid1_root 2 4096 4096 2 full_world
    = (Done (Some eb), w') /\
    total_ios w' 1 = 1 /\ total_ios w' 2 = 1 /\ total_ios w' 3 = 0.
Proof.
  destruct (debug_corrupt_block_counts_ios sdb_fails raid1_root 4096 4096 2
              (raid1_loc 4096) 2 2 full_world)
    as [eb [w' [Hrun Hcount]]].
  - apply raid1_stable.
  - reflexivity.
  - lia.
  - lia.
  - reflexivity.
  - intros d. simpl. lia.
  - exists eb, w'. split; [exact Hrun|]. rewrite !Hcount.
    repeat split; reflexivity.
Defined.

(** * The block loop with its calls *)

Import BlockRange.

Lemma sector_next (base s : Z) (q : nat) :
  u64 (sector base s q + s) = sector base s (S q).
Proof.
  unfold sector, u64. rewrite Zplus_mod_idemp_l. f_equal. lia.
Qed.

Lemma corrupt_range_step (flt : faults) (root : btrfs_root) (fuel inner : nat)
    (logical bytes copy : Z) :
  corrupt_range flt root (S fuel) inner logical bytes copy =
  if bytes >? 0 then
    bind (debug_corrupt_block flt root inner logical (sectorsize root) copy)
         (fun _ => corrupt_range flt root fuel inner (u64 (logical + sectorsize root))
                                 (u64 (bytes - sectorsize root)) copy)
  else mret tt.
Proof. reflexivity. Qed.

Lemma bytes_next (s : Z) (n : nat) :
  0 < s -> Z.of_nat (S n) * s < 2 ^ 64 ->
  u64 (Z.of_nat (S n) * s - s) = Z.of_nat n * s.
Proof.
  intros Hs Hb. unfold u64. rewrite Z.mod_small; [lia|]. nia.
Qed.

(** X14.  When no buffer can be had, [debug_corrupt_block] returns NULL
    without printing, reading or writing anything, and the block loop of
    [main], which does not look at what the call returns, goes through all
    its sectors the same way and ends normally with no byte changed. *)
Theorem corrupt_range_out_of_memory
    (flt : faults) (root : btrfs_root) (logical copy : Z) (n fuel inner : nat)
    (w : world) :
  nomem flt = true ->
  0 < sectorsize root ->
  Z.of_nat n * sectorsize root < 2 ^ 64 ->
  (n < fuel)%nat ->
  debug_corrupt_block flt root inner logical (sectorsize root) copy w = (Done None, w) /\
  corrupt_range flt root fuel inner logical (Z.of_nat n * sectorsize root) copy w
  = (Done tt, w).
Proof.
  intros Hmem Hs Hb Hfuel.
  assert (Hcall : forall lg, debug_corrupt_block flt root inner lg (sectorsize root) copy w
                             = (Done None, w)).
  { intros lg. unfold debug_corrupt_block, btrfs_find_create_tree_block.
    rewrite Hmem. reflexivity. }
  split; [apply Hcall|].
  revert logical fuel Hfuel Hb.
  induction n as [|n IH]; intros logical fuel Hfuel Hb;
    (destruct fuel as [|fuel]; [lia|]); rewrite corrupt_range_step.
  - reflexivity.
  - assert (E : (Z.of_nat (S n) * sectorsize root >? 0) = true)
      by (apply Z.gtb_lt; nia).
    rewrite E. rewrite (bind_done _ _ _ _ _ (Hcall logical)).
    rewrite bytes_next by assumption.
    apply IH; [lia | nia].
Qed.

Lemma corrupt_range_out_of_memory_witness :
  (0 < sectorsize raid1_root) /\
  corrupt_range out_of_memory raid1_root 3 2 4096 (Z.of_nat 2 * sectorsize raid1_root)
                0 full_world
  = (Done tt, full_world).
Proof.
  split; [reflexivity|].
  apply (corrupt_range_out_of_memory out_of_memory raid1_root 4096 0 2 3 2 full_world);
    [reflexivity | reflexivity | reflexivity | lia].
Defined.

(** X15.  The block loop over [n] sectors, each with [N] stable mirrors:
    it ends normally after calling [debug_corrupt_block] on the sectors in
    order, the calls made are those of each sector one after the other, and
    the bytes that end up zero are those of the selected mirrors of each
    sector whose write went through; every other byte is as it was. *)
Theorem corrupt_range_all_sectors
    (flt : faults) (root : btrfs_root) (base copy : Z) (N' : nat)
    (loc : nat -> Z -> btrfs_bio_stripe) (n : nat) :
  forall (q0 fuel inner : nat) (w : world),
    0 < sectorsize root ->
    Z.of_nat n * sectorsize root < 2 ^ 64 ->
    (forall q, (q0 <= q < q0 + n)%nat ->
               stable_mirrors root (sector base (sectorsize root) q) (sectorsize root)
                              (Z.of_nat N') (loc q)) ->
    (1 <= N')%nat ->
    Z.of_nat N' < INT_MAX ->
    (N' <= inner)%nat ->
    (n < fuel)%nat ->
    nomem flt = false ->
    exists w',
      corrupt_range flt root fuel inner (sector base (sectorsize root) q0)
                    (Z.of_nat n * sectorsize root) copy w = (Done tt, w') /\
      log w' = log w ++ range_events base (sectorsize root) copy N' loc (seq q0 n) /\
      (forall f o,
          disk w' f o =
          if range_writes flt (sectorsize root) copy N' loc f o (seq q0 n)
          then Byte.x00 else disk w f o).
Proof.
  induction n as [|n IH]; intros q0 fuel inner w Hs Hb Hst H1 HN Hinner Hfuel Hmem;
    (destruct fuel as [|fuel]; [lia|]); rewrite corrupt_range_step.
  - exists w. split; [reflexivity|]. simpl. rewrite app_nil_r. auto.
  - assert (E : (Z.of_nat (S n) * sectorsize root >? 0) = true)
      by (apply Z.gtb_lt; nia).
    rewrite E.
    destruct (debug_corrupt_block_stable flt root (sector base (sectorsize root) q0)
                (sectorsize root) copy _ (loc q0) (Hst q0 ltac:(lia)) HN
                N' inner w eq_refl H1 Hinner Hmem)
      as [eb [w1 [Hrun [_ [_ [Hlog1 Hdisk1]]]]]].
    rewrite (bind_done _ _ _ _ _ Hrun).
    rewrite sector_next, bytes_next by assumption.
    destruct (IH (S q0) fuel inner w1) as [w' [Hrest [Hlog Hdisk]]]; try assumption;
      try lia; try nia.
    { intros q Hq. apply Hst. lia. }
    exists w'. split; [exact Hrest|]. split.
    + rewrite Hlog, Hlog1. unfold range_events. cbn [seq flat_map].
      rewrite <- app_assoc. reflexivity.
    + intros f o. rewrite Hdisk, Hdisk1. unfold range_writes. cbn [seq existsb].
      destruct (existsb (writes flt (sectorsize root) copy (loc q0) f o) (range 1 N'));
        destruct (existsb _ (seq (S q0) n)); reflexivity.
Qed.

(** Two sectors of the two-mirror filesystem, from 4096 on. *)
Lemma corrupt_range_all_sectors_witness :
  (0 < sectorsize raid1_root) /\
  exists w',
    corrupt_range no_faults raid1_root 3 2 (sector 4096 (sectorsize raid1_root) 0)
                  (Z.of_nat 2 * sectorsize raid1_root) 0 full_world = (Done tt, w') /\
    disk w' 3 1052672 = Byte.x00 /\ disk w' 4 (2101248 + 8191) = Byte.x00 /\
    disk w' 3 (1052672 + 8192) = Byte.xff.
Proof.
  split; [reflexivity|].
  destruct (corrupt_range_all_sectors no_faults raid1_root 4096 0 2
              (fun q => raid1_loc (sector 4096 4096 q)) 2 0 3 2 full_world)
    as [w' [Hrun [_ Hdisk]]].
  - reflexivity.
  - reflexivity.
  - intros q Hq. apply raid1_stable.
  - lia.
  - reflexivity.
  - lia.
  - lia.
  - reflexivity.
  - exists w'. split; [exact Hrun|].
    rewrite !Hdisk. repeat split; reflexivity.
Defined.

(** * Further properties of [main] *)

Import Cli CliSpec CliMore.

Lemma handle_option_ok (c : option_char) (v : locals) (l : list action) :
  option_ok c = true -> handle_option c v l = (Done (set_option v c), l).
Proof.
  destruct c as [a | a | a | | ]; simpl; intros H; try discriminate;
    try (apply negb_true_iff in H; rewrite H); reflexivity.
Qed.

Lemma handle_option_bad (c : option_char) (v : locals) (l : list action) :
  option_ok c = false ->
  exists pre, handle_option c v l = (Exited 1, l ++ pre ++ [ActUsage]) /\
              Forall is_stderr pre.
Proof.
  intros H. destruct (handle_option_run c v l) as [[v' [E _]] | Hbad]; [|exact Hbad].
  exfalso. destruct c as [a | a | a | | ]; simpl in *; try discriminate;
    apply negb_false_iff in H; rewrite H in E; unfold bind, act, print_usage in E;
    discriminate.
Qed.

Lemma option_loop_ok (opts : list option_char) :
  forall (v : locals) (l : list action),
    forallb option_ok opts = true ->
    option_loop opts v l = (Done (fold_left set_option opts v), l).
Proof.
  induction opts as [|c opts IH]; intros v l H; simpl in *; [reflexivity|].
  apply andb_true_iff in H. destruct H as [Hc Hrest].
  rewrite (bind_done _ _ _ _ _ (handle_option_ok c v l Hc)). apply IH. exact Hrest.
Qed.

Lemma option_loop_bad (opts : list option_char) :
  forall (v : locals) (l : list action),
    forallb option_ok opts = false ->
    exists pre, option_loop opts v l = (Exited 1, l ++ pre ++ [ActUsage]) /\
                Forall is_stderr pre.
Proof.
  induction opts as [|c opts IH]; intros v l H; simpl in *; [discriminate|].
  destruct (option_ok c) eqn:Hc; simpl in H.
  - rewrite (bind_done _ _ _ _ _ (handle_option_ok c v l Hc)). apply IH. exact H.
  - destruct (handle_option_bad c v l Hc) as [pre [E Hpre]].
    exists pre. split; [|exact Hpre]. unfold bind. rewrite E. reflexivity.
Qed.

(** [logical] and [copy] after the options do not depend on what
    [extent_rec] held at the start. *)
Lemma fold_set_option_garbage (opts : list option_char) :
  forall v v' : locals,
    logical v = logical v' -> copy v = copy v' -> bytes v = bytes v' ->
    logical (fold_left set_option opts v) = logical (fold_left set_option opts v') /\
    copy (fold_left set_option opts v) = copy (fold_left set_option opts v') /\
    bytes (fold_left set_option opts v) = bytes (fold_left set_option opts v').
Proof.
  induction opts as [|c opts IH]; intros v v' Hl Hc Hb; simpl; [auto|].
  apply IH; destruct c; simpl; congruence.
Qed.

Lemma parsed_garbage (garbage : Z) (opts : list option_char) :
  logical (parsed garbage opts) = logical (parsed 0 opts) /\
  copy (parsed garbage opts) = copy (parsed 0 opts) /\
  bytes (parsed garbage opts) = bytes (parsed 0 opts).
Proof. apply fold_set_option_garbage; reflexivity. Qed.

Lemma u64_range (z : Z) : 0 <= u64 z < 2 ^ 64.
Proof. unfold u64. apply Z.mod_pos_bound. lia. Qed.

(** [logical] and [bytes] stay 64-bit values, and [bytes] is never 0 once
    the options are let through. *)
Lemma fold_set_option_range (opts : list option_char) :
  forall v : locals,
    0 <= logical v < 2 ^ 64 -> 0 < bytes v < 2 ^ 64 ->
    forallb option_ok opts = true ->
    0 <= logical (fold_left set_option opts v) < 2 ^ 64 /\
    0 < bytes (fold_left set_option opts v) < 2 ^ 64.
Proof.
  induction opts as [|c opts IH]; intros v Hl Hb H; simpl in *; [auto|].
  apply andb_true_iff in H. destruct H as [Hc Hrest].
  apply IH; [| | exact Hrest]; destruct c as [a | a | a | | ]; simpl in *;
    try assumption; try discriminate.
  - apply u64_range.
  - apply negb_true_iff, Z.eqb_neq in Hc. pose proof (u64_range a). lia.
Qed.

Lemma parsed_range (garbage : Z) (opts : list option_char) :
  forallb option_ok opts = true ->
  0 <= logical (parsed garbage opts) < 2 ^ 64 /\
  0 < bytes (parsed garbage opts) < 2 ^ 64.
Proof.
  intros H. apply fold_set_option_range; [simpl; lia | simpl; lia | exact H].
Qed.

Lemma parsed_extent_rec (garbage : Z) (opts : list option_char) :
  forallb option_ok opts = true ->
  extent_rec (parsed garbage opts) = if existsb is_opt_e opts then 1 else garbage.
Proof.
  intros H.
  exact (option_loop_extent_rec opts _ _ [] []
           (option_loop_ok opts (initial_locals garbage) [] H)).
Qed.

(** What [main] does on a command line that the checks let through. *)
Lemma main_accepted {St Eb : Type}
    (corrupt_extent : Z -> Z -> M St Z) (debug_corrupt_block : Z -> Z -> Z -> M St Eb)
    (fuel : nat) (garbage : Z) (opts : list option_char) (rest : Z)
    (open_ctree : option Z) (st : St) :
  accepted opts rest = true ->
  main corrupt_extent debug_corrupt_block fuel garbage opts rest open_ctree ([], st) =
  let v := parsed garbage opts in
  match open_ctree with
  | None => (Exited 1, ([ActOpenCtree; ActStderr "Open ctree failed"], st))
  | Some sectorsize =>
      if negb (extent_rec v =? 0) then
        (fst (corrupt_extent (logical v) 0 st),
         ([ActOpenCtree; ActCorruptExtent (logical v) 0],
          snd (corrupt_extent (logical v) 0 st)))
      else if sectorsize =? 0 then (Undef, ([ActOpenCtree], st))
      else
        bind (block_loop debug_corrupt_block fuel sectorsize (logical v)
                (u64 (u64 ((if bytes v =? 0 then sectorsize else bytes v)
                           + sectorsize - 1) / sectorsize * sectorsize))
                (copy v))
             (fun _ => mret 0) ([ActOpenCtree], st)
  end.
Proof.
  unfold accepted. intros H.
  apply andb_true_iff in H. destruct H as [H Hcopy].
  apply andb_true_iff in H. destruct H as [H Hlog].
  apply andb_true_iff in H. destruct H as [Hok Hrest].
  destruct (parsed_garbage garbage opts) as [El [Ec _]].
  rewrite <- El in Hlog. rewrite <- Ec in Hcopy.
  apply negb_true_iff in Hrest, Hlog.
  assert (Hcopy' : (copy (parsed garbage opts) <? 0) = false) by
    (apply Z.ltb_ge; apply Z.leb_le; exact Hcopy).
  rewrite (main_after_options _ _ _ _ _ _ _ _ _
             (option_loop_ok opts (initial_locals garbage) [] Hok)).
  fold (parsed garbage opts). rewrite Hrest, Hlog, Hcopy'. reflexivity.
Qed.

(** What [main] does on a command line that the checks refuse. *)
Lemma main_refused {St Eb : Type}
    (corrupt_extent : Z -> Z -> M St Z) (debug_corrupt_block : Z -> Z -> Z -> M St Eb)
    (fuel : nat) (garbage : Z) (opts : list option_char) (rest : Z)
    (open_ctree : option Z) (st : St) :
  accepted opts rest = false ->
  exists pre,
    main corrupt_extent debug_corrupt_block fuel garbage opts rest open_ctree ([], st)
    = (Exited 1, (pre ++ [ActUsage], st)) /\
    Forall is_stderr pre.
Proof.
  unfold accepted. intros H.
  destruct (forallb option_ok opts) eqn:Hok.
  - rewrite (main_after_options _ _ _ _ _ _ _ _ _
               (option_loop_ok opts (initial_locals garbage) [] Hok)).
    fold (parsed garbage opts).
    destruct (parsed_garbage garbage opts) as [El [Ec _]]. rewrite El, Ec.
    exists []. split; [|constructor].
    simpl in H.
    destruct (rest =? 0); [reflexivity|].
    destruct (logical (parsed 0 opts) =? 0); [reflexivity|].
    simpl in H. apply Z.leb_gt in H. apply Z.ltb_lt in H. rewrite H. reflexivity.
  - destruct (option_loop_bad opts (initial_locals garbage) [] Hok) as [pre [E Hpre]].
    exists pre. split; [|exact Hpre].
    exact (main_options_exit _ _ _ _ _ _ _ _ _ _ E).
Qed.

Lemma stderr_no_call (pre : list action) :
  Forall is_stderr pre -> existsb is_call (pre ++ [ActUsage]) = false.
Proof.
  induction 1 as [|a pre [m Ha] _ IH]; [reflexivity|].
  subst a. simpl. exact IH.
Qed.

(** The block loop on [n] whole sectors makes the calls for these sectors
    one after the other. *)
Lemma block_loop_sectors {St Eb : Type} (debug_corrupt_block : Z -> Z -> Z -> M St Eb)
    (base s copy : Z) (n : nat) :
  forall (q0 fuel : nat) (st : list action * St),
    0 < s -> Z.of_nat n * s < 2 ^ 64 -> (n < fuel)%nat ->
    block_loop debug_corrupt_block fuel s (BlockRange.sector base s q0)
               (Z.of_nat n * s) copy st =
    sector_calls debug_corrupt_block base s copy (seq q0 n) st.
Proof.
  induction n as [|n IH]; intros q0 fuel st Hs Hb Hfuel;
    (destruct fuel as [|fuel]; [lia|]); cbn [block_loop seq sector_calls].
  - reflexivity.
  - assert (E : (Z.of_nat (S n) * s >? 0) = true) by (apply Z.gtb_lt; nia).
    rewrite E. unfold bind at 1 2.
    destruct (call (ActDebugCorruptBlock (BlockRange.sector base s q0) s copy)
                   (debug_corrupt_block (BlockRange.sector base s q0) s copy) st)
      as [[eb | | | | k] st1]; try reflexivity.
    rewrite sector_next, bytes_next by assumption.
    apply IH; [assumption | nia | lia].
Qed.

(** When every call returns, the calls for the sectors [qs] are all made. *)
Lemma sector_calls_return {St Eb : Type} (debug_corrupt_block : Z -> Z -> Z -> M St Eb)
    (base s copy : Z) :
  (forall b st0, exists eb st1, debug_corrupt_block b s copy st0 = (Done eb, st1)) ->
  forall (qs : list nat) (l : list action) (st : St),
  exists st',
    sector_calls debug_corrupt_block base s copy qs (l, st) =
    (Done tt,
     (l ++ map (fun q => ActDebugCorruptBlock (BlockRange.sector base s q) s copy) qs,
      st')).
Proof.
  intros Hret. induction qs as [|q qs IH]; intros l st; cbn [sector_calls map].
  - exists st. rewrite app_nil_r. reflexivity.
  - destruct (Hret (BlockRange.sector base s q) st) as [eb [st1 E]].
    unfold bind at 1. rewrite call_run, E. cbn [fst snd].
    destruct (IH (l ++ [ActDebugCorruptBlock (BlockRange.sector base s q) s copy]) st1)
      as [st' H].
    exists st'. rewrite H, <- app_assoc. reflexivity.
Qed.

(** The block branch of [main] on an accepted command line: the byte
    count is not 0 at line 244, and the loop is run on the count rounded up
    to whole sectors. *)
Lemma main_block_run {St Eb : Type}
    (corrupt_extent : Z -> Z -> M St Z) (debug_corrupt_block : Z -> Z -> Z -> M St Eb)
    (fuel : nat) (opts : list option_char) (rest sectorsize : Z) (st : St) :
  accepted opts rest = true ->
  existsb is_opt_e opts = false ->
  0 < sectorsize ->
  0 <= logical (parsed 0 opts) < 2 ^ 64 /\
  0 < bytes (parsed 0 opts) < 2 ^ 64 /\
  main corrupt_extent debug_corrupt_block fuel 0 opts rest (Some sectorsize) ([], st) =
  bind (block_loop debug_corrupt_block fuel sectorsize (logical (parsed 0 opts))
          (u64 (u64 (bytes (parsed 0 opts) + sectorsize - 1) / sectorsize * sectorsize))
          (copy (parsed 0 opts)))
       (fun _ => mret 0) ([ActOpenCtree], st).
Proof.
  intros Hacc He Hs.
  assert (Hok : forallb option_ok opts = true).
  { unfold accepted in Hacc. repeat (apply andb_true_iff in Hacc; destruct Hacc as [Hacc _]).
    exact Hacc. }
  destruct (parsed_range 0 opts Hok) as [Hl Hb].
  split; [exact Hl|]. split; [exact Hb|].
  rewrite (main_accepted _ _ _ _ _ _ _ _ Hacc). cbv zeta.
  rewrite (parsed_extent_rec 0 opts Hok), He. cbn [Z.eqb negb].
  assert (Es : (sectorsize =? 0) = false) by (apply Z.eqb_neq; lia).
  assert (Eb' : (bytes (parsed 0 opts) =? 0) = false) by (apply Z.eqb_neq; lia).
  rewrite Es, Eb'. reflexivity.
Qed.

(** X16.  [open_ctree] is reached exactly on the command lines that pass
    the checks: every option known and with an argument that does not read
    as 0, an argument left after the options, a [-l] given, and the last
    [-c] not negative.  Every other command line ends with status 1 after
    the usage text, with at most error lines before it, and no corrupter is
    called. *)
Theorem main_opens_iff_accepted {St Eb : Type}
    (corrupt_extent : Z -> Z -> M St Z) (debug_corrupt_block : Z -> Z -> Z -> M St Eb)
    (fuel : nat) (garbage : Z) (opts : list option_char) (rest : Z)
    (open_ctree : option Z) (st : St) :
  exists o acts st',
    main corrupt_extent debug_corrupt_block fuel garbage opts rest open_ctree ([], st)
    = (o, (acts, st')) /\
    (In ActOpenCtree acts <-> accepted opts rest = true) /\
    (accepted opts rest = false ->
     o = Exited 1 /\ existsb is_call acts = false /\ st' = st /\
     exists pre, acts = pre ++ [ActUsage] /\ Forall is_stderr pre).
Proof.
  destruct (accepted opts rest) eqn:Hacc.
  - destruct (main corrupt_extent debug_corrupt_block fuel garbage opts rest
                   open_ctree ([], st)) as [o [acts st']] eqn:Hrun.
    exists o, acts, st'. split; [reflexivity|]. split; [|discriminate].
    split; [reflexivity|]. intros _.
    rewrite (main_accepted _ _ _ _ _ _ _ _ Hacc) in Hrun. cbv zeta in Hrun.
    destruct open_ctree as [s|].
    + destruct (negb (extent_rec (parsed garbage opts) =? 0)).
      { inversion Hrun. left. reflexivity. }
      destruct (s =? 0).
      { inversion Hrun. left. reflexivity. }
      match type of Hrun with
      | context [block_loop _ fuel s ?lg ?b ?c] =>
          destruct (block_loop_run debug_corrupt_block fuel s lg b c [ActOpenCtree] st)
            as [o' [calls [st1 [H _]]]]
      end.
      unfold bind in Hrun. rewrite H in Hrun.
      destruct o'; inversion Hrun; left; reflexivity.
    + inversion Hrun. left. reflexivity.
  - destruct (main_refused corrupt_extent debug_corrupt_block fuel garbage opts rest
                open_ctree st Hacc) as [pre [Hrun Hpre]].
    exists (Exited 1), (pre ++ [ActUsage]), st. split; [exact Hrun|]. split.
    + split; [|discriminate]. intros Hin. exfalso.
      exact (stderr_not_open _ Hpre Hin).
    + intros _. split; [reflexivity|]. split; [apply stderr_no_call; exact Hpre|].
      split; [reflexivity|]. exists pre. auto.
Qed.

(** X17.  When the filesystem does not open, [main] ends with status 1
    whatever the command line, and neither corrupter is called. *)
Theorem main_open_failure {St Eb : Type}
    (corrupt_extent : Z -> Z -> M St Z) (debug_corrupt_block : Z -> Z -> Z -> M St Eb)
    (fuel : nat) (garbage : Z) (opts : list option_char) (rest : Z) (st : St) :
  fst (main corrupt_extent debug_corrupt_block fuel garbage opts rest None ([], st))
  = Exited 1 /\
  existsb is_call
    (fst (snd (main corrupt_extent debug_corrupt_block fuel garbage opts rest None
                    ([], st)))) = false /\
  snd (snd (main corrupt_extent debug_corrupt_block fuel garbage opts rest None
                 ([], st))) = st.
Proof.
  destruct (accepted opts rest) eqn:Hacc.
  - rewrite (main_accepted _ _ _ _ _ _ _ _ Hacc). repeat split; reflexivity.
  - destruct (main_refused corrupt_extent debug_corrupt_block fuel garbage opts rest
                None st Hacc) as [pre [Hrun Hpre]].
    rewrite Hrun. split; [reflexivity|]. split; [|reflexivity].
    apply stderr_no_call. exact Hpre.
Qed.

(** X18.  With [-e] on an accepted command line, [main] opens the
    filesystem and calls [corrupt_extent] once, on the value of the last
    [-l] with 0 for the copy.  It ends as that call ends: it returns what
    [corrupt_extent] returns, and the process stops where [corrupt_extent]
    stops it, as on the [BUG_ON] of line 166.  [-c], [--bytes], the sector
    size of the filesystem and the initial content of [extent_rec] play no
    part. *)
Theorem main_extent_mode {St Eb : Type}
    (corrupt_extent : Z -> Z -> M St Z) (debug_corrupt_block : Z -> Z -> Z -> M St Eb)
    (fuel : nat) (garbage : Z) (opts : list option_char) (rest sectorsize : Z)
    (st : St) :
  accepted opts rest = true ->
  existsb is_opt_e opts = true ->
  main corrupt_extent debug_corrupt_block fuel garbage opts rest (Some sectorsize)
       ([], st) =
  (fst (corrupt_extent (logical (parsed 0 opts)) 0 st),
   ([ActOpenCtree; ActCorruptExtent (logical (parsed 0 opts)) 0],
    snd (corrupt_extent (logical (parsed 0 opts)) 0 st))).
Proof.
  intros Hacc He.
  rewrite (main_accepted _ _ _ _ _ _ _ _ Hacc). cbv zeta.
  assert (Hok : forallb option_ok opts = true).
  { unfold accepted in Hacc. repeat (apply andb_true_iff in Hacc; destruct Hacc as [Hacc _]).
    exact Hacc. }
  rewrite (parsed_extent_rec garbage opts Hok), He.
  destruct (parsed_garbage garbage opts) as [El _]. rewrite El. reflexivity.
Qed.

(** [-c 2 --bytes 8192 -l 8192 -e <device>] with the corrupters of the
    file, on a filesystem whose [close_ctree] fails: the process stops on
    the [BUG_ON] of line 166, after the one call. *)
Lemma main_extent_mode_witness :
  exists m,
    Program.main no_faults raid1_root 6 2 0 7
      [Opt_c 2; Opt_b 8192; Opt_l 8192; Opt_e] 1 true
      ([], {| Program.fs :=
                ExtentCorrupter.mk_fs (ExtentCorrupter.mk_leaf data_tree false)
                                      data_tree [] 0 (-5) [];
              Program.devices := full_world |})
    = (Bug, ([ActOpenCtree; ActCorruptExtent 8192 0], m)).
Proof.
  unfold Program.main.
  rewrite (main_extent_mode (Program.corrupt_extent 6)
             (Program.debug_corrupt_block no_faults raid1_root 2) 0 7
             [Opt_c 2; Opt_b 8192; Opt_l 8192; Opt_e] 1 (sectorsize raid1_root)
             _ eq_refl eq_refl).
  eexists. reflexivity.
Defined.

(** X19.  Without [-e], and with [extent_rec] starting at 0, an accepted
    command line makes [main] call [debug_corrupt_block] sector by sector,
    in order of address from the value of the last [-l], on as many
    sectors as it takes to hold the byte count: the count plus the sector
    size minus one, as a 64-bit value, divided by the sector size.  Every
    call gets the sector size as block size and the value of the last [-c].
    The process stops at the first call that stops it, as on the [BUG_ON]
    of line 54; when every call returns, all the calls are made and [main]
    returns 0.  The byte count is never 0 there, so the assignment of line
    245 is never made. *)
Theorem main_block_mode {St Eb : Type}
    (corrupt_extent : Z -> Z -> M St Z) (debug_corrupt_block : Z -> Z -> Z -> M St Eb)
    (fuel : nat) (opts : list option_char) (rest sectorsize : Z) (st : St) :
  accepted opts rest = true ->
  existsb is_opt_e opts = false ->
  0 < sectorsize ->
  let v := parsed 0 opts in
  let n := Z.to_nat (u64 (bytes v + sectorsize - 1) / sectorsize) in
  (n < fuel)%nat ->
  bytes v <> 0 /\
  main corrupt_extent debug_corrupt_block fuel 0 opts rest (Some sectorsize) ([], st) =
  bind (sector_calls debug_corrupt_block (logical v) sectorsize (copy v) (seq 0 n))
       (fun _ => mret 0) ([ActOpenCtree], st) /\
  ((forall b st0, exists eb st1,
       debug_corrupt_block b sectorsize (copy v) st0 = (Done eb, st1)) ->
   exists st',
     main corrupt_extent debug_corrupt_block fuel 0 opts rest (Some sectorsize) ([], st) =
     (Done 0, (ActOpenCtree :: block_calls (logical v) sectorsize (copy v) n, st'))).
Proof.
  intros Hacc He Hs v n Hfuel.
  destruct (main_block_run corrupt_extent debug_corrupt_block fuel opts rest sectorsize
              st Hacc He Hs) as [Hl [Hb Hrun]].
  fold v in Hl, Hb, Hrun.
  split; [lia|].
  pose proof (u64_range (bytes v + sectorsize - 1)) as Hu.
  set (k := u64 (bytes v + sectorsize - 1) / sectorsize) in *.
  assert (Hk : 0 <= k) by (apply Z.div_pos; lia).
  assert (Hks : k * sectorsize <= u64 (bytes v + sectorsize - 1)).
  { unfold k. rewrite Z.mul_comm. apply Z.mul_div_le. exact Hs. }
  assert (Ek : u64 (k * sectorsize) = Z.of_nat n * sectorsize).
  { unfold n. rewrite Z2Nat.id by exact Hk. unfold u64 at 1.
    apply Z.mod_small. split; [nia | lia]. }
  assert (E0 : logical v = BlockRange.sector (logical v) sectorsize 0).
  { unfold BlockRange.sector, u64. simpl Z.of_nat. rewrite Z.mul_0_l, Z.add_0_r.
    symmetry. apply Z.mod_small. exact Hl. }
  assert (Hseq : main corrupt_extent debug_corrupt_block fuel 0 opts rest
                      (Some sectorsize) ([], st) =
                 bind (sector_calls debug_corrupt_block (logical v) sectorsize (copy v)
                                    (seq 0 n))
                      (fun _ => mret 0) ([ActOpenCtree], st)).
  { rewrite Hrun, Ek. rewrite E0 at 1.
    unfold bind. rewrite block_loop_sectors; [reflexivity | exact Hs | | exact Hfuel].
    rewrite <- Ek. apply u64_range. }
  split; [exact Hseq|].
  intros Hret. rewrite Hseq.
  destruct (sector_calls_return debug_corrupt_block (logical v) sectorsize (copy v) Hret
              (seq 0 n) [ActOpenCtree] st) as [st' H].
  exists st'. unfold bind. rewrite H. reflexivity.
Qed.

(** [-l 4096 --bytes 5000 -c 2 <device>] with the corrupters of the file,
    on the two-mirror filesystem with sectors of 4096 bytes: two sectors. *)
Lemma main_block_mode_witness :
  exists m,
    Program.main no_faults raid1_root 6 2 3 0
      [Opt_l 4096; Opt_b 5000; Opt_c 2] 1 true
      ([], {| Program.fs := fresh_fs data_tree; Program.devices := full_world |})
    = (Done 0, ([ActOpenCtree; ActDebugCorruptBlock 4096 4096 2;
                 ActDebugCorruptBlock 8192 4096 2], m)).
Proof.
  unfold Program.main.
  destruct (main_block_mode (Program.corrupt_extent 6)
              (Program.debug_corrupt_block no_faults raid1_root 2) 3
              [Opt_l 4096; Opt_b 5000; Opt_c 2] 1 (sectorsize raid1_root)
              {| Program.fs := fresh_fs data_tree; Program.devices := full_world |}
              eq_refl eq_refl eq_refl) as [_ [_ Hall]].
  - vm_compute. lia.
  - destruct Hall as [m H].
    + intros b m0. unfold Program.debug_corrupt_block.
      destruct (debug_corrupt_block_stable no_faults raid1_root b 4096 2 _
                  (raid1_loc b) (raid1_stable b 4096) eq_refl 2 2
                  (Program.devices m0) eq_refl ltac:(lia) ltac:(lia) eq_refl)
        as [eb [w' [Hrun _]]].
      change (sectorsize raid1_root) with 4096.
      change (copy (parsed 0 [Opt_l 4096; Opt_b 5000; Opt_c 2])) with 2.
      rewrite Hrun. eexists. eexists. reflexivity.
    + exists m. exact H.
Defined.

(** X20.  A byte count within one sector of 2^64 wraps when it is
    rounded up to whole sectors (line 247): the block loop is not entered,
    no corrupter is called, nothing is corrupted and [main] returns 0 as on
    success.  [--bytes -1] is such a count. *)
Theorem main_byte_count_wraps {St Eb : Type}
    (corrupt_extent : Z -> Z -> M St Z) (debug_corrupt_block : Z -> Z -> Z -> M St Eb)
    (fuel : nat) (opts : list option_char) (rest sectorsize : Z) (st : St) :
  accepted opts rest = true ->
  existsb is_opt_e opts = false ->
  0 < sectorsize < 2 ^ 32 ->
  2 ^ 64 - sectorsize < bytes (parsed 0 opts) ->
  (0 < fuel)%nat ->
  main corrupt_extent debug_corrupt_block fuel 0 opts rest (Some sectorsize) ([], st)
  = (Done 0, ([ActOpenCtree], st)).
Proof.
  intros Hacc He Hs Hb Hfuel.
  destruct (main_block_run corrupt_extent debug_corrupt_block fuel opts rest sectorsize
              st Hacc He ltac:(lia)) as [_ [Hr Hrun]].
  assert (Ek : u64 (bytes (parsed 0 opts) + sectorsize - 1) / sectorsize = 0).
  { apply Z.div_small. unfold u64.
    replace (bytes (parsed 0 opts) + sectorsize - 1)
      with (bytes (parsed 0 opts) + sectorsize - 1 - 2 ^ 64 + 1 * 2 ^ 64) by lia.
    rewrite Z.mod_add by lia. rewrite Z.mod_small; lia. }
  rewrite Hrun, Ek.
  destruct fuel as [|fuel]; [lia|]. reflexivity.
Qed.

(** [-l 4096 --bytes -1 <device>], with corrupters that would stop the
    process if they were called. *)
Lemma main_byte_count_wraps_witness :
  main (fun _ _ => BUG_ON true ;; mret 0) (fun _ _ _ => BUG_ON true)
       1 0 [Opt_l 4096; Opt_b (-1)] 1 (Some 4096) ([], tt)
  = (Done 0, ([ActOpenCtree], tt)).
Proof.
  apply (main_byte_count_wraps (fun _ _ => BUG_ON true ;; mret 0)
           (fun _ _ _ => BUG_ON true) 1 [Opt_l 4096; Opt_b (-1)] 1 4096 tt);
    [reflexivity | reflexivity | split; reflexivity | reflexivity | lia].
Defined.
